(** * droid2api: request/response obfuscation and proxy rotation

    A shallow embedding of [src/req-obfuscator.js] (both revisions kept in
    the repository) and [src/proxy-manager.js], followed by the properties
    of the rule compiler, the substitution engine, the streaming rewriter
    and the proxy pool router.

    Conventions.
    - A JavaScript string is a sequence of code units; it is modelled by
      [string], one [ascii] per code unit.
    - A plain JavaScript object is modelled by the list [Object.entries]
      returns for it, in own-property order: array-index keys first, in
      ascending numeric order, then the other keys in insertion order.
    - Module-level [let] variables become fields of an explicit state that
      is passed in and returned. *)

From Stdlib Require Import String Ascii List Bool Arith NArith ZArith Lia.
From Stdlib Require Import DecimalString DecimalZ DecimalPos Permutation Sorted.
Import ListNotations.
Open Scope string_scope.

Set Implicit Arguments.
Set Warnings "-register-all".

(** ** JavaScript strings: [split] and [join] *)

Module JsString.

(** [s.startsWith(p)] *)
Fixpoint starts_with (p s : string) : bool :=
  match p, s with
  | EmptyString, _ => true
  | String a p', String b s' => if Ascii.eqb a b then starts_with p' s' else false
  | String _ _, EmptyString => false
  end.

(** [s.slice(n)] *)
Fixpoint drop (n : nat) (s : string) : string :=
  match n, s with
  | O, _ => s
  | S n', String _ s' => drop n' s'
  | S _, EmptyString => EmptyString
  end.

(** The code units of [s], each as a one-unit string: [s.split("")]. *)
Fixpoint units (s : string) : list string :=
  match s with
  | EmptyString => []
  | String c s' => String c EmptyString :: units s'
  end.

(** Left-to-right scan for a non-empty separator.  [skip] counts the code
    units of an already matched separator that are still to be consumed.
    The result is the piece under construction and the pieces after it. *)
Fixpoint split_scan (sep : string) (skip : nat) (s : string) : string * list string :=
  match s with
  | EmptyString => (EmptyString, [])
  | String c s' =>
      match skip with
      | S k => split_scan sep k s'
      | O =>
          if starts_with sep s then
            let '(p, ps) := split_scan sep (String.length sep - 1) s' in
            (EmptyString, p :: ps)
          else
            let '(p, ps) := split_scan sep 0 s' in
            (String c p, ps)
      end
  end.

(** [s.split(sep)] for a string separator. *)
Definition split (sep s : string) : list string :=
  match sep with
  | EmptyString => units s
  | String _ _ => let '(p, ps) := split_scan sep 0 s in p :: ps
  end.

(** [parts.join(sep)] *)
Fixpoint join (sep : string) (parts : list string) : string :=
  match parts with
  | [] => EmptyString
  | [p] => p
  | p :: rest => p ++ sep ++ join sep rest
  end.

(** The text [join] puts after the first piece. *)
Fixpoint join_rest (sep : string) (parts : list string) : string :=
  match parts with
  | [] => EmptyString
  | p :: rest => sep ++ p ++ join_rest sep rest
  end.

(** [s.split(key).join(value)], the replacement step of the engine. *)
Definition replace_all (key value s : string) : string :=
  join value (split key s).

(** Does [c] occur in [s]? *)
Fixpoint mem (c : ascii) (s : string) : bool :=
  match s with
  | EmptyString => false
  | String d s' => Ascii.eqb c d || mem c s'
  end.

(** [s.includes(t)] *)
Fixpoint includes (t s : string) : bool :=
  starts_with t s ||
  match s with
  | EmptyString => false
  | String _ s' => includes t s'
  end.

(** Simultaneous substitution of code units, used to describe the effect
    of a dictionary whose keys are single code units. *)
Fixpoint subst_units (h : ascii -> string) (s : string) : string :=
  match s with
  | EmptyString => EmptyString
  | String c s' => h c ++ subst_units h s'
  end.

(** [s.trim()]: strip leading and trailing white space and line
    terminators (those of the code units modelled here: TAB, LF, VT, FF,
    CR, SP and NBSP). *)
Definition is_space (c : ascii) : bool :=
  existsb (Nat.eqb (nat_of_ascii c)) [9; 10; 11; 12; 13; 32; 160]%nat.

Fixpoint trim_start (s : string) : string :=
  match s with
  | String c s' => if is_space c then trim_start s' else s
  | EmptyString => EmptyString
  end.

Fixpoint all_space (s : string) : bool :=
  match s with
  | EmptyString => true
  | String c s' => is_space c && all_space s'
  end.

Fixpoint trim_end (s : string) : string :=
  match s with
  | EmptyString => EmptyString
  | String c s' => if all_space s then EmptyString else String c (trim_end s')
  end.

Definition trim (s : string) : string := trim_end (trim_start s).

End JsString.


(** ** Plain JavaScript objects as ordered property lists *)

Module JsObject.

Open Scope list_scope.

(** Own enumerable string-keyed properties, in [Object.entries] order. *)
Definition t (V : Type) : Type := list (string * V).

Definition is_digit (c : ascii) : bool :=
  let n := nat_of_ascii c in (48 <=? n)%nat && (n <=? 57)%nat.

Fixpoint all_digits (s : string) : bool :=
  match s with
  | EmptyString => true
  | String c s' => is_digit c && all_digits s'
  end.

Fixpoint decimal (acc : N) (s : string) : N :=
  match s with
  | EmptyString => acc
  | String c s' => decimal (acc * 10 + (N_of_ascii c - 48))%N s'
  end.

(** A property name is an array index when it is the canonical decimal
    form of an integer in [0, 2^32 - 2]. *)
Definition array_index (k : string) : option N :=
  match k with
  | EmptyString => None
  | String c rest =>
      if all_digits k
         && (negb (Ascii.eqb c "0"%char) || String.eqb rest EmptyString)
         && (String.length k <=? 10)%nat
         && (decimal 0 k <=? 4294967294)%N
      then Some (decimal 0 k)
      else None
  end.

Fixpoint has_key {V} (k : string) (o : t V) : bool :=
  match o with
  | [] => false
  | (k', _) :: o' => String.eqb k k' || has_key k o'
  end.

Fixpoint lookup {V} (k : string) (o : t V) : option V :=
  match o with
  | [] => None
  | (k', v) :: o' => if String.eqb k k' then Some v else lookup k o'
  end.

(** Assignment to an existing own property keeps its position. *)
Fixpoint overwrite {V} (k : string) (v : V) (o : t V) : t V :=
  match o with
  | [] => []
  | (k', v') :: o' =>
      if String.eqb k k' then (k', v) :: o' else (k', v') :: overwrite k v o'
  end.

(** A new array-index property is enumerated after the smaller indices and
    before everything else. *)
Fixpoint insert_index {V} (n : N) (k : string) (v : V) (o : t V) : t V :=
  match o with
  | [] => [(k, v)]
  | (k', v') :: o' =>
      match array_index k' with
      | Some m => if (m <? n)%N then (k', v') :: insert_index n k v o'
                  else (k, v) :: o
      | None => (k, v) :: o
      end
  end.

(** [o[k] = v] on an object created by the literal [{}].  The name
    [__proto__] reaches the accessor inherited from [Object.prototype]
    and creates no own property, whatever it is given. *)
Definition set {V} (k : string) (v : V) (o : t V) : t V :=
  if String.eqb k "__proto__" then o
  else if has_key k o then overwrite k v o
  else match array_index k with
       | Some n => insert_index n k v o
       | None => o ++ [(k, v)]
       end.

(** [for (const [k, v] of entries) result[k] = v], starting from [result]. *)
Fixpoint assign_all {V} (entries : list (string * V)) (result : t V) : t V :=
  match entries with
  | [] => result
  | (k, v) :: rest => assign_all rest (set k v result)
  end.

(** The property lists that are the entries of some object: re-creating
    the properties in order gives the same list back. *)
Definition well_formed {V} (o : t V) : Prop := assign_all o [] = o.

Definition map_values {V W} (f : V -> W) (o : t V) : t W :=
  map (fun kv => (fst kv, f (snd kv))) o.

End JsObject.

Open Scope list_scope.

(** ** Value trees *)

(** A JSON-shaped value.  Numbers are carried through untouched by the
    code, so their payload is kept abstract as an integer. *)
Inductive value : Type :=
| VUndefined
| VNull
| VBool (b : bool)
| VNum (n : Z)
| VStr (s : string)
| VArr (items : list value)
| VObj (props : list (string * value)).

(** Every object inside the tree lists its properties the way
    [Object.entries] does. *)
Fixpoint tree_well_formed (v : value) : Prop :=
  match v with
  | VArr items =>
      (fix all (l : list value) : Prop :=
         match l with
         | [] => True
         | x :: l' => tree_well_formed x /\ all l'
         end) items
  | VObj props =>
      JsObject.well_formed props /\
      (fix all (l : list (string * value)) : Prop :=
         match l with
         | [] => True
         | (_, x) :: l' => tree_well_formed x /\ all l'
         end) props
  | _ => True
  end.

(** Does the code unit [c] occur in a string value of the tree? *)
Fixpoint tree_mentions (c : ascii) (v : value) : bool :=
  match v with
  | VStr s => JsString.mem c s
  | VArr items => existsb (tree_mentions c) items
  | VObj props =>
      (fix any (l : list (string * value)) : bool :=
         match l with
         | [] => false
         | (_, x) :: l' => tree_mentions c x || any l'
         end) props
  | _ => false
  end.

(** Does the text [t] occur in a string value of the tree? *)
Fixpoint tree_includes (t : string) (v : value) : bool :=
  match v with
  | VStr s => JsString.includes t s
  | VArr items => existsb (tree_includes t) items
  | VObj props =>
      (fix any (l : list (string * value)) : bool :=
         match l with
         | [] => false
         | (_, x) :: l' => tree_includes t x || any l'
         end) props
  | _ => false
  end.

(** [processObject(obj, transformFn)], shared by both revisions of
    [req-obfuscator.js]. *)
Fixpoint processObject (transformFn : string -> string) (obj : value) : value :=
  match obj with
  | VNull => obj
  | VUndefined => obj
  | VStr s => VStr (transformFn s)
  | VArr items => VArr (map (processObject transformFn) items)
  | VObj props =>
      VObj ((fix entries_loop (es : list (string * value))
                 (result : JsObject.t value) : JsObject.t value :=
               match es with
               | [] => result
               | (key, v) :: rest =>
                   entries_loop rest
                     (JsObject.set key (processObject transformFn v) result)
               end) props [])
  | VBool _ => obj
  | VNum _ => obj
  end.

(** The loop shared by [obfuscateString] and [deobfuscateString]:
    [for (const [key, value] of Object.entries(dict))
       result = result.split(key).join(value)]. *)
Definition apply_entries (dict : JsObject.t string) (str : string) : string :=
  fold_left (fun result kv => JsString.replace_all (fst kv) (snd kv) result)
            dict str.

(** A chunk of a streamed response: a [Buffer] or a string.  A [Buffer]
    is carried by the text [toString()] decodes it to, and [Buffer.from]
    by the text it encodes.  This describes the chunks that hold whole
    characters of valid UTF-8, which a decoding followed by an encoding
    gives back; a chunk that ends inside a multi-byte character is decoded
    with replacement characters and has no counterpart in this type. *)
Inductive chunk : Type :=
| Buffer (text : string)
| Text (text : string).

Definition chunk_toString (c : chunk) : string :=
  match c with Buffer s => s | Text s => s end.

(** ** [req-obfuscator.js], rule-list revision *)

Module Obfuscator.

(** One element of [config.rules] on which the property reads of the two
    loops succeed: an object, or a primitive, which reads as an object
    without fields.  [active] and [res_obfs] are [None] when the field is
    absent or not a boolean; [rule] is [None] when the field is absent or
    not an object, and otherwise the entries of the pattern-to-replacement
    object. *)
Record ruleObj : Type := {
  active : option bool;
  res_obfs : option bool;
  rule : option (JsObject.t string)
}.

Record state : Type := {
  requestReplacements : JsObject.t string;
  responseReplacements : JsObject.t string
}.

(** [ruleObj.active !== false] *)
Definition is_active (r : ruleObj) : bool :=
  match active r with Some false => false | _ => true end.

(** [ruleObj['res-obfs'] === true] *)
Definition is_res_obfs (r : ruleObj) : bool :=
  match res_obfs r with Some true => true | _ => false end.

Fixpoint build_request (rules : list ruleObj) (dict : JsObject.t string)
  : JsObject.t string :=
  match rules with
  | [] => dict
  | r :: rest =>
      match is_active r, rule r with
      | true, Some entries => build_request rest (JsObject.assign_all entries dict)
      | _, _ => build_request rest dict
      end
  end.

(** The inner loop of the second pass: [responseReplacements[value] = key]. *)
Definition swap_entries (entries : JsObject.t string) : list (string * string) :=
  map (fun kv => (snd kv, fst kv)) entries.

Fixpoint build_response (rules : list ruleObj) (dict : JsObject.t string)
  : JsObject.t string :=
  match rules with
  | [] => dict
  | r :: rest =>
      match is_active r && is_res_obfs r, rule r with
      | true, Some entries =>
          build_response rest (JsObject.assign_all (swap_entries entries) dict)
      | _, _ => build_response rest dict
      end
  end.

(** [loadReplacements()].  The argument is [config.rules].  It is [None]
    in every case in which the code ends with both dictionaries emptied:
    the file is absent or is not JSON, [rules] is missing or is not an
    array, or an element of the array is [null], on which the read of
    [ruleObj.active] throws into the [catch] branch. *)
Definition loadReplacements (rules : option (list ruleObj)) : state :=
  match rules with
  | None => {| requestReplacements := []; responseReplacements := [] |}
  | Some rs =>
      {| requestReplacements := build_request rs [];
         responseReplacements := build_response rs [] |}
  end.

Definition obfuscateString (st : state) (str : string) : string :=
  if String.eqb str "" then str
  else apply_entries (requestReplacements st) str.

Definition deobfuscateString (st : state) (str : string) : string :=
  if String.eqb str "" then str
  else apply_entries (responseReplacements st) str.

Definition obfuscateRequestBody (st : state) (body : value) : value :=
  if (List.length (requestReplacements st) =? 0)%nat then body
  else processObject (obfuscateString st) body.

Definition deobfuscateResponseBody (st : state) (body : value) : value :=
  if (List.length (responseReplacements st) =? 0)%nat then body
  else processObject (deobfuscateString st) body.

(** [DeobfuscateTransform.transform(chunk)] *)
Definition transform (st : state) (c : chunk) : chunk :=
  if (List.length (responseReplacements st) =? 0)%nat then c
  else Buffer (deobfuscateString st (chunk_toString c)).

(** [DeobfuscateTransform.transformStream(stream)]: the chunks yielded for
    the chunks consumed. *)
Fixpoint transformStream (st : state) (stream : list chunk) : list chunk :=
  match stream with
  | [] => []
  | c :: rest => transform st c :: transformStream st rest
  end.

End Obfuscator.

(** ** [req-obfuscator.js], revision with the [res-obfuscation] switch *)

Module GatedObfuscator.

Record state : Type := {
  replacements : JsObject.t string;
  reverseReplacements : JsObject.t string;
  res_obfuscation : bool
}.

(** [loadConfig()].  The argument is [None] when [req.json] is absent or
    unreadable, and otherwise the boolean under ['res-obfuscation'], if
    there is one. *)
Definition loadConfig (file : option (option bool)) : bool :=
  match file with
  | Some (Some b) => b
  | _ => false
  end.

(** [loadReplacements()].  The argument is the parsed flat object of
    [req-replace.json], or [None] when the file is absent or unreadable. *)
Definition loadReplacements (file : option (JsObject.t string))
  : JsObject.t string * JsObject.t string :=
  match file with
  | None => ([], [])
  | Some parsed =>
      (parsed, JsObject.assign_all (Obfuscator.swap_entries parsed) [])
  end.

(** Module initialisation: [loadConfig(); loadReplacements();]. *)
Definition init (cfg : option (option bool)) (file : option (JsObject.t string))
  : state :=
  let '(fwd, rev) := loadReplacements file in
  {| replacements := fwd; reverseReplacements := rev;
     res_obfuscation := loadConfig cfg |}.

Definition obfuscateString (st : state) (str : string) : string :=
  if String.eqb str "" then str
  else apply_entries (replacements st) str.

Definition deobfuscateString (st : state) (str : string) : string :=
  if String.eqb str "" then str
  else apply_entries (reverseReplacements st) str.

Definition obfuscateRequestBody (st : state) (body : value) : value :=
  if (List.length (replacements st) =? 0)%nat then body
  else processObject (obfuscateString st) body.

Definition deobfuscateResponseBody (st : state) (body : value) : value :=
  if negb (res_obfuscation st) then body
  else if (List.length (reverseReplacements st) =? 0)%nat then body
  else processObject (deobfuscateString st) body.

Definition transform (st : state) (c : chunk) : chunk :=
  if negb (res_obfuscation st) then c
  else if (List.length (reverseReplacements st) =? 0)%nat then c
  else Buffer (deobfuscateString st (chunk_toString c)).

Fixpoint transformStream (st : state) (stream : list chunk) : list chunk :=
  match stream with
  | [] => []
  | c :: rest => transform st c :: transformStream st rest
  end.

End GatedObfuscator.

(** ** [JSON.stringify] on value trees *)

Module Json.

Definition dquote : ascii := "034"%char.
Definition backslash : ascii := "092"%char.

(** A number written in decimal, the way [JSON.stringify] writes an
    integer below 10^21. *)
Definition number_text (n : Z) : string :=
  NilZero.string_of_int (Z.to_int n).

Definition hex_digit (n : nat) : ascii :=
  match n with
  | 0 => "0" | 1 => "1" | 2 => "2" | 3 => "3" | 4 => "4" | 5 => "5"
  | 6 => "6" | 7 => "7" | 8 => "8" | 9 => "9" | 10 => "a" | 11 => "b"
  | 12 => "c" | 13 => "d" | 14 => "e" | _ => "f"
  end%char.

(** One code unit of a string between the quotes: the quote and the
    backslash are escaped, the control characters are written by their
    short escape or as [\u00hh], every other code unit stands for
    itself. *)
Definition quote_unit (c : ascii) : string :=
  let n := nat_of_ascii c in
  if Ascii.eqb c dquote then String backslash (String dquote EmptyString)
  else if Ascii.eqb c backslash then String backslash (String backslash EmptyString)
  else if (n =? 8)%nat then String backslash "b"
  else if (n =? 9)%nat then String backslash "t"
  else if (n =? 10)%nat then String backslash "n"
  else if (n =? 12)%nat then String backslash "f"
  else if (n =? 13)%nat then String backslash "r"
  else if (n <? 32)%nat then
    String backslash
      ("u00" ++ String (hex_digit (n / 16)) (String (hex_digit (n mod 16)) EmptyString))%string
  else String c EmptyString.

Fixpoint quote_units (s : string) : string :=
  match s with
  | EmptyString => EmptyString
  | String c s' => (quote_unit c ++ quote_units s')%string
  end.

Definition quote (s : string) : string :=
  String dquote (quote_units s ++ String dquote EmptyString)%string.

(** [JSON.stringify(v)] without indentation.  An array writes an
    [undefined] element as [null]; an object leaves out the properties
    whose value is [undefined]. *)
Fixpoint stringify (v : value) : string :=
  match v with
  | VUndefined => "null"
  | VNull => "null"
  | VBool true => "true"
  | VBool false => "false"
  | VNum n => number_text n
  | VStr s => quote s
  | VArr items => ("[" ++ JsString.join "," (map stringify items) ++ "]")%string
  | VObj props =>
      ("{" ++ JsString.join ","
                ((fix members (l : list (string * value)) : list string :=
                    match l with
                    | [] => []
                    | (k, VUndefined) :: l' => members l'
                    | (k, x) :: l' =>
                        (quote k ++ ":" ++ stringify x)%string :: members l'
                    end) props)
           ++ "}")%string
  end.

(** JSON data: a tree without [undefined]. *)
Fixpoint is_data (v : value) : bool :=
  match v with
  | VUndefined => false
  | VArr items => forallb is_data items
  | VObj props =>
      (fix all (l : list (string * value)) : bool :=
         match l with
         | [] => true
         | (_, x) :: l' => is_data x && all l'
         end) props
  | _ => true
  end.

Definition hex_value (c : ascii) : option nat :=
  (if Ascii.eqb c "0" then Some 0 else if Ascii.eqb c "1" then Some 1
   else if Ascii.eqb c "2" then Some 2 else if Ascii.eqb c "3" then Some 3
   else if Ascii.eqb c "4" then Some 4 else if Ascii.eqb c "5" then Some 5
   else if Ascii.eqb c "6" then Some 6 else if Ascii.eqb c "7" then Some 7
   else if Ascii.eqb c "8" then Some 8 else if Ascii.eqb c "9" then Some 9
   else if Ascii.eqb c "a" then Some 10 else if Ascii.eqb c "b" then Some 11
   else if Ascii.eqb c "c" then Some 12 else if Ascii.eqb c "d" then Some 13
   else if Ascii.eqb c "e" then Some 14 else if Ascii.eqb c "f" then Some 15
   else None)%char.

(** Reading back the code unit at the head of an escaped text, with the
    text behind it. *)
Definition unquote_unit (s : string) : option (ascii * string) :=
  match s with
  | EmptyString => None
  | String c rest =>
      if Ascii.eqb c backslash then
        match rest with
        | EmptyString => None
        | String e rest' =>
            if Ascii.eqb e dquote then Some (dquote, rest')
            else if Ascii.eqb e backslash then Some (backslash, rest')
            else if Ascii.eqb e "b" then Some (ascii_of_nat 8, rest')
            else if Ascii.eqb e "t" then Some (ascii_of_nat 9, rest')
            else if Ascii.eqb e "n" then Some (ascii_of_nat 10, rest')
            else if Ascii.eqb e "f" then Some (ascii_of_nat 12, rest')
            else if Ascii.eqb e "r" then Some (ascii_of_nat 13, rest')
            else if Ascii.eqb e "u" then
              match rest' with
              | String _ (String _ (String h (String l rest''))) =>
                  match hex_value h, hex_value l with
                  | Some a, Some b => Some (ascii_of_nat (16 * a + b), rest'')
                  | _, _ => None
                  end
              | _ => None
              end
            else None
        end
      else Some (c, rest)
  end.

(** The code units a number is written with. *)
Definition numeric (c : ascii) : bool :=
  JsObject.is_digit c || Ascii.eqb c "-".

Fixpoint all_numeric (s : string) : bool :=
  match s with
  | EmptyString => true
  | String c s' => numeric c && all_numeric s'
  end.

(** What the first code unit of a text tells about the value written
    there. *)
Definition tag (s : string) : nat :=
  match s with
  | EmptyString => 8
  | String c _ =>
      (if Ascii.eqb c "n" then 0
       else if Ascii.eqb c "t" then 1
       else if Ascii.eqb c "f" then 2
       else if Ascii.eqb c dquote then 3
       else if Ascii.eqb c "[" then 4
       else if Ascii.eqb c "{" then 5
       else if numeric c then 6
       else 7)%char
  end.

Definition tag_of (v : value) : nat :=
  match v with
  | VUndefined => 0
  | VNull => 0
  | VBool true => 1
  | VBool false => 2
  | VStr _ => 3
  | VArr _ => 4
  | VObj _ => 5
  | VNum _ => 6
  end.

(** A text that can follow a value inside an array or an object: nothing,
    or a text that starts with a comma or a closing bracket. *)
Definition stops (r : string) : Prop :=
  match r with
  | EmptyString => True
  | String c _ => c = ","%char \/ c = "]"%char \/ c = "}"%char
  end.

(** The text of a property: name, colon, value. *)
Definition member (kv : string * value) : string :=
  (quote (fst kv) ++ ":" ++ stringify (snd kv))%string.

(** Reading the number of elements off the text of an array: the commas
    that are outside every string and inside the outermost brackets only
    separate its elements. *)
Inductive scan_mode : Type := Outside | Inside | Escaped.

Record scan_state : Type := {
  mode : scan_mode;
  depth : nat;
  commas : nat
}.

Definition scan_unit (st : scan_state) (c : ascii) : scan_state :=
  match mode st with
  | Escaped => {| mode := Inside; depth := depth st; commas := commas st |}
  | Inside =>
      if Ascii.eqb c backslash
      then {| mode := Escaped; depth := depth st; commas := commas st |}
      else if Ascii.eqb c dquote
      then {| mode := Outside; depth := depth st; commas := commas st |}
      else st
  | Outside =>
      if Ascii.eqb c dquote
      then {| mode := Inside; depth := depth st; commas := commas st |}
      else if Ascii.eqb c "[" || Ascii.eqb c "{"
      then {| mode := Outside; depth := S (depth st); commas := commas st |}
      else if Ascii.eqb c "]" || Ascii.eqb c "}"
      then {| mode := Outside; depth := pred (depth st); commas := commas st |}
      else if Ascii.eqb c "," && (depth st =? 1)%nat
      then {| mode := Outside; depth := depth st; commas := S (commas st) |}
      else st
  end.

Fixpoint scan (st : scan_state) (s : string) : scan_state :=
  match s with
  | EmptyString => st
  | String c s' => scan (scan_unit st c) s'
  end.

Definition element_count (s : string) : nat :=
  if String.eqb s "[]" then 0
  else S (commas (scan {| mode := Outside; depth := 0; commas := 0 |} s)).

(** A text that leaves the scanner where it found it, when read outside a
    string and inside some bracket. *)
Definition balanced (t : string) : Prop :=
  forall d k,
    1 <= d ->
    scan {| mode := Outside; depth := d; commas := k |} t
    = {| mode := Outside; depth := d; commas := k |}.

End Json.

(** ** [proxy-manager.js] *)

Module ProxyManager.

(** The pool handed out by [getProxyConfigs()]: the elements of the
    configured array, whatever JSON values they are. *)
Definition pool : Type := list value.

(** The module variables [proxyIndex] and [lastSnapshot]. *)
Record state : Type := {
  proxyIndex : nat;
  lastSnapshot : string
}.

Definition initial : state := {| proxyIndex := 0; lastSnapshot := "" |}.

(** [snapshotConfigs(configs)].  The pool is data read from the
    configuration, on which [JSON.stringify] does not throw, so the
    [catch] branch is not taken. *)
Definition snapshotConfigs (configs : pool) : string :=
  Json.stringify (VArr configs).

(** [!proxy] *)
Definition falsy (proxy : value) : bool :=
  match proxy with
  | VUndefined => true
  | VNull => true
  | VBool b => negb b
  | VNum n => (n =? 0)%Z
  | VStr s => String.eqb s ""
  | VArr _ => false
  | VObj _ => false
  end.

(** [proxy.url]: the own property of an object.  An object without the
    property, and every value that is not an object, gives [undefined]. *)
Definition url_of (proxy : value) : value :=
  match proxy with
  | VObj props =>
      match JsObject.lookup "url" props with
      | Some x => x
      | None => VUndefined
      end
  | _ => VUndefined
  end.

(** The guard of the loop body,
    [!proxy || typeof proxy.url !== 'string' || proxy.url.trim() === ''],
    read the other way round: the connection URL of a usable entry. *)
Definition usable_url (proxy : value) : option string :=
  if falsy proxy then None
  else match url_of proxy with
       | VStr u => if String.eqb (JsString.trim u) "" then None else Some u
       | _ => None
       end.

Section Router.

(** The connector type and its constructor [new HttpsProxyAgent(url)],
    from the package [https-proxy-agent]; [None] stands for a constructor
    that throws. *)
Variable agent : Type.
Variable HttpsProxyAgent : string -> option agent.

(** What one call hands back to its caller, [{ agent, proxy }] or [null],
    with the indices tried, in the order they were tried. *)
Record outcome : Type := {
  returned : option (agent * value);
  tried : list nat;
  next_state : state
}.

(** The [for] loop, by the number of attempts still to make.  The result
    is the successful index with its connector and entry, if any, and the
    indices tried. *)
Fixpoint attempts (proxies : pool) (start attempt remaining : nat)
  : option (nat * agent * value) * list nat :=
  match remaining with
  | O => (None, [])
  | S remaining' =>
      let index := (start + attempt) mod List.length proxies in
      let continue := attempts proxies start (attempt + 1) remaining' in
      match nth_error proxies index with
      | Some proxy =>
          match usable_url proxy with
          | None => (fst continue, index :: snd continue)
          | Some u =>
              match HttpsProxyAgent u with
              | Some a => (Some (index, a, proxy), [index])
              | None => (fst continue, index :: snd continue)
              end
          end
      | None => (fst continue, index :: snd continue)
      end
  end.

(** [getNextProxyAgent(targetUrl)].  [configs] is what [getProxyConfigs()]
    returns: [None] when it is not an array. *)
Definition getNextProxyAgent (st : state) (configs : option pool) : outcome :=
  match configs with
  | None => {| returned := None; tried := []; next_state := st |}
  | Some proxies =>
      if (List.length proxies =? 0)%nat
      then {| returned := None; tried := []; next_state := st |}
      else
        let currentSnapshot := snapshotConfigs proxies in
        let st1 :=
          if negb (String.eqb currentSnapshot (lastSnapshot st))
          then {| proxyIndex := 0; lastSnapshot := currentSnapshot |}
          else st in
        match attempts proxies (proxyIndex st1) 0 (List.length proxies) with
        | (Some (index, a, proxy), seen) =>
            {| returned := Some (a, proxy);
               tried := seen;
               next_state :=
                 {| proxyIndex := (index + 1) mod List.length proxies;
                    lastSnapshot := lastSnapshot st1 |} |}
        | (None, seen) =>
            {| returned := None; tried := seen; next_state := st1 |}
        end
  end.

(** An entry the loop passes over: the URL is missing or blank, or the
    connector cannot be constructed. *)
Definition entry_fails (entry : value) : Prop :=
  forall u, usable_url entry = Some u -> HttpsProxyAgent u = None.

(** The states the module can be in: the initial one, and the one left by
    a call. *)
Inductive reachable : state -> Prop :=
| reachable_initial : reachable initial
| reachable_call st configs :
    reachable st ->
    reachable (next_state (getNextProxyAgent st configs)).

(** The cursor is an index into every pool whose snapshot is the one seen
    last. *)
Definition cursor_in_range (st : state) : Prop :=
  forall p : pool,
    p <> [] -> lastSnapshot st = snapshotConfigs p -> proxyIndex st < List.length p.

End Router.

End ProxyManager.

(** ** The rule compiler as the data model describes it *)

Module RuleCompiler.

(** The value written last for [k] in a sequence of writes. *)
Fixpoint last_write {V} (k : string) (writes : list (string * V)) : option V :=
  match writes with
  | [] => None
  | (k', v) :: rest =>
      match last_write k rest with
      | Some w => Some w
      | None => if String.eqb k k' then Some v else None
      end
  end.

(** The pattern-to-replacement pairs of the active rules, in configuration
    order. *)
Fixpoint forward_writes (rules : list Obfuscator.ruleObj) : list (string * string) :=
  match rules with
  | [] => []
  | r :: rest =>
      match Obfuscator.is_active r, Obfuscator.rule r with
      | true, Some entries => entries ++ forward_writes rest
      | _, _ => forward_writes rest
      end
  end.

(** The replacement-to-pattern pairs of the active and reversible rules,
    in configuration order. *)
Fixpoint reverse_writes (rules : list Obfuscator.ruleObj) : list (string * string) :=
  match rules with
  | [] => []
  | r :: rest =>
      match Obfuscator.is_active r && Obfuscator.is_res_obfs r, Obfuscator.rule r with
      | true, Some entries => Obfuscator.swap_entries entries ++ reverse_writes rest
      | _, _ => reverse_writes rest
      end
  end.

End RuleCompiler.

(** ** Conditions under which obfuscation can be undone *)

Module RoundTrip.

(** The effect of a dictionary with one-unit keys on one code unit. *)
Definition unit_image (dict : JsObject.t string) (c : ascii) : string :=
  match JsObject.lookup (String c EmptyString) dict with
  | Some p => p
  | None => String c EmptyString
  end.

(** The effect of the single entry [c -> p] on one code unit. *)
Definition replace_unit (c : ascii) (p : string) (d : ascii) : string :=
  if Ascii.eqb c d then p else String d EmptyString.

(** Every string value of the tree satisfies [P]. *)
Fixpoint strings_all (P : string -> Prop) (v : value) : Prop :=
  match v with
  | VStr s => P s
  | VArr items =>
      (fix all (l : list value) : Prop :=
         match l with
         | [] => True
         | x :: l' => strings_all P x /\ all l'
         end) items
  | VObj props =>
      (fix all (l : list (string * value)) : Prop :=
         match l with
         | [] => True
         | (_, x) :: l' => strings_all P x /\ all l'
         end) props
  | _ => True
  end.

(** No pattern is a substring of another pattern or of any replacement. *)
Definition patterns_apart (writes : list (string * string)) : Prop :=
  forall p r p' r',
    In (p, r) writes -> In (p', r') writes ->
    (p <> p' -> JsString.includes p p' = false)
    /\ JsString.includes p r' = false.

(** The strings of the tree contain no replacement text. *)
Definition free_of_replacements (writes : list (string * string)) (x : value) : Prop :=
  forall p r, In (p, r) writes -> tree_includes r x = false.

(** Every active rule also takes part in de-obfuscation. *)
Definition all_reversible (rules : list Obfuscator.ruleObj) : Prop :=
  Forall (fun r => Obfuscator.is_active r = true -> Obfuscator.is_res_obfs r = true)
         rules.

(** Every replacement is a single code unit. *)
Definition unit_replacements (writes : list (string * string)) : Prop :=
  forall p r, In (p, r) writes -> exists c, r = String c EmptyString.

(** A replacement stands for one pattern only. *)
Definition replacements_invertible (writes : list (string * string)) : Prop :=
  forall p p' r, In (p, r) writes -> In (p', r) writes -> p = p'.

(** No replacement unit occurs in a pattern. *)
Definition units_fresh_in_patterns (writes : list (string * string)) : Prop :=
  forall p c p' r,
    In (p, String c EmptyString) writes -> In (p', r) writes ->
    JsString.mem c p' = false.

(** No replacement unit occurs in a string of the tree. *)
Definition units_fresh_in_tree (writes : list (string * string)) (x : value) : Prop :=
  forall p c, In (p, String c EmptyString) writes -> tree_mentions c x = false.

End RoundTrip.

(** ** Fixtures used by the statements below *)

Module Fixtures.

Import Obfuscator.

(** [{ "rules": [ {"rule": {"x": "y"}, "res-obfs": true},
                  {"rule": {"y": "z"}, "res-obfs": true} ] }] *)
Definition chain_rules : list ruleObj :=
  [ {| active := None; res_obfs := Some true; rule := Some [("x", "y")] |};
    {| active := None; res_obfs := Some true; rule := Some [("y", "z")] |} ].

Definition chain_state : state := loadReplacements (Some chain_rules).

(** [{ "rules": [ {"rule": {"x": "y"}} ] }] *)
Definition single_rule_state : state :=
  loadReplacements
    (Some [ {| active := None; res_obfs := None; rule := Some [("x", "y")] |} ]).

(** [{"a": ["x", {"b": "x"}], "c": null, "d": 5}] *)
Definition nested_input : value :=
  VObj [ ("a", VArr [VStr "x"; VObj [("b", VStr "x")]]);
         ("c", VNull);
         ("d", VNum 5) ].

Definition nested_output : value :=
  VObj [ ("a", VArr [VStr "y"; VObj [("b", VStr "y")]]);
         ("c", VNull);
         ("d", VNum 5) ].

(** A connector constructor for the router fixtures: it accepts the URLs
    that name the http scheme and throws on the others. *)
Definition sample_agent (u : string) : option string :=
  if JsString.starts_with "http" u then Some u else None.

(** [{ "name": "A", "url": "   " }] *)
Definition proxy_A : value :=
  VObj [("name", VStr "A"); ("url", VStr "   ")].

(** [{ "name": "B", "url": "http://b.example:8080" }] *)
Definition proxy_B : value :=
  VObj [("name", VStr "B"); ("url", VStr "http://b.example:8080")].

(** [{ "url": "http://c.example:8080" }] *)
Definition proxy_C : value :=
  VObj [("url", VStr "http://c.example:8080")].

(** [{ "url": "socks://d.example" }] *)
Definition proxy_D : value :=
  VObj [("url", VStr "socks://d.example")].

(** [{ "url": "http://b.example:8080", "name": "" }] and the same entry
    without its name. *)
Definition proxy_unnamed : value :=
  VObj [("url", VStr "http://b.example:8080"); ("name", VStr "")].

Definition proxy_nameless : value :=
  VObj [("url", VStr "http://b.example:8080")].

(** [{ "rules": [ {"rule": {"__proto__": "y"}, "res-obfs": true} ] }] *)
Definition proto_rules : list Obfuscator.ruleObj :=
  [ {| active := Some true; res_obfs := Some true;
       rule := Some [("__proto__", "y")] |} ].

(** [{ "rules": [ {"rule": {"a": "xx"}, "res-obfs": true} ] }] *)
Definition doubled_rules : list Obfuscator.ruleObj :=
  [ {| active := None; res_obfs := Some true; rule := Some [("a", "xx")] |} ].

(** [{ "rules": [ {"rule": {"secret_key": "#", "internal_name": "%"},
                   "res-obfs": true},
                  {"rule": {"unused": "!"}, "active": false} ] }] *)
Definition marker_rules : list Obfuscator.ruleObj :=
  [ {| active := None; res_obfs := Some true;
       rule := Some [("secret_key", "#"); ("internal_name", "%")] |};
    {| active := Some false; res_obfs := None; rule := Some [("unused", "!")] |} ].

(** The rule set of the README as one reversible rule:
    [{ "rules": [ {"rule": {"secret_key": "public_key",
                            "internal_name": "external_name",
                            "private_data": "public_data"},
                   "res-obfs": true} ] }] *)
Definition readme_rules : list Obfuscator.ruleObj :=
  [ {| active := None; res_obfs := Some true;
       rule := Some [("secret_key", "public_key");
                     ("internal_name", "external_name");
                     ("private_data", "public_data")] |} ].

(** [{"text": "This is a secret_key",
      "more": ["internal_name, private_data and secret_keysecret_key", 7]}] *)
Definition readme_input : value :=
  VObj [ ("text", VStr "This is a secret_key");
         ("more", VArr [VStr "internal_name, private_data and secret_keysecret_key";
                        VNum 7]) ].

(** A reversible rule list with the writes [writes]. *)
Definition reversible_rule (writes : list (string * string)) : list Obfuscator.ruleObj :=
  [ {| active := None; res_obfs := Some true; rule := Some writes |} ].

(** [{"text": "the secret_key of internal_name", "more": ["secret_key", 7]}] *)
Definition marker_input : value :=
  VObj [ ("text", VStr "the secret_key of internal_name");
         ("more", VArr [VStr "secret_key"; VNum 7]) ].

End Fixtures.

(** ** Texts in parts, and idle rules *)

Module Engine.

(** The parts of a text put together again: [parts.join("")]. *)
Fixpoint concat_all (parts : list string) : string :=
  match parts with
  | [] => EmptyString
  | a :: rest => (a ++ concat_all rest)%string
  end.

(** A dictionary all of whose keys are single code units. *)
Definition unit_keys (dict : JsObject.t string) : Prop :=
  forall k v, In (k, v) dict -> exists c, k = String c EmptyString.

(** No key of the dictionary occurs in the text. *)
Definition no_key_in (dict : JsObject.t string) (s : string) : Prop :=
  forall k v, In (k, v) dict -> JsString.includes k s = false.

(** A rule that takes no part in compilation: it is switched off, or has
    no rule object. *)
Definition idle (r : Obfuscator.ruleObj) : Prop :=
  Obfuscator.is_active r = false \/ Obfuscator.rule r = None.

End Engine.

(** ** The shape of a value tree *)

Module Shape.

(** The tree with every string value emptied: what is left is the nesting,
    the property names in their order, the array lengths and the scalars
    that are not strings. *)
Fixpoint erase_strings (v : value) : value :=
  match v with
  | VStr _ => VStr EmptyString
  | VArr items => VArr (map erase_strings items)
  | VObj props =>
      VObj ((fix props_loop (l : list (string * value)) : list (string * value) :=
               match l with
               | [] => []
               | (k, x) :: l' => (k, erase_strings x) :: props_loop l'
               end) props)
  | _ => v
  end.

End Shape.

(** ** Sequences of router calls *)

Module Rotation.

Section Calls.

Variable agent : Type.
Variable HttpsProxyAgent : string -> option agent.

(** An entry the loop returns when it reaches it: it has a URL that is not
    blank and the connector can be constructed. *)
Definition entry_works (entry : value) : Prop :=
  exists u a,
    ProxyManager.usable_url entry = Some u /\ HttpsProxyAgent u = Some a.

(** [k] calls in a row while the configuration hands out the same pool;
    the outcomes, first call first. *)
Fixpoint run_calls (k : nat) (st : ProxyManager.state) (proxies : ProxyManager.pool)
  : list (ProxyManager.outcome agent) :=
  match k with
  | O => []
  | S k' =>
      let o := ProxyManager.getNextProxyAgent HttpsProxyAgent st (Some proxies) in
      o :: run_calls k' (ProxyManager.next_state o) proxies
  end.

(** The entry a call handed back, if any. *)
Definition returned_entry (o : ProxyManager.outcome agent) : option value :=
  option_map snd (ProxyManager.returned o).

End Calls.

(** The indices [start, start + 1, ...] of a pool of [n] entries, wrapping
    around, [len] of them from the [first]-th on. *)
Definition cycle (n start first len : nat) : list nat :=
  map (fun j => (start + j) mod n) (seq first len).

(** The index at which a call on [proxies] starts: the cursor when the
    snapshot of the pool is the one seen last, and 0 otherwise. *)
Definition start_index (st : ProxyManager.state) (proxies : ProxyManager.pool)
  (start : nat) : Prop :=
  ProxyManager.lastSnapshot st = ProxyManager.snapshotConfigs proxies
  /\ start = ProxyManager.proxyIndex st
  \/ ProxyManager.lastSnapshot st <> ProxyManager.snapshotConfigs proxies
     /\ start = 0.

End Rotation.

(** ** [error-tracker.js] *)

Module ErrorTracker.

Definition RETENTION_DAYS : Z := 15.
Definition RETENTION_MS : Z := (RETENTION_DAYS * 24 * 60 * 60 * 1000)%Z.

(** The argument of [record401Error]; a field is [None] when it is absent. *)
Record errorInfo : Type := {
  info_endpoint : option string;
  info_method : option string;
  info_modelId : option string;
  info_modelType : option string;
  info_errorDetails : option string
}.

(** One element of [error401Records].  [timestamp] is the value of
    [Date.now()], in milliseconds. *)
Record record : Type := {
  timestamp : Z;
  timestampISO : string;
  endpoint : string;
  method : string;
  modelId : string;
  modelType : string;
  errorDetails : string
}.

(** [value || fallback] on a string field that may be absent: the empty
    string is falsy. *)
Definition or_else (v : option string) (fallback : string) : string :=
  match v with
  | Some s => if String.eqb s "" then fallback else s
  | None => fallback
  end.

(** [record401Error(errorInfo)].  [now] is what [Date.now()] returns and
    [nowISO] what [new Date().toISOString()] returns during the call. *)
Definition record401Error (now : Z) (nowISO : string) (info : errorInfo)
  (error401Records : list record) : list record :=
  error401Records ++
  [ {| timestamp := now;
       timestampISO := nowISO;
       endpoint := or_else (info_endpoint info) "unknown";
       method := or_else (info_method info) "POST";
       modelId := or_else (info_modelId info) "unknown";
       modelType := or_else (info_modelType info) "unknown";
       errorDetails := or_else (info_errorDetails info) "" |} ].

(** [cleanupOldRecords()] at time [now]. *)
Definition cleanupOldRecords (now : Z) (error401Records : list record) : list record :=
  let cutoffTime := (now - RETENTION_MS)%Z in
  filter (fun r => (cutoffTime <=? timestamp r)%Z) error401Records.

(** The argument of [get401Records]: a string or a number. *)
Inductive timeRange : Type :=
| RangeText (s : string)
| RangeNumber (n : Z).

(** [s.endsWith(suffix)] *)
Definition ends_with (suffix s : string) : bool :=
  (String.length suffix <=? String.length s)%nat
  && String.eqb (JsString.drop (String.length s - String.length suffix) s) suffix.

(** [typeof timeRange === 'string' && timeRange.endsWith('h')] *)
Definition in_hours (range : timeRange) : bool :=
  match range with
  | RangeText s => ends_with "h" s
  | RangeNumber _ => false
  end.

Section Queries.

(** The built-in [parseInt] on the argument; [None] stands for [NaN]. *)
Variable parseInt : timeRange -> option Z.

(** The cutoff computed by [get401Records]; [None] stands for [NaN], which
    arithmetic, [Math.max] and [Math.min] pass on. *)
Definition cutoffTime (now : Z) (range : timeRange) : option Z :=
  if in_hours range then
    match parseInt range with
    | Some hours => Some (now - hours * 60 * 60 * 1000)%Z
    | None => None
    end
  else
    match parseInt range with
    | Some n =>
        let days := Z.min (Z.max 1 n) RETENTION_DAYS in
        Some (now - days * 24 * 60 * 60 * 1000)%Z
    | None => None
    end.

(** [get401Records(timeRange)] at time [now]; a comparison with [NaN] is
    false. *)
Definition get401Records (now : Z) (range : timeRange)
  (error401Records : list record) : list record :=
  match cutoffTime now range with
  | Some cutoff => filter (fun r => (cutoff <=? timestamp r)%Z) error401Records
  | None => []
  end.

End Queries.

(** What the module does to its record list. *)
Inductive action : Type :=
| Record401 (now : Z) (nowISO : string) (info : errorInfo)
| Cleanup (now : Z).

Definition perform (a : action) (records : list record) : list record :=
  match a with
  | Record401 now nowISO info => record401Error now nowISO info records
  | Cleanup now => cleanupOldRecords now records
  end.

(** The record list after a sequence of actions, starting from the empty
    list the module is loaded with. *)
Definition after (actions : list action) : list record :=
  fold_left (fun records a => perform a records) actions [].

End ErrorTracker.

(** ** [error-tracker.js]: the distribution over the Beijing-time day *)

Module BeijingTime.

(** [String(n)] for an integer [n]. *)
Definition number_to_string (n : Z) : string :=
  NilZero.string_of_int (Z.to_int n).

(** [s.padStart(targetLength, pad)] for a one-unit [pad]. *)
Definition padStart (targetLength : nat) (pad : ascii) (s : string) : string :=
  (string_of_list_ascii (repeat pad (targetLength - String.length s)) ++ s)%string.

(** [getUTCHours()] and [getUTCMinutes()] of a date with time value [t]
    (milliseconds since the epoch): the hour of the day and the minute of
    the hour, with flooring division. *)
Definition getUTCHours (t : Z) : Z := ((t / 3600000) mod 24)%Z.
Definition getUTCMinutes (t : Z) : Z := ((t / 60000) mod 60)%Z.

Record beijingMinute : Type := {
  date : string;
  minuteOfDay : Z;
  timeStr : string;
  hour : Z;
  minute : Z
}.

(** [arr[m]++] on an array of counts.  The index the code uses is the
    minute of a day, which is always inside the 1440-slot array; outside
    an array this model leaves the array as it is. *)
Fixpoint increment_at (m : nat) (arr : list N) : list N :=
  match arr, m with
  | [], _ => []
  | x :: rest, O => (x + 1)%N :: rest
  | x :: rest, S m' => x :: increment_at m' rest
  end.

(** [keys.sort()]: ascending order of code units. *)
Fixpoint insert_sorted (k : string) (l : list string) : list string :=
  match l with
  | [] => [k]
  | x :: l' => if String.leb k x then k :: l else x :: insert_sorted k l'
  end.

Definition sort (l : list string) : list string :=
  fold_right insert_sorted [] l.

(** The sum of all the counts of a [byDate] object. *)
Definition total (byDate : JsObject.t (list N)) : N :=
  fold_right (fun kv acc => (fold_right N.add 0 (snd kv) + acc)%N) 0%N byDate.

(** What the loop of [getBeijingTimeDistribution] keeps true of [byDate]:
    the dates are distinct and every array has its 1440 slots. *)
Definition byDate_ok (byDate : JsObject.t (list N)) : Prop :=
  NoDup (map fst byDate)
  /\ Forall (fun kv => List.length (snd kv) = 1440) byDate.

Section Distribution.

(** The calendar accessors [getUTCFullYear()], [getUTCMonth()] and
    [getUTCDate()] of a date, by its time value. *)
Variable getUTCFullYear : Z -> Z.
Variable getUTCMonth : Z -> Z.
Variable getUTCDate : Z -> Z.

Variable parseInt : ErrorTracker.timeRange -> option Z.

(** [toBeijingTimeMinute(timestamp)] *)
Definition toBeijingTimeMinute (timestamp : Z) : beijingMinute :=
  let beijingOffset := (8 * 60 * 60 * 1000)%Z in
  let beijingTime := (timestamp + beijingOffset)%Z in
  let year := getUTCFullYear beijingTime in
  let month := padStart 2 "0" (number_to_string (getUTCMonth beijingTime + 1)) in
  let day := padStart 2 "0" (number_to_string (getUTCDate beijingTime)) in
  let h := getUTCHours beijingTime in
  let m := getUTCMinutes beijingTime in
  {| date := (number_to_string year ++ "-" ++ month ++ "-" ++ day)%string;
     minuteOfDay := (h * 60 + m)%Z;
     timeStr := (padStart 2 "0" (number_to_string h) ++ ":"
                 ++ padStart 2 "0" (number_to_string m))%string;
     hour := h;
     minute := m |}.

(** The body of [records.forEach] in [getBeijingTimeDistribution].  A date
    string holds a hyphen, so [byDate[date]] never reaches a property
    inherited from [Object.prototype]: it is a lookup of own properties. *)
Definition count_record (byDate : JsObject.t (list N)) (r : ErrorTracker.record)
  : JsObject.t (list N) :=
  let bm := toBeijingTimeMinute (ErrorTracker.timestamp r) in
  let byDate1 :=
    match JsObject.lookup (date bm) byDate with
    | Some _ => byDate
    | None => JsObject.set (date bm) (repeat 0%N 1440) byDate
    end in
  match JsObject.lookup (date bm) byDate1 with
  | Some arr =>
      JsObject.overwrite (date bm)
        (increment_at (Z.to_nat (minuteOfDay bm)) arr) byDate1
  | None => byDate1
  end.

(** [getBeijingTimeDistribution(timeRange)] at time [now]: the pair of
    [dateList] and [distributionData]. *)
Definition getBeijingTimeDistribution (now : Z) (range : ErrorTracker.timeRange)
  (error401Records : list ErrorTracker.record)
  : list string * list (string * list N) :=
  let records := ErrorTracker.get401Records parseInt now range error401Records in
  let byDate := fold_left count_record records [] in
  let dateList := sort (map fst byDate) in
  (dateList,
   map (fun d => (d, match JsObject.lookup d byDate with
                     | Some arr => arr
                     | None => []
                     end)) dateList).

End Distribution.

End BeijingTime.

(** ** [error-tracker.js], revision that tells first failures of a key from
    repeated ones *)

Module KeyedTracker.

(** The argument of [record401Error]. *)
Record errorInfo : Type := {
  info : ErrorTracker.errorInfo;
  apiKey : option string
}.

Record record : Type := {
  timestamp : Z;
  timestampISO : string;
  endpoint : string;
  method : string;
  modelId : string;
  modelType : string;
  errorDetails : string;
  keyHash : string;
  isFirstFail : bool
}.

(** The module state: [failedKeysSet] is a [Set] of strings, modelled by
    the list of its members in insertion order. *)
Record state : Type := {
  error401Records : list record;
  failedKeysSet : list string
}.

Definition initial : state := {| error401Records := []; failedKeysSet := [] |}.

(** [set.has(k)] *)
Definition set_has (k : string) (set : list string) : bool :=
  existsb (String.eqb k) set.

(** [set.add(k)] *)
Definition set_add (k : string) (set : list string) : list string :=
  if set_has k set then set else set ++ [k].

(** [set.delete(k)] *)
Definition set_delete (k : string) (set : list string) : list string :=
  filter (fun x => negb (String.eqb x k)) set.

(** Upper case of a code unit, for the letters a to z. *)
Definition upper (c : ascii) : ascii :=
  let n := nat_of_ascii c in
  if ((97 <=? n) && (n <=? 122))%nat then ascii_of_nat (n - 32) else c.

Fixpoint upper_string (s : string) : string :=
  match s with
  | EmptyString => EmptyString
  | String c s' => String (upper c) (upper_string s')
  end.

(** [s.substring(0, n)] *)
Fixpoint take (n : nat) (s : string) : string :=
  match n, s with
  | S n', String c s' => String c (take n' s')
  | _, _ => EmptyString
  end.

(** [apiKey.replace(/^Bearer\s+/i, '')]: the word, in any letter case, and
    all the white space after it are removed from the start, when there
    is at least one white space. *)
Definition strip_bearer (s : string) : string :=
  let rest := JsString.drop 6 s in
  if String.eqb (upper_string (take 6 s)) "BEARER"
     && match rest with
        | String c _ => JsString.is_space c
        | EmptyString => false
        end
  then JsString.trim_start rest
  else s.

Section Hashing.

(** [crypto.createHash('sha256').update(key).digest('hex')] *)
Variable sha256_hex : string -> string.

(** [generateKeyHash(apiKey)]; the argument is [None] when it is absent or
    not a string. *)
Definition generateKeyHash (key : option string) : string :=
  match key with
  | None => "unknown"
  | Some k =>
      if String.eqb k "" then "unknown"
      else
        let key := JsString.trim (strip_bearer k) in
        if String.eqb key "" then "unknown"
        else take 12 (sha256_hex key)
  end.

(** [record401Error(errorInfo)], with the clock readings of the call. *)
Definition record401Error (now : Z) (nowISO : string) (e : errorInfo) (st : state)
  : state :=
  let keyHash := generateKeyHash (apiKey e) in
  let isFirstFail := negb (set_has keyHash (failedKeysSet st)) in
  let set1 := if isFirstFail then set_add keyHash (failedKeysSet st)
              else failedKeysSet st in
  {| error401Records :=
       error401Records st ++
       [ {| timestamp := now;
            timestampISO := nowISO;
            endpoint := ErrorTracker.or_else
                          (ErrorTracker.info_endpoint (info e)) "unknown";
            method := ErrorTracker.or_else (ErrorTracker.info_method (info e)) "POST";
            modelId := ErrorTracker.or_else
                         (ErrorTracker.info_modelId (info e)) "unknown";
            modelType := ErrorTracker.or_else
                           (ErrorTracker.info_modelType (info e)) "unknown";
            errorDetails := ErrorTracker.or_else
                              (ErrorTracker.info_errorDetails (info e)) "";
            keyHash := keyHash;
            isFirstFail := isFirstFail |} ];
     failedKeysSet := set1 |}.

(** [cleanupOldRecords()] at time [now]. *)
Definition cleanupOldRecords (now : Z) (st : state) : state :=
  let cutoffTime := (now - ErrorTracker.RETENTION_MS)%Z in
  let beforeCount := List.length (error401Records st) in
  let kept := filter (fun r => (cutoffTime <=? timestamp r)%Z) (error401Records st) in
  let afterCount := List.length kept in
  if (afterCount <? beforeCount)%nat then
    let currentKeyHashes := fold_left (fun s r => set_add (keyHash r) s) kept [] in
    let keysToRemove :=
      filter (fun k => negb (set_has k currentKeyHashes)) (failedKeysSet st) in
    {| error401Records := kept;
       failedKeysSet := fold_left (fun s k => set_delete k s) keysToRemove
                          (failedKeysSet st) |}
  else
    {| error401Records := kept; failedKeysSet := failedKeysSet st |}.

(** The counters of [getTrackerStatus()]: [totalRecords],
    [firstFailRecords], [repeatFailRecords] and [uniqueFailedKeys]. *)
Definition status_counts (st : state) : nat * nat * nat * nat :=
  let firstFailRecords := filter (fun r => Bool.eqb (isFirstFail r) true)
                            (error401Records st) in
  (List.length (error401Records st),
   List.length firstFailRecords,
   List.length (error401Records st) - List.length firstFailRecords,
   List.length (failedKeysSet st)).

Inductive action : Type :=
| Record401 (now : Z) (nowISO : string) (e : errorInfo)
| Cleanup (now : Z).

Definition perform (a : action) (st : state) : state :=
  match a with
  | Record401 now nowISO e => record401Error now nowISO e st
  | Cleanup now => cleanupOldRecords now st
  end.

(** The state after a sequence of actions, from the state the module is
    loaded with. *)
Definition after (actions : list action) : state :=
  fold_left (fun st a => perform a st) actions initial.

(** A record flagged as a first failure has no stored record of the same
    key before it. *)
Definition first_flags_ok (records : list record) : Prop :=
  forall before r later,
    records = before ++ r :: later ->
    isFirstFail r = true ->
    ~ In (keyHash r) (map keyHash before).

End Hashing.

End KeyedTracker.

(** ** [user-agent-updater.js] *)

Module UserAgentUpdater.

Definition USER_AGENT_PREFIX : string := "factory-cli".
Definition MAX_RETRIES : nat := 3.

(** The longest run of decimal digits at the start of [s], and what
    follows it: [\d+] leaves no choice, since what follows it in both
    patterns is not a digit. *)
Fixpoint take_digits (s : string) : string * string :=
  match s with
  | String c s' =>
      if JsObject.is_digit c
      then let '(d, rest) := take_digits s' in (String c d, rest)
      else (EmptyString, s)
  | EmptyString => (EmptyString, EmptyString)
  end.

(** A match of [\d+\.\d+\.\d+] at the start of [s]: the text matched. *)
Definition match_version (s : string) : option string :=
  match take_digits s with
  | (String _ _ as d1, String "." r1) =>
      match take_digits r1 with
      | (String _ _ as d2, String "." r2) =>
          match take_digits r2 with
          | (String _ _ as d3, _) => Some (d1 ++ "." ++ d2 ++ "." ++ d3)%string
          | _ => None
          end
      | _ => None
      end
  | _ => None
  end.

(** [s.match(/\/(\d+\.\d+\.\d+)/)]: the group of the leftmost match. *)
Fixpoint search_version (s : string) : option string :=
  match s with
  | EmptyString => None
  | String c s' =>
      if Ascii.eqb c "/" then
        match match_version s' with
        | Some v => Some v
        | None => search_version s'
        end
      else search_version s'
  end.

(** [getDefaultVersion()]; the argument is [getConfig().user_agent]. *)
Definition getDefaultVersion (user_agent : option string) : string :=
  let userAgent := ErrorTracker.or_else user_agent "factory-cli/0.19.3" in
  match search_version userAgent with
  | Some v => v
  | None => "0.19.3"
  end.

Record state : Type := {
  currentVersion : option string;
  isUpdating : bool
}.

Definition initial : state := {| currentVersion := None; isUpdating := false |}.

Definition initializeVersion (user_agent : option string) (st : state) : state :=
  match currentVersion st with
  | None => {| currentVersion := Some (getDefaultVersion user_agent);
               isUpdating := isUpdating st |}
  | Some _ => st
  end.

(** [getCurrentUserAgent()]: the string returned and the state left. *)
Definition getCurrentUserAgent (user_agent : option string) (st : state)
  : string * state :=
  let st1 := initializeVersion user_agent st in
  ((USER_AGENT_PREFIX ++ "/" ++
    match currentVersion st1 with Some v => v | None => EmptyString end)%string,
   st1).

(** How [fetchLatestVersion()] settles: [None] is a network error or the
    timeout; otherwise the status code and the body received.  The result
    is the version the promise resolves with, or [None] when it rejects. *)
Definition fetchLatestVersion (response : option (Z * string)) : option string :=
  match response with
  | None => None
  | Some (statusCode, data) =>
      if negb (statusCode =? 200)%Z then None
      else
        let version := JsString.trim data in
        if negb (String.eqb version "")
           && match match_version version with Some _ => true | None => false end
        then Some version
        else None
  end.

(** [updateVersionWithRetry(retryCount)] up to its [await]: the state, and
    whether a fetch was started. *)
Definition begin_update (st : state) : state * bool :=
  if isUpdating st then (st, false)
  else ({| currentVersion := currentVersion st; isUpdating := true |}, true).

(** [updateVersionWithRetry(retryCount)] from its [await] on, once the
    fetch has settled: the state, and the retry count of the call that
    [setTimeout] schedules, if any. *)
Definition finish_update (retryCount : nat) (fetched : option string) (st : state)
  : state * option nat :=
  match fetched with
  | Some version =>
      ({| currentVersion := Some version; isUpdating := false |}, None)
  | None =>
      if (retryCount <? MAX_RETRIES - 1)%nat
      then (st, Some (retryCount + 1))
      else ({| currentVersion := currentVersion st; isUpdating := false |}, None)
  end.

(** Calls of [updateVersionWithRetry] made one after the other while no
    fetch of theirs settles: the state and the number of fetches started. *)
Fixpoint begin_updates (calls : nat) (st : state) : state * nat :=
  match calls with
  | O => (st, 0)
  | S calls' =>
      let '(st1, started) := begin_update st in
      let '(st2, n) := begin_updates calls' st1 in
      (st2, if started then S n else n)
  end.

(** What happens to the module state. *)
Inductive action : Type :=
| GetUserAgent (user_agent : option string)
| BeginUpdate
| FinishUpdate (retryCount : nat) (response : option (Z * string)).

Definition perform (a : action) (st : state) : state :=
  match a with
  | GetUserAgent user_agent => snd (getCurrentUserAgent user_agent st)
  | BeginUpdate => fst (begin_update st)
  | FinishUpdate retryCount response =>
      fst (finish_update retryCount (fetchLatestVersion response) st)
  end.

Definition after (actions : list action) : state :=
  fold_left (fun st a => perform a st) actions initial.

End UserAgentUpdater.

(** ** Fixtures for the error tracker *)

Module TrackerFixtures.

Fixpoint leading_digits (s : string) : string :=
  match s with
  | String c s' => if JsObject.is_digit c then String c (leading_digits s') else EmptyString
  | EmptyString => EmptyString
  end.

(** A stand-in for [parseInt] on the arguments used below: numbers are
    integers already, and a string gives the number its leading decimal
    digits spell, if it has any. *)
Definition sample_parseInt (range : ErrorTracker.timeRange) : option Z :=
  match range with
  | ErrorTracker.RangeNumber n => Some n
  | ErrorTracker.RangeText s =>
      match leading_digits s with
      | EmptyString => None
      | d => Some (Z.of_N (JsObject.decimal 0 d))
      end
  end.

(** The civil date of a day number (days since 1970-01-01), for the
    calendar accessors of the fixtures. *)
Definition civil (t : Z) : Z * Z * Z :=
  let z := (t / 86400000 + 719468)%Z in
  let era := (z / 146097)%Z in
  let doe := (z - era * 146097)%Z in
  let yoe := ((doe - doe / 1460 + doe / 36524 - doe / 146096) / 365)%Z in
  let doy := (doe - (365 * yoe + yoe / 4 - yoe / 100))%Z in
  let mp := ((5 * doy + 2) / 153)%Z in
  let d := (doy - (153 * mp + 2) / 5 + 1)%Z in
  let m := (if mp <? 10 then mp + 3 else mp - 9)%Z in
  ((if m <=? 2 then yoe + era * 400 + 1 else yoe + era * 400)%Z, m, d).

Definition sample_year (t : Z) : Z := fst (fst (civil t)).
Definition sample_month (t : Z) : Z := (snd (fst (civil t)) - 1)%Z.
Definition sample_day (t : Z) : Z := snd (civil t).

Definition sample_info : ErrorTracker.errorInfo :=
  {| ErrorTracker.info_endpoint := Some "/v1/messages";
     ErrorTracker.info_method := None;
     ErrorTracker.info_modelId := Some "";
     ErrorTracker.info_modelType := Some "anthropic";
     ErrorTracker.info_errorDetails := None |}.

(** Three errors: 2023-11-14 22:13:20 UTC, one minute later, and the next
    day. *)
Definition sample_records : list ErrorTracker.record :=
  ErrorTracker.after
    [ ErrorTracker.Record401 1700000000000 "2023-11-14T22:13:20.000Z" sample_info;
      ErrorTracker.Record401 1700000060000 "2023-11-14T22:14:20.000Z" sample_info;
      ErrorTracker.Record401 1700086400000 "2023-11-15T22:13:20.000Z" sample_info ].

End TrackerFixtures.

(** ** Dictionaries whose values are fresh code units *)

Module FreshUnits.

(** Every value of the dictionary is a single code unit, and none of these
    units occurs in a key. *)
Definition values_fresh (dict : JsObject.t string) : Prop :=
  forall p r p' r',
    In (p, r) dict -> In (p', r') dict ->
    exists c, r' = String c EmptyString /\ JsString.mem c p = false.

End FreshUnits.

(** ** Words that stand apart, and texts laid out in gaps and blocks *)

Module Words.

(** [s.slice(0, n)] *)
Fixpoint take (n : nat) (s : string) : string :=
  match n, s with
  | O, _ => EmptyString
  | S n', String c s' => String c (take n' s')
  | S _, EmptyString => EmptyString
  end.

(** The non-empty suffixes of [s], longest first. *)
Fixpoint suffixes (s : string) : list string :=
  match s with
  | EmptyString => []
  | String _ s' => s :: suffixes s'
  end.

(** [a] runs into [b]: a non-empty suffix of [a] is a prefix of [b]. *)
Definition runs_into (a b : string) : bool :=
  existsb (fun w => JsString.starts_with w b) (suffixes a).

(** Two words stand apart: neither occurs in the other, and neither runs
    into the other. *)
Definition apart (a b : string) : bool :=
  negb (JsString.includes a b) && negb (JsString.includes b a)
  && negb (runs_into a b) && negb (runs_into b a).

(** The leading parts of [r] after which [r] starts again: the non-empty
    [v] with [r = v ++ z], where [z] is non-empty and is itself a
    beginning of [r].  There is none when [r] does not overlap itself. *)
Definition restarts (r : string) : list string :=
  map (fun n => take n r)
      (filter (fun n => JsString.starts_with (JsString.drop n r) r)
              (seq 1 (String.length r - 1))).

(** The text [s] is clear of the replacement [r] of the pattern [p]: it
    holds no [r], and no [p] that comes right after a leading part of [r]
    after which [r] starts again. *)
Definition clear_of (r p s : string) : Prop :=
  JsString.includes r s = false
  /\ forall v, In v (restarts r) -> JsString.includes (v ++ p) s = false.

End Words.

Module Layout.

(** A text in which some occurrences of patterns have been marked: the
    stretches in between, and for each marked occurrence the pattern [p]
    and the replacement [r] it is exchanged for. *)
Inductive segment : Type :=
| Gap (u : string)
| Block (p r : string).

Definition layout : Type := list segment.

(** The text with every block showing its pattern. *)
Fixpoint original (l : layout) : string :=
  match l with
  | [] => EmptyString
  | Gap u :: l' => (u ++ original l')%string
  | Block p _ :: l' => (p ++ original l')%string
  end.

Definition is_restored (restored : list string) (r : string) : bool :=
  existsb (String.eqb r) restored.

(** The text with the blocks showing their replacement, except those
    whose replacement is listed in [restored], which show their
    pattern. *)
Fixpoint rendered (restored : list string) (l : layout) : string :=
  match l with
  | [] => EmptyString
  | Gap u :: l' => (u ++ rendered restored l')%string
  | Block p r :: l' =>
      ((if is_restored restored r then p else r) ++ rendered restored l')%string
  end.

(** The pattern-replacement pairs of the blocks. *)
Fixpoint blocks (l : layout) : list (string * string) :=
  match l with
  | [] => []
  | Gap _ :: l' => blocks l'
  | Block p r :: l' => (p, r) :: blocks l'
  end.

(** The pieces of a split, with a block between every two of them. *)
Fixpoint of_pieces (p r : string) (pieces : list string) : layout :=
  match pieces with
  | [] => []
  | [u] => [Gap u]
  | u :: rest => Gap u :: Block p r :: of_pieces p r rest
  end.

End Layout.

(** ** Rule sets whose replacements can be told apart in the text *)

Module Separation.

(** Patterns and replacements are non-empty, and no replacement is the
    name [__proto__], which the reverse dictionary cannot hold as a
    key. *)
Definition proper (writes : list (string * string)) : Prop :=
  forall p r, In (p, r) writes -> p <> "" /\ r <> "" /\ r <> "__proto__".

(** Different replacements stand apart. *)
Definition replacements_apart (writes : list (string * string)) : Prop :=
  forall p r p' r',
    In (p, r) writes -> In (p', r') writes -> r <> r' -> Words.apart r r' = true.

(** In a dictionary, a pattern stands apart from the replacement of
    every entry before it: the replacements that are in the text by the
    time the pattern is looked for. *)
Definition patterns_apart_from_earlier (dict : JsObject.t string) : Prop :=
  ForallOrdPairs
    (fun earlier later => Words.apart (fst later) (snd earlier) = true) dict.

(** The string is clear of every replacement. *)
Definition clear_string (writes : list (string * string)) (s : string) : Prop :=
  forall p r, In (p, r) writes -> Words.clear_of r p s.

(** No string of the tree holds the replacement [r], or the pattern [p]
    right after a leading part of [r] after which [r] starts again. *)
Definition tree_clear_of (r p : string) (x : value) : bool :=
  negb (tree_includes r x)
  && forallb (fun v => negb (tree_includes (v ++ p) x)) (Words.restarts r).

(** The strings of the tree are clear of every replacement. *)
Definition clear_of_replacements (writes : list (string * string)) (x : value) : Prop :=
  forall p r, In (p, r) writes -> tree_clear_of r p x = true.

End Separation.

(** * Properties *)

(** ** Substitution engine: fixtures and short-circuits *)

(** C2, as the code has it: with the reversible rules x->y and y->z loaded
    in that order, obfuscating [{"k":"x"}] yields [{"k":"z"}] (the forward
    rules chain), and de-obfuscating [{"k":"z"}] yields [{"k":"y"}]: the
    reverse dictionary is applied in configuration order as well, so only
    the last link of the chain is undone. *)
Theorem chain_fixture_forward_then_reverse :
  Obfuscator.requestReplacements Fixtures.chain_state = [("x", "y"); ("y", "z")]
  /\ Obfuscator.responseReplacements Fixtures.chain_state = [("y", "x"); ("z", "y")]
  /\ Obfuscator.obfuscateRequestBody Fixtures.chain_state (VObj [("k", VStr "x")])
     = VObj [("k", VStr "z")]
  /\ Obfuscator.deobfuscateResponseBody Fixtures.chain_state (VObj [("k", VStr "z")])
     = VObj [("k", VStr "y")].
Proof. repeat split; reflexivity. Qed.

(** C2 as stated does not hold: de-obfuscating [{"k":"z"}] does not give
    [{"k":"x"}] back. *)
Lemma chain_fixture_not_restored :
  ~ (Obfuscator.obfuscateRequestBody Fixtures.chain_state (VObj [("k", VStr "x")])
     = VObj [("k", VStr "z")]
     /\ Obfuscator.deobfuscateResponseBody Fixtures.chain_state (VObj [("k", VStr "z")])
        = VObj [("k", VStr "x")]).
Proof. intros [_ H]. vm_compute in H. discriminate H. Qed.

(** C3: when the forward dictionary is empty [obfuscateRequestBody]
    returns its argument, and when the reverse dictionary is empty
    [deobfuscateResponseBody] returns its argument, for every value tree. *)
Theorem identity_short_circuit (st : Obfuscator.state) (x : value) :
  (Obfuscator.requestReplacements st = [] ->
   Obfuscator.obfuscateRequestBody st x = x)
  /\ (Obfuscator.responseReplacements st = [] ->
      Obfuscator.deobfuscateResponseBody st x = x).
Proof.
  unfold Obfuscator.obfuscateRequestBody, Obfuscator.deobfuscateResponseBody.
  split; intros ->; reflexivity.
Qed.

Lemma identity_short_circuit_witness :
  Obfuscator.obfuscateRequestBody (Obfuscator.loadReplacements None)
    Fixtures.nested_input = Fixtures.nested_input
  /\ Obfuscator.deobfuscateResponseBody (Obfuscator.loadReplacements None)
       Fixtures.nested_input = Fixtures.nested_input.
Proof.
  split.
  - apply (proj1 (identity_short_circuit (Obfuscator.loadReplacements None)
                    Fixtures.nested_input)). reflexivity.
  - apply (proj2 (identity_short_circuit (Obfuscator.loadReplacements None)
                    Fixtures.nested_input)). reflexivity.
Defined.

(** C9: with the single rule x->y, the tree
    [{"a":["x",{"b":"x"}],"c":null,"d":5}] becomes
    [{"a":["y",{"b":"y"}],"c":null,"d":5}]. *)
Theorem tree_traversal_fixture :
  Obfuscator.obfuscateRequestBody Fixtures.single_rule_state Fixtures.nested_input
  = Fixtures.nested_output.
Proof. reflexivity. Qed.

(** ** Streaming rewriter *)

Lemma append_empty_r (s : string) : (s ++ "")%string = s.
Proof. induction s as [|c s IH]; simpl; [|rewrite IH]; reflexivity. Qed.

Lemma append_assoc_s (a b c : string) : ((a ++ b) ++ c = a ++ (b ++ c))%string.
Proof. induction a as [|x a IH]; simpl; [|rewrite IH]; reflexivity. Qed.

(** [join] in terms of the pieces after the first. *)
Lemma join_cons (sep p : string) (ps : list string) :
  JsString.join sep (p :: ps) = (p ++ JsString.join_rest sep ps)%string.
Proof.
  revert p. induction ps as [|q ps IH]; intros p.
  - simpl. now rewrite append_empty_r.
  - change (JsString.join sep (p :: q :: ps))
      with (p ++ sep ++ JsString.join sep (q :: ps))%string.
    rewrite IH. reflexivity.
Qed.

Lemma transformStream_map (st : Obfuscator.state) (stream : list chunk) :
  Obfuscator.transformStream st stream = map (Obfuscator.transform st) stream.
Proof. induction stream as [|c rest IH]; simpl; [|rewrite IH]; reflexivity. Qed.

(** C4: the stream adapter emits one chunk per chunk consumed, each the
    transform of that chunk alone; so with the reverse-dictionary pattern
    "secret" the consecutive chunks "sec" and "ret" come out with their
    text unmodified, although the same pattern is rewritten when it
    arrives in one chunk. *)
Theorem chunk_boundary_limitation
  (st : Obfuscator.state) (original : string) (c1 c2 : chunk)
  (Hdict : Obfuscator.responseReplacements st = [("secret", original)])
  (H1 : chunk_toString c1 = "sec")
  (H2 : chunk_toString c2 = "ret") :
  (forall stream,
      List.length (Obfuscator.transformStream st stream) = List.length stream
      /\ forall i, nth_error (Obfuscator.transformStream st stream) i
                   = option_map (Obfuscator.transform st) (nth_error stream i))
  /\ map chunk_toString (Obfuscator.transformStream st [c1; c2]) = ["sec"; "ret"]
  /\ Obfuscator.transformStream st [Buffer "secret"] = [Buffer original].
Proof.
  split; [|split].
  - intros stream. rewrite transformStream_map. split.
    + apply length_map.
    + intros i. apply nth_error_map.
  - simpl. unfold Obfuscator.transform, Obfuscator.deobfuscateString.
    rewrite Hdict, H1, H2. reflexivity.
  - simpl. unfold Obfuscator.transform, Obfuscator.deobfuscateString.
    rewrite Hdict. cbn. rewrite append_empty_r. reflexivity.
Qed.

Lemma chunk_boundary_limitation_witness :
  map chunk_toString
    (Obfuscator.transformStream
       {| Obfuscator.requestReplacements := [("hidden", "secret")];
          Obfuscator.responseReplacements := [("secret", "hidden")] |}
       [Buffer "sec"; Text "ret"]) = ["sec"; "ret"].
Proof.
  apply (chunk_boundary_limitation
           {| Obfuscator.requestReplacements := [("hidden", "secret")];
              Obfuscator.responseReplacements := [("secret", "hidden")] |}
           (original := "hidden") (Buffer "sec") (Text "ret"));
    reflexivity.
Defined.

(** ** Revision with the [res-obfuscation] switch *)

(** C10: while the [res-obfuscation] flag is false, [deobfuscateResponseBody]
    returns the body and the streaming transform returns every chunk as it
    is, whatever the reverse dictionary holds. *)
Theorem gated_deobfuscation_off (st : GatedObfuscator.state)
  (Hoff : GatedObfuscator.res_obfuscation st = false) :
  (forall body, GatedObfuscator.deobfuscateResponseBody st body = body)
  /\ (forall c, GatedObfuscator.transform st c = c)
  /\ (forall stream, GatedObfuscator.transformStream st stream = stream).
Proof.
  assert (Ht : forall c, GatedObfuscator.transform st c = c).
  { intros c. unfold GatedObfuscator.transform. rewrite Hoff. reflexivity. }
  split; [|split]; trivial.
  - intros body. unfold GatedObfuscator.deobfuscateResponseBody.
    rewrite Hoff. reflexivity.
  - induction stream as [|c rest IH]; simpl; [reflexivity|].
    rewrite Ht, IH. reflexivity.
Qed.

Lemma gated_deobfuscation_off_witness :
  GatedObfuscator.deobfuscateResponseBody
    (GatedObfuscator.init None (Some [("secret_key", "public_key")]))
    (VObj [("response", VStr "Your public_key is valid")])
  = VObj [("response", VStr "Your public_key is valid")].
Proof.
  apply (proj1 (gated_deobfuscation_off
                  (GatedObfuscator.init None (Some [("secret_key", "public_key")]))
                  eq_refl)).
Defined.

(** ** Induction on value trees *)

Lemma value_tree_ind (P : value -> Prop)
  (Hundefined : P VUndefined) (Hnull : P VNull)
  (Hbool : forall b, P (VBool b)) (Hnum : forall n, P (VNum n))
  (Hstr : forall s, P (VStr s))
  (Harr : forall items, Forall P items -> P (VArr items))
  (Hobj : forall props, Forall (fun kv => P (snd kv)) props -> P (VObj props)) :
  forall v, P v.
Proof.
  fix self 1. intros [| |b|n|s|items|props].
  - exact Hundefined.
  - exact Hnull.
  - apply Hbool.
  - apply Hnum.
  - apply Hstr.
  - apply Harr. induction items as [|x items IH]; constructor; [apply self | exact IH].
  - apply Hobj. induction props as [|[k x] props IH]; constructor;
      [apply self | exact IH].
Qed.

(** ** [JSON.stringify]: the text of an array tells its length *)

Lemma scan_app st (a b : string) :
  Json.scan st (a ++ b) = Json.scan (Json.scan st a) b.
Proof.
  revert st. induction a as [|c a IH]; intros st; [reflexivity|].
  simpl. apply IH.
Qed.

Lemma scan_quote_unit c d k :
  Json.scan {| Json.mode := Json.Inside; Json.depth := d; Json.commas := k |}
    (Json.quote_unit c)
  = {| Json.mode := Json.Inside; Json.depth := d; Json.commas := k |}.
Proof.
  destruct c as [[] [] [] [] [] [] [] []]; reflexivity.
Qed.

Lemma scan_quote_units s d k :
  Json.scan {| Json.mode := Json.Inside; Json.depth := d; Json.commas := k |}
    (Json.quote_units s)
  = {| Json.mode := Json.Inside; Json.depth := d; Json.commas := k |}.
Proof.
  induction s as [|c s IH]; [reflexivity|].
  cbn [Json.quote_units]. rewrite scan_app, scan_quote_unit. exact IH.
Qed.

Lemma balanced_quote s : Json.balanced (Json.quote s).
Proof.
  intros d k _. unfold Json.quote.
  change (Json.scan _ (String Json.dquote ?t))
    with (Json.scan {| Json.mode := Json.Inside; Json.depth := d; Json.commas := k |} t).
  rewrite scan_app, scan_quote_units. reflexivity.
Qed.

Lemma balanced_app a b : Json.balanced a -> Json.balanced b -> Json.balanced (a ++ b).
Proof.
  intros Ha Hb d k Hd. rewrite scan_app, Ha, Hb by assumption. reflexivity.
Qed.

Lemma balanced_digits (u : Decimal.uint) : Json.balanced (NilZero.string_of_uint u).
Proof.
  assert (H : Json.balanced (NilEmpty.string_of_uint u)).
  { induction u; intros d k Hd; try reflexivity; simpl;
      specialize (IHu d k Hd); exact IHu. }
  destruct u; exact H.
Qed.

Lemma balanced_number n : Json.balanced (Json.number_text n).
Proof.
  unfold Json.number_text. destruct (Z.to_int n) as [u|u]; simpl.
  - apply balanced_digits.
  - intros d k Hd. simpl. apply balanced_digits. exact Hd.
Qed.

(** Between brackets that are not the outermost ones, the commas of a list
    are not counted. *)
Lemma scan_join_nested (ts : list string) d k :
  Forall Json.balanced ts ->
  2 <= d ->
  Json.scan {| Json.mode := Json.Outside; Json.depth := d; Json.commas := k |}
    (JsString.join "," ts)
  = {| Json.mode := Json.Outside; Json.depth := d; Json.commas := k |}.
Proof.
  intros Hall Hd. induction Hall as [|t ts Ht Hall IH]; [reflexivity|].
  destruct ts as [|t' ts].
  - simpl. apply Ht. lia.
  - change (JsString.join "," (t :: t' :: ts))
      with (t ++ "," ++ JsString.join "," (t' :: ts))%string.
    rewrite scan_app, Ht by lia.
    change (Json.scan ?st ("," ++ ?r)%string)
      with (Json.scan (Json.scan_unit st ","%char) r).
    unfold Json.scan_unit at 1. cbn [Json.mode Json.depth Json.commas].
    replace (d =? 1)%nat with false by (symmetry; apply Nat.eqb_neq; lia).
    simpl andb. cbv iota. exact IH.
Qed.

(** Between the outermost brackets every comma separates two elements. *)
Lemma scan_join_outermost (ts : list string) k :
  Forall Json.balanced ts ->
  Json.scan {| Json.mode := Json.Outside; Json.depth := 1; Json.commas := k |}
    (JsString.join "," ts)
  = {| Json.mode := Json.Outside; Json.depth := 1;
       Json.commas := k + pred (List.length ts) |}.
Proof.
  intros Hall. revert k. induction Hall as [|t ts Ht Hall IH]; intros k.
  - simpl. now rewrite Nat.add_0_r.
  - destruct ts as [|t' ts].
    + simpl. rewrite Nat.add_0_r. apply Ht. lia.
    + change (JsString.join "," (t :: t' :: ts))
        with (t ++ "," ++ JsString.join "," (t' :: ts))%string.
      rewrite scan_app, Ht by lia.
      change (Json.scan ?st ("," ++ ?r)%string)
        with (Json.scan (Json.scan_unit st ","%char) r).
      change (Json.scan_unit _ ","%char)
        with {| Json.mode := Json.Outside; Json.depth := 1; Json.commas := S k |}.
      rewrite IH. cbn [List.length pred]. f_equal. lia.
Qed.

Lemma balanced_brackets (opening closing : ascii) (ts : list string) :
  (opening = "["%char /\ closing = "]"%char
   \/ opening = "{"%char /\ closing = "}"%char) ->
  Forall Json.balanced ts ->
  Json.balanced (String opening (JsString.join "," ts ++ String closing EmptyString)).
Proof.
  intros Hb Hall d k Hd.
  assert (Hopen : Json.scan_unit
                    {| Json.mode := Json.Outside; Json.depth := d; Json.commas := k |}
                    opening
                  = {| Json.mode := Json.Outside; Json.depth := S d; Json.commas := k |})
    by (destruct Hb as [[-> _]|[-> _]]; reflexivity).
  assert (Hclose : Json.scan_unit
                     {| Json.mode := Json.Outside; Json.depth := S d; Json.commas := k |}
                     closing
                   = {| Json.mode := Json.Outside; Json.depth := d; Json.commas := k |})
    by (destruct Hb as [[_ ->]|[_ ->]]; reflexivity).
  cbn [Json.scan]. rewrite Hopen, scan_app, scan_join_nested by (assumption || lia).
  cbn [Json.scan]. rewrite Hclose. reflexivity.
Qed.

Lemma stringify_balanced (v : value) : Json.balanced (Json.stringify v).
Proof.
  induction v as [| |b|n|s|items IH|props IH] using value_tree_ind.
  - intros d k _. reflexivity.
  - intros d k _. reflexivity.
  - destruct b; intros d k _; reflexivity.
  - apply balanced_number.
  - apply balanced_quote.
  - cbn [Json.stringify].
    apply (@balanced_brackets "["%char "]"%char); [left; split; reflexivity|].
    induction IH as [|x items Hx _ IHitems]; constructor; assumption.
  - cbn [Json.stringify].
    apply (@balanced_brackets "{"%char "}"%char); [right; split; reflexivity|].
    induction IH as [|[key x] props Hx _ IHprops]; [constructor|].
    cbn [snd] in Hx.
    assert (Hmember : Json.balanced (Json.quote key ++ ":" ++ Json.stringify x)%string).
    { apply balanced_app; [apply balanced_quote|].
      intros d k Hd. change (Json.scan ?st (":" ++ ?r)%string)
        with (Json.scan (Json.scan_unit st ":"%char) r).
      apply Hx. exact Hd. }
    destruct x; try (constructor; [exact Hmember | exact IHprops]).
    exact IHprops.
Qed.

Lemma stringify_not_empty (v : value) : Json.stringify v <> EmptyString.
Proof.
  destruct v as [| |[]|n|s|items|props]; try discriminate.
  unfold Json.stringify, Json.number_text.
  destruct (Z.to_int n) as [u|u]; [|discriminate].
  destruct u; discriminate.
Qed.

(** The number of elements of an array can be read off its text. *)
Lemma element_count_stringify (items : list value) :
  Json.element_count (Json.stringify (VArr items)) = List.length items.
Proof.
  destruct items as [|x items]; [reflexivity|].
  unfold Json.element_count.
  assert (Hne : String.eqb (Json.stringify (VArr (x :: items))) "[]" = false).
  { apply String.eqb_neq. cbn [Json.stringify map].
    destruct items as [|y items].
    - pose proof (stringify_not_empty x) as Hx. simpl.
      destruct (Json.stringify x) as [|c [|c' t]]; [congruence | discriminate|discriminate].
    - change (JsString.join "," (Json.stringify x :: map Json.stringify (y :: items)))
        with (Json.stringify x ++ "," ++ JsString.join "," (map Json.stringify (y :: items)))%string.
      pose proof (stringify_not_empty x) as Hx.
      destruct (Json.stringify x) as [|c [|c' t]]; [congruence | discriminate|discriminate]. }
  rewrite Hne. cbn [Json.stringify].
  change (Json.scan _ ("[" ++ ?r)%string)
    with (Json.scan {| Json.mode := Json.Outside; Json.depth := 1;
                       Json.commas := 0 |} r).
  rewrite scan_app, scan_join_outermost.
  - rewrite length_map. reflexivity.
  - apply Forall_forall. intros t Ht. apply in_map_iff in Ht.
    destruct Ht as (v & <- & _). apply stringify_balanced.
Qed.

Lemma snapshot_length (p q : list value) :
  Json.stringify (VArr p) = Json.stringify (VArr q) ->
  List.length p = List.length q.
Proof.
  intros H. rewrite <- (element_count_stringify p), <- (element_count_stringify q).
  now rewrite H.
Qed.

(** ** [JSON.stringify]: different data, different text *)

Lemma unquote_quote_unit (c : ascii) (rest : string) :
  Json.unquote_unit (Json.quote_unit c ++ rest) = Some (c, rest).
Proof. destruct c as [[] [] [] [] [] [] [] []]; reflexivity. Qed.

Lemma quote_unit_head (c : ascii) (rest : string) :
  exists d t, (Json.quote_unit c ++ rest)%string = String d t /\ d <> Json.dquote.
Proof.
  destruct c as [[] [] [] [] [] [] [] []];
    eexists; eexists; (split; [reflexivity | discriminate]).
Qed.

Lemma quote_units_inj (s1 s2 r1 r2 : string) :
  (Json.quote_units s1 ++ String Json.dquote r1
   = Json.quote_units s2 ++ String Json.dquote r2)%string ->
  s1 = s2 /\ r1 = r2.
Proof.
  revert s2. induction s1 as [|c1 s1 IH]; intros [|c2 s2] H.
  - simpl in H. injection H as ->. split; reflexivity.
  - exfalso. cbn [Json.quote_units] in H. rewrite append_assoc_s in H.
    destruct (quote_unit_head c2 (Json.quote_units s2 ++ String Json.dquote r2))
      as (d & t & Heq & Hd).
    rewrite Heq in H. simpl in H. injection H as H _. congruence.
  - exfalso. cbn [Json.quote_units] in H. rewrite append_assoc_s in H.
    destruct (quote_unit_head c1 (Json.quote_units s1 ++ String Json.dquote r1))
      as (d & t & Heq & Hd).
    rewrite Heq in H. simpl in H. injection H as H _. congruence.
  - cbn [Json.quote_units] in H. rewrite !append_assoc_s in H.
    apply (f_equal Json.unquote_unit) in H.
    rewrite !unquote_quote_unit in H. injection H as -> H.
    destruct (IH s2 H) as [-> ->]. split; reflexivity.
Qed.

Lemma quote_inj (s1 s2 r1 r2 : string) :
  (Json.quote s1 ++ r1 = Json.quote s2 ++ r2)%string -> s1 = s2 /\ r1 = r2.
Proof.
  unfold Json.quote. simpl. rewrite !append_assoc_s. intros H.
  injection H as H. apply quote_units_inj. exact H.
Qed.

Lemma digits_numeric (u : Decimal.uint) :
  Json.all_numeric (NilEmpty.string_of_uint u) = true.
Proof. induction u; simpl; try reflexivity; exact IHu. Qed.

Lemma number_text_numeric (n : Z) :
  Json.all_numeric (Json.number_text n) = true /\ Json.tag (Json.number_text n) = 6.
Proof.
  unfold Json.number_text.
  destruct (Z.to_int n) as [u|u]; simpl.
  - destruct u; split; try reflexivity; apply (digits_numeric u).
  - split; [|reflexivity]. destruct u; try reflexivity; apply (digits_numeric u).
Qed.

Lemma number_text_inj (n1 n2 : Z) :
  Json.number_text n1 = Json.number_text n2 -> n1 = n2.
Proof.
  unfold Json.number_text. intros H. apply DecimalZ.to_int_inj.
  assert (Hnz : forall n, Z.to_int n <> Decimal.Pos Decimal.Nil
                          /\ Z.to_int n <> Decimal.Neg Decimal.Nil).
  { intros [|p|p]; simpl; split; try discriminate;
      intros E; injection E as E; now apply Unsigned.to_uint_nonnil in E. }
  apply (f_equal NilZero.int_of_string) in H.
  rewrite !NilZero.isi in H by apply Hnz.
  now injection H.
Qed.

Lemma stops_not_numeric (c : ascii) (t : string) :
  Json.stops (String c t) -> Json.numeric c = false.
Proof. intros [-> | [-> | ->]]; reflexivity. Qed.

(** A number is read to its end: it is followed by nothing, a comma or a
    closing bracket. *)
Lemma numeric_split (a b r1 r2 : string) :
  Json.all_numeric a = true -> Json.all_numeric b = true ->
  Json.stops r1 -> Json.stops r2 ->
  (a ++ r1 = b ++ r2)%string -> a = b /\ r1 = r2.
Proof.
  revert b. induction a as [|x a IH]; intros [|y b] Ha Hb H1 H2 H; simpl in *.
  - split; [reflexivity | exact H].
  - exfalso. subst r1. apply andb_true_iff in Hb.
    rewrite (stops_not_numeric H1) in Hb. destruct Hb; discriminate.
  - exfalso. subst r2. apply andb_true_iff in Ha.
    rewrite (stops_not_numeric H2) in Ha. destruct Ha; discriminate.
  - injection H as -> H.
    apply andb_true_iff in Ha. apply andb_true_iff in Hb.
    destruct (IH b (proj2 Ha) (proj2 Hb) H1 H2 H) as [-> ->].
    split; reflexivity.
Qed.

Lemma tag_app (s r : string) : s <> "" -> Json.tag (s ++ r) = Json.tag s.
Proof. destruct s; [congruence | reflexivity]. Qed.

Lemma tag_stringify (v : value) (r : string) :
  Json.tag (Json.stringify v ++ r) = Json.tag_of v.
Proof.
  destruct v as [| |[]|n|s|items|props]; try reflexivity.
  cbn [Json.stringify Json.tag_of].
  rewrite tag_app; [apply number_text_numeric|].
  intros E. pose proof (proj2 (number_text_numeric n)) as H.
  rewrite E in H. discriminate H.
Qed.

Lemma members_of_data (props : list (string * value)) :
  Json.is_data (VObj props) = true ->
  Json.stringify (VObj props)
  = ("{" ++ JsString.join "," (map Json.member props) ++ "}")%string.
Proof.
  intros H. cbn [Json.stringify]. do 3 f_equal.
  cbn [Json.is_data] in H.
  induction props as [|[k x] props IH]; [reflexivity|].
  apply andb_true_iff in H. destruct H as [Hx Hrest].
  cbn [map]. rewrite <- (IH Hrest). unfold Json.member. cbn [fst snd].
  destruct x; try reflexivity. discriminate Hx.
Qed.

Lemma data_items (items : list value) :
  Json.is_data (VArr items) = true <-> Forall (fun x => Json.is_data x = true) items.
Proof. cbn [Json.is_data]. rewrite forallb_forall, Forall_forall. reflexivity. Qed.

Lemma data_props (props : list (string * value)) :
  Json.is_data (VObj props) = true
  <-> Forall (fun kv => Json.is_data (snd kv) = true) props.
Proof.
  cbn [Json.is_data]. induction props as [|[k x] props IH].
  - split; [constructor | reflexivity].
  - rewrite andb_true_iff, IH, Forall_cons_iff. reflexivity.
Qed.

(** The texts of a list, read one after the other: each text tells its
    element, and a comma or the closing bracket follows. *)
Lemma joined_inj {A} (text : A -> string) (ok : A -> Prop) (closing : ascii)
  (Hclose : closing = "]"%char \/ closing = "}"%char) (xs : list A) :
  Forall (fun x => forall y r1 r2,
            ok y -> Json.stops r1 -> Json.stops r2 ->
            (text x ++ r1 = text y ++ r2)%string -> x = y /\ r1 = r2) xs ->
  forall ys r1 r2,
    Forall ok ys ->
    (JsString.join_rest "," (map text xs) ++ String closing r1
     = JsString.join_rest "," (map text ys) ++ String closing r2)%string ->
    xs = ys /\ r1 = r2.
Proof.
  induction 1 as [|x xs Hx _ IH]; intros [|y ys] r1 r2 Hok H.
  - simpl in H. injection H as ->. split; reflexivity.
  - exfalso. simpl in H. injection H as H _.
    destruct Hclose as [-> | ->]; discriminate H.
  - exfalso. simpl in H. injection H as H _.
    destruct Hclose as [-> | ->]; discriminate H.
  - cbn [map JsString.join_rest] in H. simpl in H. injection H as H.
    rewrite !append_assoc_s in H.
    assert (Hstops : forall (zs : list A) r,
               Json.stops (JsString.join_rest "," (map text zs) ++ String closing r)).
    { intros [|z zs] r; simpl; [|now left].
      destruct Hclose as [-> | ->]; [right; now left | right; now right]. }
    inversion Hok as [|y0 ys0 Hy Hys]; subst.
    destruct (Hx y _ _ Hy (Hstops xs r1) (Hstops ys r2) H) as [-> H'].
    destruct (IH ys r1 r2 Hys H') as [-> ->]. split; reflexivity.
Qed.

Lemma bracketed_inj {A} (text : A -> string) (ok : A -> Prop)
  (opening closing : ascii)
  (Hclose : closing = "]"%char \/ closing = "}"%char) (xs ys : list A) (r1 r2 : string) :
  Forall (fun x => forall y r1 r2,
            ok y -> Json.stops r1 -> Json.stops r2 ->
            (text x ++ r1 = text y ++ r2)%string -> x = y /\ r1 = r2) xs ->
  Forall ok ys ->
  (forall x r, Json.tag (text x ++ r) < 7) ->
  (String opening (JsString.join "," (map text xs) ++ String closing EmptyString) ++ r1
   = String opening (JsString.join "," (map text ys) ++ String closing EmptyString) ++ r2)%string ->
  xs = ys /\ r1 = r2.
Proof.
  intros Hall Hok Htag H. simpl in H. injection H as H.
  rewrite !append_assoc_s in H. simpl in H.
  assert (Hclosing_tag : forall r, Json.tag (String closing r) = 7)
    by (intros r; destruct Hclose as [-> | ->]; reflexivity).
  destruct xs as [|x xs], ys as [|y ys].
  - simpl in H. injection H as ->. split; reflexivity.
  - exfalso. cbn [map] in H. rewrite join_cons, append_assoc_s in H.
    apply (f_equal Json.tag) in H. cbn [JsString.join append] in H.
    rewrite Hclosing_tag in H.
    pose proof (Htag y (JsString.join_rest "," (map text ys) ++ String closing r2)%string).
    lia.
  - exfalso. cbn [map] in H. rewrite join_cons, append_assoc_s in H.
    apply (f_equal Json.tag) in H. cbn [JsString.join append] in H.
    rewrite Hclosing_tag in H.
    pose proof (Htag x (JsString.join_rest "," (map text xs) ++ String closing r1)%string).
    lia.
  - cbn [map] in H. rewrite !join_cons, !append_assoc_s in H.
    inversion Hall as [|x0 xs0 Hx Hxs]; subst.
    inversion Hok as [|y0 ys0 Hy Hys]; subst.
    assert (Hstops : forall (zs : list A) r,
               Json.stops (JsString.join_rest "," (map text zs) ++ String closing r)).
    { intros [|z zs] r; simpl; [|now left].
      destruct Hclose as [-> | ->]; [right; now left | right; now right]. }
    destruct (Hx y _ _ Hy (Hstops xs r1) (Hstops ys r2) H) as [-> H'].
    destruct (@joined_inj A text ok closing Hclose xs Hxs ys r1 r2 Hys H') as [-> ->].
    split; reflexivity.
Qed.

(** The text of JSON data, followed by nothing, a comma or a closing
    bracket, tells the data and what follows it. *)
Lemma stringify_reads_back (v1 : value) :
  forall v2 r1 r2,
    Json.is_data v1 = true -> Json.is_data v2 = true ->
    Json.stops r1 -> Json.stops r2 ->
    (Json.stringify v1 ++ r1 = Json.stringify v2 ++ r2)%string ->
    v1 = v2 /\ r1 = r2.
Proof.
  induction v1 as [| |b|n|s|items IH|props IH] using value_tree_ind;
    intros v2 r1 r2 Hd1 Hd2 Hs1 Hs2 H;
    try discriminate Hd1;
    pose proof (f_equal Json.tag H) as Htag; rewrite !tag_stringify in Htag;
    destruct v2 as [| |b2|n2|s2|items2|props2]; try discriminate Hd2;
    try (destruct b); try (destruct b2); try discriminate Htag.
  - simpl in H. injection H as ->. split; reflexivity.
  - simpl in H. injection H as ->. split; reflexivity.
  - simpl in H. injection H as ->. split; reflexivity.
  - cbn [Json.stringify] in H.
    destruct (@numeric_split _ _ r1 r2 (proj1 (number_text_numeric n))
                (proj1 (number_text_numeric n2)) Hs1 Hs2 H) as [Hn ->].
    apply number_text_inj in Hn. subst n2. split; reflexivity.
  - cbn [Json.stringify] in H. destruct (@quote_inj _ _ _ _ H) as [-> ->].
    split; reflexivity.
  - cbn [Json.stringify] in H.
    apply data_items in Hd1. apply data_items in Hd2.
    destruct (@bracketed_inj value Json.stringify (fun y => Json.is_data y = true)
                "["%char "]"%char (or_introl eq_refl) items items2 r1 r2)
      as [-> ->].
    + rewrite Forall_forall in IH, Hd1. apply Forall_forall.
      intros x Hx y q1 q2 Hy Hq1 Hq2 Heq.
      apply (IH x Hx y q1 q2 (Hd1 x Hx) Hy Hq1 Hq2 Heq).
    + exact Hd2.
    + intros x r. rewrite tag_stringify. destruct x as [| |[]| | | |]; simpl; lia.
    + exact H.
    + split; reflexivity.
  - rewrite (members_of_data _ Hd1), (members_of_data _ Hd2) in H.
    apply data_props in Hd1. apply data_props in Hd2.
    destruct (@bracketed_inj (string * value) Json.member
                (fun kv => Json.is_data (snd kv) = true)
                "{"%char "}"%char (or_intror eq_refl) props props2 r1 r2)
      as [-> ->].
    + rewrite Forall_forall in IH, Hd1. apply Forall_forall.
      intros [k x] Hx [k' y] q1 q2 Hy Hq1 Hq2 Heq.
      unfold Json.member in Heq. cbn [fst snd] in Heq, Hy.
      rewrite !append_assoc_s in Heq.
      destruct (@quote_inj _ _ _ _ Heq) as [-> Heq'].
      simpl in Heq'. injection Heq' as Heq'.
      destruct (IH (k', x) Hx y q1 q2 (Hd1 (k', x) Hx) Hy Hq1 Hq2 Heq') as [E1 E2].
      cbn [snd] in E1. subst. split; reflexivity.
    + exact Hd2.
    + intros x r. unfold Json.member, Json.quote. cbn. lia.
    + exact H.
    + split; reflexivity.
Qed.

(** On JSON data the snapshot is as fine as the data: two pools with the
    same text are the same pool. *)
Lemma stringify_injective (v1 v2 : value) :
  Json.is_data v1 = true -> Json.is_data v2 = true ->
  Json.stringify v1 = Json.stringify v2 -> v1 = v2.
Proof.
  intros H1 H2 H.
  apply (@stringify_reads_back v1 v2 "" "" H1 H2 I I).
  now rewrite !append_empty_r.
Qed.

(** ** Proxy pool router *)

Lemma snapshot_not_initial (p : ProxyManager.pool) :
  ProxyManager.snapshotConfigs p <> ProxyManager.lastSnapshot ProxyManager.initial.
Proof. discriminate. Qed.

Section RouterProperties.

Variable agent : Type.
Variable HttpsProxyAgent : string -> option agent.

Lemma attempts_step proxies start attempt remaining :
  ProxyManager.attempts HttpsProxyAgent proxies start attempt (S remaining)
  = let index := (start + attempt) mod List.length proxies in
    let continue :=
      ProxyManager.attempts HttpsProxyAgent proxies start (attempt + 1) remaining in
    match nth_error proxies index with
    | Some proxy =>
        match ProxyManager.usable_url proxy with
        | None => (fst continue, index :: snd continue)
        | Some u =>
            match HttpsProxyAgent u with
            | Some a => (Some (index, a, proxy), [index])
            | None => (fst continue, index :: snd continue)
            end
        end
    | None => (fst continue, index :: snd continue)
    end.
Proof. reflexivity. Qed.

Lemma attempts_tried_length proxies start attempt remaining :
  List.length (snd (ProxyManager.attempts HttpsProxyAgent proxies start attempt remaining))
  <= remaining.
Proof.
  revert attempt. induction remaining as [|r IH]; intros attempt; [simpl; lia|].
  rewrite attempts_step. cbv zeta.
  specialize (IH (attempt + 1)).
  destruct (nth_error proxies _) as [p|]; cbn [snd List.length]; try lia.
  destruct (ProxyManager.usable_url p) as [u|]; cbn [snd List.length]; try lia.
  destruct (HttpsProxyAgent u); cbn [snd List.length]; lia.
Qed.

Lemma attempts_success proxies start attempt remaining index a p :
  fst (ProxyManager.attempts HttpsProxyAgent proxies start attempt remaining)
  = Some (index, a, p) ->
  index < List.length proxies
  /\ nth_error proxies index = Some p
  /\ (exists u, ProxyManager.usable_url p = Some u
                /\ HttpsProxyAgent u = Some a)
  /\ exists skipped,
       snd (ProxyManager.attempts HttpsProxyAgent proxies start attempt remaining)
       = skipped ++ [index].
Proof.
  revert attempt. induction remaining as [|r IH]; intros attempt;
    [simpl; discriminate|].
  rewrite attempts_step. cbv zeta.
  specialize (IH (attempt + 1)).
  set (i := (start + attempt) mod List.length proxies).
  set (rest := ProxyManager.attempts HttpsProxyAgent proxies start (attempt + 1) r) in *.
  assert (Hrec : fst rest = Some (index, a, p) ->
                 index < List.length proxies
                 /\ nth_error proxies index = Some p
                 /\ (exists u, ProxyManager.usable_url p = Some u
                               /\ HttpsProxyAgent u = Some a)
                 /\ exists skipped, i :: snd rest = skipped ++ [index]).
  { intros H. destruct (IH H) as (H1 & H2 & H3 & skipped & H4).
    repeat split; try assumption. exists (i :: skipped). now rewrite H4. }
  destruct (nth_error proxies i) as [q|] eqn:Hnth; try exact Hrec.
  destruct (ProxyManager.usable_url q) as [u|] eqn:Hu; try exact Hrec.
  destruct (HttpsProxyAgent u) as [b|] eqn:Hb; try exact Hrec.
  cbn [fst snd]. intros H. injection H as <- <- <-.
  repeat split.
  - apply nth_error_Some. congruence.
  - exact Hnth.
  - exists u. split; assumption.
  - exists []. reflexivity.
Qed.

Lemma attempts_all_fail proxies start attempt remaining :
  Forall (ProxyManager.entry_fails HttpsProxyAgent) proxies ->
  fst (ProxyManager.attempts HttpsProxyAgent proxies start attempt remaining) = None
  /\ List.length
       (snd (ProxyManager.attempts HttpsProxyAgent proxies start attempt remaining))
     = remaining.
Proof.
  intros Hall. revert attempt.
  induction remaining as [|r IH]; intros attempt; [split; reflexivity|].
  rewrite attempts_step. cbv zeta.
  specialize (IH (attempt + 1)). destruct IH as [IH1 IH2].
  destruct (nth_error proxies _) as [q|] eqn:Hnth; cbn [fst snd List.length];
    try (split; [assumption | now rewrite IH2]).
  destruct (ProxyManager.usable_url q) as [u|] eqn:Hu; cbn [fst snd List.length];
    try (split; [assumption | now rewrite IH2]).
  assert (Hf : ProxyManager.entry_fails HttpsProxyAgent q).
  { rewrite Forall_forall in Hall. apply Hall.
    eapply nth_error_In. exact Hnth. }
  rewrite (Hf u Hu). cbn [fst snd List.length].
  split; [assumption | now rewrite IH2].
Qed.

Lemma attempts_first proxies start remaining :
  0 < remaining ->
  hd_error (snd (ProxyManager.attempts HttpsProxyAgent proxies start 0 remaining))
  = Some (start mod List.length proxies).
Proof.
  destruct remaining as [|r]; [lia|]. intros _.
  rewrite attempts_step. cbv zeta. rewrite Nat.add_0_r.
  destruct (nth_error proxies _) as [q|]; try reflexivity.
  destruct (ProxyManager.usable_url q) as [u|]; try reflexivity.
  destruct (HttpsProxyAgent u); reflexivity.
Qed.

(** The state in which the loop of a call on [proxies] starts: the cursor
    is kept when the snapshot of the pool is the one seen last, and is 0
    otherwise. *)
Lemma call_unfold st (proxies : ProxyManager.pool) :
  proxies <> [] ->
  exists start,
    (ProxyManager.lastSnapshot st = ProxyManager.snapshotConfigs proxies
     /\ start = ProxyManager.proxyIndex st
     \/ ProxyManager.lastSnapshot st <> ProxyManager.snapshotConfigs proxies
        /\ start = 0)
    /\ ProxyManager.getNextProxyAgent HttpsProxyAgent st (Some proxies)
       = match ProxyManager.attempts HttpsProxyAgent proxies start 0
                 (List.length proxies) with
         | (Some (index, a, p), seen) =>
             {| ProxyManager.returned := Some (a, p);
                ProxyManager.tried := seen;
                ProxyManager.next_state :=
                  {| ProxyManager.proxyIndex := (index + 1) mod List.length proxies;
                     ProxyManager.lastSnapshot :=
                       ProxyManager.snapshotConfigs proxies |} |}
         | (None, seen) =>
             {| ProxyManager.returned := None;
                ProxyManager.tried := seen;
                ProxyManager.next_state :=
                  {| ProxyManager.proxyIndex := start;
                     ProxyManager.lastSnapshot :=
                       ProxyManager.snapshotConfigs proxies |} |}
         end.
Proof.
  intros Hne. unfold ProxyManager.getNextProxyAgent.
  assert (Hlen : (List.length proxies =? 0)%nat = false).
  { apply Nat.eqb_neq. destruct proxies; [congruence | discriminate]. }
  rewrite Hlen. cbv zeta.
  destruct (String.eqb (ProxyManager.snapshotConfigs proxies)
              (ProxyManager.lastSnapshot st)) eqn:Hd; cbn [negb].
  - apply String.eqb_eq in Hd.
    exists (ProxyManager.proxyIndex st). split.
    + left. split; [now symmetry | reflexivity].
    + destruct st as [i l].
      cbn [ProxyManager.proxyIndex ProxyManager.lastSnapshot] in *. subst l.
      destruct (ProxyManager.attempts _ _ _ _ _) as [[[[index a] p]|] seen];
        reflexivity.
  - apply String.eqb_neq in Hd.
    exists 0. split.
    + right. split; [congruence | reflexivity].
    + reflexivity.
Qed.

Lemma call_cursor_in_range st (proxies : ProxyManager.pool) :
  proxies <> [] ->
  ProxyManager.cursor_in_range st ->
  ProxyManager.lastSnapshot
    (ProxyManager.next_state
       (ProxyManager.getNextProxyAgent HttpsProxyAgent st (Some proxies)))
  = ProxyManager.snapshotConfigs proxies
  /\ ProxyManager.proxyIndex
       (ProxyManager.next_state
          (ProxyManager.getNextProxyAgent HttpsProxyAgent st (Some proxies)))
     < List.length proxies.
Proof.
  intros Hne Hinv.
  assert (Hlen : 0 < List.length proxies).
  { destruct proxies; [congruence | simpl; lia]. }
  destruct (call_unfold st Hne) as (start & Hstart & ->).
  assert (Hs : start < List.length proxies).
  { destruct Hstart as [[Hsame ->] | [_ ->]]; [apply Hinv; assumption | assumption]. }
  destruct (ProxyManager.attempts _ _ _ _ _) as [[[[index a] p]|] seen];
    cbn [ProxyManager.next_state ProxyManager.lastSnapshot ProxyManager.proxyIndex].
  - split; [reflexivity|]. apply Nat.mod_upper_bound. lia.
  - split; [reflexivity | assumption].
Qed.

Lemma reachable_cursor_in_range st :
  ProxyManager.reachable HttpsProxyAgent st -> ProxyManager.cursor_in_range st.
Proof.
  induction 1 as [|st configs Hr IH].
  - intros p _ Hp. symmetry in Hp. now apply snapshot_not_initial in Hp.
  - destruct configs as [proxies|]; [|exact IH].
    assert (proxies = [] \/ proxies <> []) as [-> | Hne]
      by (destruct proxies; [left | right]; congruence); [exact IH|].
    destruct (call_cursor_in_range Hne IH) as [Hsnap Hidx].
    intros p _ Hp. rewrite Hsnap in Hp.
    rewrite <- (@snapshot_length proxies p Hp). exact Hidx.
Qed.

(** C6: after a call on a non-empty pool the rotation cursor is an index
    of that pool; when the fingerprint of the pool, its [JSON.stringify]
    text, is not the one seen last, the call behaves as a call whose
    cursor is 0: index 0 of the new pool is the first one tried; and on
    JSON data the fingerprint is as fine as the data, so this is what
    happens whenever the pool is not the pool seen last. *)
Theorem rotation_cursor_invariant st (proxies : ProxyManager.pool)
  (Hreach : ProxyManager.reachable HttpsProxyAgent st)
  (Hne : proxies <> []) :
  let o := ProxyManager.getNextProxyAgent HttpsProxyAgent st (Some proxies) in
  let starts_at_0 :=
    o = ProxyManager.getNextProxyAgent HttpsProxyAgent
          {| ProxyManager.proxyIndex := 0;
             ProxyManager.lastSnapshot := ProxyManager.snapshotConfigs proxies |}
          (Some proxies)
    /\ hd_error (ProxyManager.tried o) = Some 0 in
  ProxyManager.proxyIndex (ProxyManager.next_state o) < List.length proxies
  /\ (ProxyManager.lastSnapshot st <> ProxyManager.snapshotConfigs proxies ->
      starts_at_0)
  /\ (forall last : ProxyManager.pool,
        ProxyManager.lastSnapshot st = ProxyManager.snapshotConfigs last ->
        Json.is_data (VArr last) = true ->
        Json.is_data (VArr proxies) = true ->
        proxies <> last ->
        starts_at_0).
Proof.
  intros o starts_at_0.
  assert (Hreset : ProxyManager.lastSnapshot st <> ProxyManager.snapshotConfigs proxies ->
                   starts_at_0).
  { intros Hdiff. subst starts_at_0 o.
    assert (Hlen : 0 < List.length proxies).
    { destruct proxies; [congruence | simpl; lia]. }
    destruct (call_unfold st Hne) as (start & Hstart & ->).
    destruct (call_unfold
                {| ProxyManager.proxyIndex := 0;
                   ProxyManager.lastSnapshot := ProxyManager.snapshotConfigs proxies |}
                Hne)
      as (start' & Hstart' & ->).
    assert (start = 0) as -> by (destruct Hstart as [[? _]|[_ ?]]; congruence).
    assert (start' = 0) as ->.
    { destruct Hstart' as [[_ ?]|[? _]]; [assumption|]. simpl in *. congruence. }
    split; [reflexivity|].
    pose proof (attempts_first proxies 0 Hlen) as Hhd.
    rewrite Nat.Div0.mod_0_l in Hhd.
    destruct (ProxyManager.attempts _ _ _ _ _) as [[[[index a] p]|] seen];
      exact Hhd. }
  split; [|split].
  - apply call_cursor_in_range; [assumption|].
    apply reachable_cursor_in_range; assumption.
  - exact Hreset.
  - intros last Hlast Hd1 Hd2 Hdiff. apply Hreset.
    rewrite Hlast. intros Heq. apply Hdiff.
    unfold ProxyManager.snapshotConfigs in Heq.
    pose proof (@stringify_injective (VArr last) (VArr proxies) Hd1 Hd2 Heq) as E.
    now injection E.
Qed.

(** C7: without a pool (none configured, or an empty one) the call returns
    none at once and leaves the state alone; with a pool whose entries all
    fail it returns none after trying every index once; and no call tries
    more candidates than the pool has entries.  The function is total:
    every failure is a value handed to the caller. *)
Theorem exhaustion_is_not_fatal st :
  ProxyManager.getNextProxyAgent HttpsProxyAgent st None
  = {| ProxyManager.returned := None; ProxyManager.tried := [];
       ProxyManager.next_state := st |}
  /\ ProxyManager.getNextProxyAgent HttpsProxyAgent st (Some [])
     = {| ProxyManager.returned := None; ProxyManager.tried := [];
          ProxyManager.next_state := st |}
  /\ (forall proxies : ProxyManager.pool,
        proxies <> [] ->
        Forall (ProxyManager.entry_fails HttpsProxyAgent) proxies ->
        ProxyManager.returned
          (ProxyManager.getNextProxyAgent HttpsProxyAgent st (Some proxies)) = None
        /\ List.length
             (ProxyManager.tried
                (ProxyManager.getNextProxyAgent HttpsProxyAgent st (Some proxies)))
           = List.length proxies)
  /\ (forall proxies : ProxyManager.pool,
        List.length
          (ProxyManager.tried
             (ProxyManager.getNextProxyAgent HttpsProxyAgent st (Some proxies)))
        <= List.length proxies).
Proof.
  split; [reflexivity|]. split; [reflexivity|]. split.
  - intros proxies Hne Hall.
    destruct (call_unfold st Hne) as (start & _ & ->).
    destruct (attempts_all_fail start 0 (List.length proxies) Hall) as [H1 H2].
    destruct (ProxyManager.attempts _ _ _ _ _) as [[[[index a] p]|] seen];
      simpl in *; [discriminate H1 | split; [reflexivity | exact H2]].
  - intros proxies.
    assert (proxies = [] \/ proxies <> []) as [-> | Hne]
      by (destruct proxies; [left | right]; congruence); [simpl; lia|].
    destruct (call_unfold st Hne) as (start & _ & ->).
    pose proof (attempts_tried_length proxies start 0 (List.length proxies)) as Hlen.
    destruct (ProxyManager.attempts _ _ _ _ _) as [[[[index a] p]|] seen];
      exact Hlen.
Qed.

Lemma attempts_invalid_then_valid (A B : value) u a start
  (HA : ProxyManager.usable_url A = None)
  (HB : ProxyManager.usable_url B = Some u)
  (Ha : HttpsProxyAgent u = Some a) :
  ProxyManager.attempts HttpsProxyAgent [A; B] start 0 2
  = (Some (1, a, B), if (start mod 2 =? 0)%nat then [0; 1] else [1]).
Proof.
  rewrite !attempts_step. cbv zeta. cbn [List.length].
  rewrite Nat.add_0_r.
  assert (Hcases : start mod 2 = 0 /\ (start + (0 + 1)) mod 2 = 1
                   \/ start mod 2 = 1).
  { pose proof (Nat.mod_upper_bound start 2).
    assert (H2 : (start + (0 + 1)) mod 2 = (start mod 2 + 1) mod 2).
    { rewrite Nat.add_0_l. rewrite <- Nat.Div0.add_mod_idemp_l. reflexivity. }
    destruct (start mod 2) as [|[|k]] eqn:E; [left | right | lia].
    - split; [reflexivity | rewrite H2; reflexivity].
    - reflexivity. }
  destruct Hcases as [[-> ->] | ->].
  - cbn [nth_error]. rewrite HA, HB, Ha. reflexivity.
  - cbn [nth_error]. rewrite HB, Ha. reflexivity.
Qed.

(** C5: in the pool [A, B], where A has no usable URL and B is valid, a
    call returns B with its connector and records the index after B,
    which wraps to 0; the next call starts at 0, passes over A and returns
    B again.  In general the cursor is written on success only, from the
    index of the entry returned: an entry passed over leaves no trace in
    it. *)
Theorem router_failover st (A B : value) u a
  (HA : ProxyManager.usable_url A = None)
  (HB : ProxyManager.usable_url B = Some u)
  (Ha : HttpsProxyAgent u = Some a) :
  let pool : ProxyManager.pool := [A; B] in
  let first := ProxyManager.getNextProxyAgent HttpsProxyAgent st (Some pool) in
  let second :=
    ProxyManager.getNextProxyAgent HttpsProxyAgent
      (ProxyManager.next_state first) (Some pool) in
  ProxyManager.returned first = Some (a, B)
  /\ ProxyManager.proxyIndex (ProxyManager.next_state first) = 0
  /\ ProxyManager.tried second = [0; 1]
  /\ ProxyManager.returned second = Some (a, B)
  /\ ProxyManager.proxyIndex (ProxyManager.next_state second) = 0
  /\ (forall st0 (proxies : ProxyManager.pool) a0 p0,
        ProxyManager.returned
          (ProxyManager.getNextProxyAgent HttpsProxyAgent st0 (Some proxies))
        = Some (a0, p0) ->
        exists index skipped,
          ProxyManager.tried
            (ProxyManager.getNextProxyAgent HttpsProxyAgent st0 (Some proxies))
          = skipped ++ [index]
          /\ nth_error proxies index = Some p0
          /\ ProxyManager.usable_url p0 <> None
          /\ ProxyManager.proxyIndex
               (ProxyManager.next_state
                  (ProxyManager.getNextProxyAgent HttpsProxyAgent st0 (Some proxies)))
             = (index + 1) mod List.length proxies).
Proof.
  intros pool first second.
  assert (Hne : pool <> []) by discriminate.
  assert (Hlen : List.length pool = 2) by reflexivity.
  assert (Hfirst : ProxyManager.returned first = Some (a, B)
                   /\ ProxyManager.next_state first
                      = {| ProxyManager.proxyIndex := 0;
                           ProxyManager.lastSnapshot :=
                             ProxyManager.snapshotConfigs pool |}).
  { subst first. destruct (call_unfold st Hne) as (start & _ & ->).
    rewrite Hlen. unfold pool.
    rewrite (@attempts_invalid_then_valid A B u a start HA HB Ha).
    split; reflexivity. }
  destruct Hfirst as [Hret Hst].
  assert (Hsecond : second
                    = {| ProxyManager.returned := Some (a, B);
                         ProxyManager.tried := [0; 1];
                         ProxyManager.next_state :=
                           {| ProxyManager.proxyIndex := 0;
                              ProxyManager.lastSnapshot :=
                                ProxyManager.snapshotConfigs pool |} |}).
  { subst second. rewrite Hst.
    destruct (call_unfold
                {| ProxyManager.proxyIndex := 0;
                   ProxyManager.lastSnapshot := ProxyManager.snapshotConfigs pool |}
                Hne)
      as (start & Hstart & ->).
    assert (start = 0) as ->.
    { destruct Hstart as [[_ ?]|[? _]]; [assumption | simpl in *; congruence]. }
    rewrite Hlen. unfold pool.
    rewrite (@attempts_invalid_then_valid A B u a 0 HA HB Ha). reflexivity. }
  repeat split.
  - exact Hret.
  - rewrite Hst. reflexivity.
  - rewrite Hsecond. reflexivity.
  - rewrite Hsecond. reflexivity.
  - rewrite Hsecond. reflexivity.
  - intros st0 proxies a0 p0 Hsome.
    assert (proxies = [] \/ proxies <> []) as [-> | Hne0]
      by (destruct proxies; [left | right]; congruence);
      [discriminate Hsome|].
    destruct (call_unfold st0 Hne0) as (start & _ & Hcall).
    rewrite Hcall in Hsome |- *.
    destruct (ProxyManager.attempts HttpsProxyAgent proxies start 0
                (List.length proxies)) as [[[[index a1] p1]|] seen] eqn:Hatt;
      [|discriminate Hsome].
    cbn [ProxyManager.returned] in Hsome. injection Hsome as -> ->.
    destruct (attempts_success proxies start 0 (List.length proxies))
      with (index := index) (a := a0) (p := p0)
      as (_ & Hnth & (u0 & Hu0 & _) & skipped & Hseen).
    { rewrite Hatt. reflexivity. }
    rewrite Hatt in Hseen. cbn [snd] in Hseen.
    exists index, skipped.
    cbn [ProxyManager.tried ProxyManager.next_state ProxyManager.proxyIndex].
    repeat split; try assumption. rewrite Hu0. discriminate.
Qed.

End RouterProperties.

Lemma router_failover_witness :
  ProxyManager.returned
    (ProxyManager.getNextProxyAgent Fixtures.sample_agent ProxyManager.initial
       (Some [Fixtures.proxy_A; Fixtures.proxy_B]))
  = Some ("http://b.example:8080", Fixtures.proxy_B).
Proof.
  apply (@router_failover string Fixtures.sample_agent ProxyManager.initial
           Fixtures.proxy_A Fixtures.proxy_B
           "http://b.example:8080" "http://b.example:8080");
    reflexivity.
Defined.

Lemma rotation_cursor_invariant_witness :
  ProxyManager.proxyIndex
    (ProxyManager.next_state
       (ProxyManager.getNextProxyAgent Fixtures.sample_agent
          (ProxyManager.next_state
             (ProxyManager.getNextProxyAgent Fixtures.sample_agent
                ProxyManager.initial
                (Some [Fixtures.proxy_B; Fixtures.proxy_C])))
          (Some [Fixtures.proxy_C; Fixtures.proxy_B; VNull])))
  < 3.
Proof.
  apply (proj1 (@rotation_cursor_invariant string Fixtures.sample_agent
                  (ProxyManager.next_state
                     (ProxyManager.getNextProxyAgent Fixtures.sample_agent
                        ProxyManager.initial
                        (Some [Fixtures.proxy_B; Fixtures.proxy_C])))
                  [Fixtures.proxy_C; Fixtures.proxy_B; VNull]
                  (@ProxyManager.reachable_call string Fixtures.sample_agent
                     ProxyManager.initial
                     (Some [Fixtures.proxy_B; Fixtures.proxy_C])
                     (@ProxyManager.reachable_initial string Fixtures.sample_agent))
                  ltac:(discriminate))).
Defined.

Lemma exhaustion_is_not_fatal_witness :
  ProxyManager.returned
    (ProxyManager.getNextProxyAgent Fixtures.sample_agent ProxyManager.initial
       (Some [Fixtures.proxy_A; VNull; Fixtures.proxy_D])) = None
  /\ List.length
       (ProxyManager.tried
          (ProxyManager.getNextProxyAgent Fixtures.sample_agent ProxyManager.initial
             (Some [Fixtures.proxy_A; VNull; Fixtures.proxy_D]))) = 3.
Proof.
  apply (proj1 (proj2 (proj2
           (@exhaustion_is_not_fatal string Fixtures.sample_agent
              ProxyManager.initial)))).
  - discriminate.
  - repeat constructor; intros u Hu; vm_compute in Hu;
      try discriminate Hu.
    injection Hu as <-. reflexivity.
Defined.

(** The fingerprint tells an entry with an empty name from the same entry
    without a name, and the number zero from [null]: a pool that changes
    in such a place only is a new pool, and the cursor starts again at
    0. *)
Example snapshot_tells_entries_apart :
  ProxyManager.snapshotConfigs [Fixtures.proxy_C; Fixtures.proxy_unnamed]
  <> ProxyManager.snapshotConfigs [Fixtures.proxy_C; Fixtures.proxy_nameless]
  /\ ProxyManager.snapshotConfigs [Fixtures.proxy_B; VNum 0]
     <> ProxyManager.snapshotConfigs [Fixtures.proxy_B; VNull]
  /\ ProxyManager.tried
       (ProxyManager.getNextProxyAgent Fixtures.sample_agent
          (ProxyManager.next_state
             (ProxyManager.getNextProxyAgent Fixtures.sample_agent
                ProxyManager.initial
                (Some [Fixtures.proxy_C; Fixtures.proxy_unnamed])))
          (Some [Fixtures.proxy_C; Fixtures.proxy_nameless]))
     = [0].
Proof. repeat split; vm_compute; congruence. Qed.

(** ** Rule compiler *)

Lemma lookup_overwrite {V} (k k' : string) (v : V) (o : JsObject.t V) :
  JsObject.has_key k' o = true ->
  JsObject.lookup k (JsObject.overwrite k' v o)
  = if String.eqb k k' then Some v else JsObject.lookup k o.
Proof.
  induction o as [|[k0 v0] o IH]; simpl; [discriminate|].
  destruct (String.eqb k' k0) eqn:E0; simpl.
  - apply String.eqb_eq in E0. subst k0. intros _.
    destruct (String.eqb k k'); reflexivity.
  - intros H. rewrite (IH H).
    destruct (String.eqb k k0) eqn:E1; [|reflexivity].
    apply String.eqb_eq in E1. subst k0.
    rewrite String.eqb_sym in E0. rewrite E0. reflexivity.
Qed.

Lemma lookup_has_key_false {V} (k : string) (o : JsObject.t V) :
  JsObject.has_key k o = false -> JsObject.lookup k o = None.
Proof.
  induction o as [|[k0 v0] o IH]; simpl; [reflexivity|].
  destruct (String.eqb k k0); simpl; [discriminate | exact IH].
Qed.

Lemma lookup_insert_index {V} (k k' : string) n (v : V) (o : JsObject.t V) :
  JsObject.has_key k' o = false ->
  JsObject.lookup k (JsObject.insert_index n k' v o)
  = if String.eqb k k' then Some v else JsObject.lookup k o.
Proof.
  induction o as [|[k0 v0] o IH]; simpl; [reflexivity|].
  destruct (String.eqb k' k0) eqn:E0; simpl; [discriminate|]. intros H.
  destruct (JsObject.array_index k0) as [m|]; [destruct (m <? n)%N|]; simpl;
    try reflexivity.
  rewrite (IH H). destruct (String.eqb k k0) eqn:E1; [|reflexivity].
  apply String.eqb_eq in E1. subst k0.
  rewrite String.eqb_sym in E0. rewrite E0. reflexivity.
Qed.

Lemma lookup_app_new {V} (k k' : string) (v : V) (o : JsObject.t V) :
  JsObject.has_key k' o = false ->
  JsObject.lookup k (o ++ [(k', v)])
  = if String.eqb k k' then Some v else JsObject.lookup k o.
Proof.
  induction o as [|[k0 v0] o IH]; simpl; [reflexivity|].
  destruct (String.eqb k' k0) eqn:E0; simpl; [discriminate|]. intros H.
  rewrite (IH H). destruct (String.eqb k k0) eqn:E1; [|reflexivity].
  apply String.eqb_eq in E1. subst k0.
  rewrite String.eqb_sym in E0. rewrite E0. reflexivity.
Qed.

(** Reading back after [o[k'] = v]. *)
Lemma lookup_set {V} (k k' : string) (v : V) (o : JsObject.t V) :
  JsObject.lookup k (JsObject.set k' v o)
  = if String.eqb k' "__proto__" then JsObject.lookup k o
    else if String.eqb k k' then Some v else JsObject.lookup k o.
Proof.
  unfold JsObject.set. destruct (String.eqb k' "__proto__"); [reflexivity|].
  destruct (JsObject.has_key k' o) eqn:Hk.
  - apply lookup_overwrite. exact Hk.
  - destruct (JsObject.array_index k') as [n|].
    + apply lookup_insert_index. exact Hk.
    + apply lookup_app_new. exact Hk.
Qed.

Lemma lookup_assign_all (k : string) (Hk : k <> "__proto__")
  {V} (writes : list (string * V)) (o : JsObject.t V) :
  JsObject.lookup k (JsObject.assign_all writes o)
  = match RuleCompiler.last_write k writes with
    | Some v => Some v
    | None => JsObject.lookup k o
    end.
Proof.
  revert o. induction writes as [|[k' v] rest IH]; intros o; simpl; [reflexivity|].
  rewrite IH, lookup_set.
  destruct (RuleCompiler.last_write k rest); [reflexivity|].
  destruct (String.eqb k k') eqn:E.
  - apply String.eqb_eq in E. subst k'.
    apply String.eqb_neq in Hk. rewrite Hk. reflexivity.
  - destruct (String.eqb k' "__proto__"); reflexivity.
Qed.

Lemma assign_all_app {V} (a b : list (string * V)) (o : JsObject.t V) :
  JsObject.assign_all (a ++ b) o = JsObject.assign_all b (JsObject.assign_all a o).
Proof.
  revert o. induction a as [|[k v] a IH]; intros o; simpl; [reflexivity | apply IH].
Qed.

Lemma build_request_writes (rules : list Obfuscator.ruleObj) (dict : JsObject.t string) :
  Obfuscator.build_request rules dict
  = JsObject.assign_all (RuleCompiler.forward_writes rules) dict.
Proof.
  revert dict. induction rules as [|r rules IH]; intros dict; simpl; [reflexivity|].
  destruct (Obfuscator.is_active r); [|apply IH].
  destruct (Obfuscator.rule r) as [entries|]; [|apply IH].
  rewrite assign_all_app. apply IH.
Qed.

Lemma build_response_writes (rules : list Obfuscator.ruleObj) (dict : JsObject.t string) :
  Obfuscator.build_response rules dict
  = JsObject.assign_all (RuleCompiler.reverse_writes rules) dict.
Proof.
  revert dict. induction rules as [|r rules IH]; intros dict; simpl; [reflexivity|].
  destruct (Obfuscator.is_active r && Obfuscator.is_res_obfs r); [|apply IH].
  destruct (Obfuscator.rule r) as [entries|]; [|apply IH].
  rewrite assign_all_app. apply IH.
Qed.

Lemma forward_writes_inactive (before after : list Obfuscator.ruleObj) r :
  Obfuscator.is_active r = false ->
  RuleCompiler.forward_writes (before ++ r :: after)
  = RuleCompiler.forward_writes (before ++ after)
  /\ RuleCompiler.reverse_writes (before ++ r :: after)
     = RuleCompiler.reverse_writes (before ++ after).
Proof.
  intros Hr. induction before as [|x before [IH1 IH2]]; simpl.
  - rewrite Hr. simpl. split; reflexivity.
  - rewrite IH1, IH2. split; reflexivity.
Qed.

(** What the compiler does outside the name [__proto__]: a rule that is
    not active changes neither dictionary; the forward dictionary holds,
    for each pattern, the replacement of the last active rule that has
    it; the reverse dictionary holds, for each replacement, the pattern
    of the last active and reversible rule that has it. *)
Lemma compiled_dictionaries (rules : list Obfuscator.ruleObj) :
  (forall before r after,
      rules = before ++ r :: after ->
      Obfuscator.is_active r = false ->
      Obfuscator.loadReplacements (Some rules)
      = Obfuscator.loadReplacements (Some (before ++ after)))
  /\ (forall k, k <> "__proto__" ->
        JsObject.lookup k
          (Obfuscator.requestReplacements (Obfuscator.loadReplacements (Some rules)))
        = RuleCompiler.last_write k (RuleCompiler.forward_writes rules))
  /\ (forall k, k <> "__proto__" ->
        JsObject.lookup k
          (Obfuscator.responseReplacements (Obfuscator.loadReplacements (Some rules)))
        = RuleCompiler.last_write k (RuleCompiler.reverse_writes rules)).
Proof.
  split; [|split].
  - intros before r after -> Hr. unfold Obfuscator.loadReplacements.
    rewrite !build_request_writes, !build_response_writes.
    destruct (forward_writes_inactive before after r Hr) as [-> ->].
    reflexivity.
  - intros k Hk. simpl. rewrite build_request_writes.
    rewrite (lookup_assign_all Hk). simpl.
    destruct (RuleCompiler.last_write k _); reflexivity.
  - intros k Hk. simpl. rewrite build_response_writes.
    rewrite (lookup_assign_all Hk). simpl.
    destruct (RuleCompiler.last_write k _); reflexivity.
Qed.

(** C8 at the rule list [[{"rule": {"__proto__": "y"}, "res-obfs": true}]]:
    the rule is active and reversible and its last write for the pattern
    [__proto__] is "y", yet the forward dictionary stays empty; the
    assignment [requestReplacements[key] = value] reaches the inherited
    accessor and creates no entry.  The reverse dictionary does get its
    entry, since there the name is the value written. *)
Theorem compiler_loses_proto_pattern :
  Forall (fun r => Obfuscator.is_active r = true) Fixtures.proto_rules
  /\ RuleCompiler.last_write "__proto__"
       (RuleCompiler.forward_writes Fixtures.proto_rules) = Some "y"
  /\ Obfuscator.requestReplacements
       (Obfuscator.loadReplacements (Some Fixtures.proto_rules)) = []
  /\ Obfuscator.responseReplacements
       (Obfuscator.loadReplacements (Some Fixtures.proto_rules))
     = [("y", "__proto__")].
Proof. repeat split. repeat constructor. Qed.

(** ** Strings: [split], [join] and substitution of code units *)

Lemma starts_with_drop (p s : string) :
  JsString.starts_with p s = true ->
  s = (p ++ JsString.drop (String.length p) s)%string.
Proof.
  revert s. induction p as [|a p IH]; intros s; simpl; [reflexivity|].
  destruct s as [|b s]; [discriminate|].
  destruct (Ascii.eqb a b) eqn:E; [|discriminate].
  apply Ascii.eqb_eq in E. subst b. intros H. f_equal. apply IH. exact H.
Qed.

Lemma drop_all (s : string) : JsString.drop (String.length s) s = "".
Proof. induction s as [|c s IH]; simpl; [reflexivity | exact IH]. Qed.

Lemma drop_tail (n : nat) (s : string) c t :
  JsString.drop n s = String c t -> JsString.drop (S n) s = t.
Proof.
  revert s. induction n as [|n IH]; intros s; simpl.
  - intros ->. reflexivity.
  - destruct s as [|d s]; [discriminate|]. intros H.
    specialize (IH s H). simpl in IH. exact IH.
Qed.

Lemma drop_short_nonempty (n : nat) (u : string) :
  n < String.length u -> JsString.drop n u <> "".
Proof.
  revert u. induction n as [|n IH]; intros [|x u]; simpl; try lia; try discriminate.
  intros Hn. apply IH. lia.
Qed.

(** The scan gives back what it was given: with [k] units of a matched
    separator still to be passed over, the pieces glue to the text behind
    them. *)
Lemma split_scan_glue (c0 : ascii) (sep' s : string) (k : nat) :
  let sep := String c0 sep' in
  k <= String.length sep ->
  JsString.starts_with (JsString.drop (String.length sep - k) sep) s = true ->
  (fst (JsString.split_scan sep k s)
   ++ JsString.join_rest sep (snd (JsString.split_scan sep k s)))%string
  = JsString.drop k s.
Proof.
  intros sep. revert k. induction s as [|c s IH]; intros k Hk Hpre.
  - simpl. destruct k; reflexivity.
  - destruct k as [|k].
    + cbn [JsString.split_scan].
      destruct (JsString.starts_with sep (String c s)) eqn:Hm.
      * assert (Hlen : String.length sep - 1 = String.length sep')
          by (unfold sep; cbn [String.length]; lia).
        rewrite Hlen.
        assert (Hm' : JsString.starts_with sep' s = true /\ c0 = c).
        { unfold sep in Hm. simpl in Hm.
          destruct (Ascii.eqb c0 c) eqn:E; [|discriminate].
          apply Ascii.eqb_eq in E. split; assumption. }
        destruct Hm' as [Hm' ->].
        specialize (IH (String.length sep')).
        assert (Hd : JsString.drop (String.length sep - String.length sep') sep = sep').
        { replace (String.length sep - String.length sep') with 1
            by (unfold sep; cbn [String.length]; lia). reflexivity. }
        rewrite Hd in IH.
        specialize (IH ltac:(unfold sep; cbn [String.length]; lia) Hm').
        destruct (JsString.split_scan sep (String.length sep') s) as [p ps].
        cbn [fst snd JsString.join_rest JsString.drop] in *.
        rewrite IH. unfold sep. simpl. f_equal.
        symmetry. apply starts_with_drop. exact Hm'.
      * specialize (IH 0 (Nat.le_0_l _)).
        rewrite Nat.sub_0_r, drop_all in IH. specialize (IH eq_refl).
        destruct (JsString.split_scan sep 0 s) as [p ps].
        cbn [fst snd JsString.drop] in *. simpl. rewrite IH. reflexivity.
    + cbn [JsString.split_scan JsString.drop].
      destruct (JsString.drop (String.length sep - S k) sep) as [|c1 t] eqn:Hd.
      { exfalso. apply (@drop_short_nonempty (String.length sep - S k) sep);
          [lia | exact Hd]. }
      simpl in Hpre. destruct (Ascii.eqb c1 c) eqn:E; [|discriminate].
      apply drop_tail in Hd.
      replace (S (String.length sep - S k)) with (String.length sep - k) in Hd by lia.
      apply IH; [lia | rewrite Hd; exact Hpre].
Qed.

Lemma join_split (sep s : string) :
  JsString.join sep (JsString.split sep s) = s.
Proof.
  destruct sep as [|c0 sep']; simpl.
  - induction s as [|c s IH]; [reflexivity|].
    cbn [JsString.units]. rewrite join_cons.
    destruct (JsString.units s) as [|q qs] eqn:E.
    + destruct s; [reflexivity | discriminate E].
    + rewrite join_cons in IH. simpl in *. rewrite IH. reflexivity.
  - pose proof (@split_scan_glue c0 sep' s 0 (Nat.le_0_l _)) as H.
    cbv zeta in H. rewrite Nat.sub_0_r, drop_all in H. specialize (H eq_refl).
    destruct (JsString.split_scan (String c0 sep') 0 s) as [p ps].
    rewrite join_cons. exact H.
Qed.

Lemma subst_units_app (h : ascii -> string) (a b : string) :
  JsString.subst_units h (a ++ b)
  = (JsString.subst_units h a ++ JsString.subst_units h b)%string.
Proof.
  induction a as [|c a IH]; simpl; [reflexivity|].
  rewrite IH, append_assoc_s. reflexivity.
Qed.

Lemma subst_units_join_rest (h : ascii -> string) (sep : string) (ps : list string) :
  JsString.subst_units h (JsString.join_rest sep ps)
  = JsString.join_rest (JsString.subst_units h sep) (map (JsString.subst_units h) ps).
Proof.
  induction ps as [|p ps IH]; simpl; [reflexivity|].
  rewrite !subst_units_app, IH. reflexivity.
Qed.

(** Substitution of code units distributes over [join]. *)
Lemma subst_units_join (h : ascii -> string) (sep : string) (ps : list string) :
  JsString.subst_units h (JsString.join sep ps)
  = JsString.join (JsString.subst_units h sep) (map (JsString.subst_units h) ps).
Proof.
  destruct ps as [|p ps]; [reflexivity|].
  cbn [map]. rewrite !join_cons, subst_units_app, subst_units_join_rest.
  reflexivity.
Qed.

Lemma subst_units_ext (h g : ascii -> string) (s : string) :
  (forall c, JsString.mem c s = true -> h c = g c) ->
  JsString.subst_units h s = JsString.subst_units g s.
Proof.
  induction s as [|d s IH]; intros H; simpl; [reflexivity|].
  rewrite (H d), IH; [reflexivity | |].
  - intros c Hc. apply H. simpl. rewrite Hc. apply orb_true_r.
  - simpl. rewrite Ascii.eqb_refl. reflexivity.
Qed.

Lemma subst_units_fixed (h : ascii -> string) (s : string) :
  (forall c, JsString.mem c s = true -> h c = String c "") ->
  JsString.subst_units h s = s.
Proof.
  induction s as [|d s IH]; intros H; simpl; [reflexivity|].
  rewrite (H d), IH; [reflexivity | |].
  - intros c Hc. apply H. simpl. rewrite Hc. apply orb_true_r.
  - simpl. rewrite Ascii.eqb_refl. reflexivity.
Qed.

Lemma subst_units_compose (h g : ascii -> string) (s : string) :
  JsString.subst_units h (JsString.subst_units g s)
  = JsString.subst_units (fun c => JsString.subst_units h (g c)) s.
Proof.
  induction s as [|d s IH]; simpl; [reflexivity|].
  rewrite subst_units_app, IH. reflexivity.
Qed.

(** Replacing a one-unit key is a substitution of code units. *)
Lemma replace_all_unit (c : ascii) (p s : string) :
  JsString.replace_all (String c "") p s
  = JsString.subst_units (RoundTrip.replace_unit c p) s.
Proof.
  unfold JsString.replace_all, JsString.split.
  assert (H : forall s,
             (fst (JsString.split_scan (String c "") 0 s)
              ++ JsString.join_rest p (snd (JsString.split_scan (String c "") 0 s)))%string
             = JsString.subst_units (RoundTrip.replace_unit c p) s).
  { clear s. induction s as [|d s IH]; [reflexivity|].
    cbn [JsString.split_scan JsString.starts_with JsString.subst_units String.length].
    unfold RoundTrip.replace_unit at 1.
    destruct (Ascii.eqb c d); cbn [Nat.sub];
      destruct (JsString.split_scan (String c "") 0 s) as [q qs];
      cbn [fst snd JsString.join_rest] in *; rewrite <- IH; reflexivity. }
  specialize (H s).
  destruct (JsString.split_scan (String c "") 0 s) as [q qs].
  rewrite join_cons. exact H.
Qed.

(** ** Dictionaries with one-unit keys *)

Lemma lookup_In {V} (k : string) (v : V) (o : JsObject.t V) :
  JsObject.lookup k o = Some v -> In (k, v) o.
Proof.
  induction o as [|[k0 v0] o IH]; simpl; [discriminate|].
  destruct (String.eqb k k0) eqn:E.
  - apply String.eqb_eq in E. subst k0. intros H. injection H as ->. now left.
  - intros H. right. apply IH. exact H.
Qed.

Lemma unit_eqb (c d : ascii) :
  String.eqb (String d "") (String c "") = Ascii.eqb c d.
Proof.
  simpl. rewrite Ascii.eqb_sym. destruct (Ascii.eqb c d); reflexivity.
Qed.

(** Applying the entries one after the other is one simultaneous
    substitution, when the keys are single units that occur in no value. *)
Lemma apply_entries_units (dict : JsObject.t string) :
  (forall k v, In (k, v) dict -> exists c, k = String c "") ->
  (forall k v c v', In (k, v) dict -> In (String c "", v') dict ->
                    JsString.mem c v = false) ->
  forall s, apply_entries dict s = JsString.subst_units (RoundTrip.unit_image dict) s.
Proof.
  unfold apply_entries.
  induction dict as [|[k v] dict IH]; intros Hkeys Hclean s.
  - simpl. symmetry. apply subst_units_fixed. reflexivity.
  - destruct (Hkeys k v (or_introl eq_refl)) as [c ->].
    cbn [fold_left fst snd]. rewrite IH.
    + rewrite replace_all_unit, subst_units_compose.
      apply subst_units_ext. intros d _.
      unfold RoundTrip.replace_unit, RoundTrip.unit_image.
      cbn [JsObject.lookup]. rewrite unit_eqb.
      destruct (Ascii.eqb c d).
      * apply subst_units_fixed. intros e He.
        destruct (JsObject.lookup (String e "") dict) as [v'|] eqn:Hl; [|reflexivity].
        apply lookup_In in Hl.
        rewrite (Hclean (String c "") v e v') in He;
          [discriminate | now left | now right].
      * simpl. apply append_empty_r.
    + intros k' v' Hin. apply (Hkeys k' v'). now right.
    + intros k' v' e v'' H1 H2. apply (Hclean k' v' e v''); now right.
Qed.

(** What the forward entries put in, the substitution takes out. *)
Lemma apply_entries_absorbed (fwd rev : JsObject.t string) :
  (forall p r, In (p, r) fwd ->
               exists c, r = String c "" /\ JsObject.lookup r rev = Some p) ->
  (forall p r e, In (p, r) fwd -> JsString.mem e p = true ->
                 JsObject.lookup (String e "") rev = None) ->
  forall s,
    JsString.subst_units (RoundTrip.unit_image rev) (apply_entries fwd s)
    = JsString.subst_units (RoundTrip.unit_image rev) s.
Proof.
  unfold apply_entries.
  induction fwd as [|[p r] fwd IH]; intros Hinv Hfix s; [reflexivity|].
  cbn [fold_left fst snd]. rewrite IH.
  - destruct (Hinv p r (or_introl eq_refl)) as (c & -> & Hc).
    unfold JsString.replace_all. rewrite subst_units_join.
    rewrite <- (join_split p s) at 2. rewrite subst_units_join.
    f_equal. simpl. unfold RoundTrip.unit_image at 1. rewrite Hc.
    rewrite append_empty_r. symmetry. apply subst_units_fixed.
    intros e He. unfold RoundTrip.unit_image.
    rewrite (Hfix p (String c "") e (or_introl eq_refl) He). reflexivity.
  - intros p' r' Hin. apply Hinv. now right.
  - intros p' r' e Hin. apply (Hfix p' r' e). now right.
Qed.

Lemma In_overwrite {V} (k : string) (v : V) (o : JsObject.t V) kv :
  In kv (JsObject.overwrite k v o) -> kv = (k, v) \/ In kv o.
Proof.
  induction o as [|[k0 v0] o IH]; simpl; [tauto|].
  destruct (String.eqb k k0) eqn:E; simpl.
  - apply String.eqb_eq in E. subst k0. intros [<- | H]; tauto.
  - intros [<- | H]; [tauto|]. destruct (IH H); tauto.
Qed.

Lemma In_insert_index {V} n (k : string) (v : V) (o : JsObject.t V) kv :
  In kv (JsObject.insert_index n k v o) -> kv = (k, v) \/ In kv o.
Proof.
  induction o as [|[k0 v0] o IH]; simpl; [intros [<- | []]; tauto|].
  destruct (JsObject.array_index k0) as [m|]; [destruct (m <? n)%N|]; simpl.
  - intros [<- | H]; [tauto|]. destruct (IH H); tauto.
  - intros [<- | H]; tauto.
  - intros [<- | H]; tauto.
Qed.

Lemma In_set {V} (k : string) (v : V) (o : JsObject.t V) kv :
  In kv (JsObject.set k v o) -> kv = (k, v) \/ In kv o.
Proof.
  unfold JsObject.set. destruct (String.eqb k "__proto__"); [tauto|].
  destruct (JsObject.has_key k o).
  - apply In_overwrite.
  - destruct (JsObject.array_index k).
    + apply In_insert_index.
    + intros H. apply in_app_or in H. destruct H as [H | [<- | []]]; tauto.
Qed.

Lemma In_assign_all {V} (writes : list (string * V)) (o : JsObject.t V) kv :
  In kv (JsObject.assign_all writes o) -> In kv writes \/ In kv o.
Proof.
  revert o. induction writes as [|[k v] writes IH]; intros o; simpl; [tauto|].
  intros H. destruct (IH _ H) as [H' | H']; [tauto|].
  destruct (In_set _ _ _ _ H') as [-> | H'']; tauto.
Qed.

Lemma last_write_In {V} (k : string) (v : V) (writes : list (string * V)) :
  RuleCompiler.last_write k writes = Some v -> In (k, v) writes.
Proof.
  induction writes as [|[k0 v0] writes IH]; simpl; [discriminate|].
  destruct (RuleCompiler.last_write k writes) as [w|].
  - intros H. right. apply IH. exact H.
  - destruct (String.eqb k k0) eqn:E; [|discriminate].
    apply String.eqb_eq in E. subst k0. intros H. injection H as ->. now left.
Qed.

Lemma last_write_some {V} (k : string) (v : V) (writes : list (string * V)) :
  In (k, v) writes -> exists w, RuleCompiler.last_write k writes = Some w.
Proof.
  induction writes as [|[k0 v0] writes IH]; simpl; [tauto|].
  intros [H | H].
  - injection H as -> ->. destruct (RuleCompiler.last_write k writes) as [w|].
    + now exists w.
    + rewrite String.eqb_refl. now exists v.
  - destruct (IH H) as [w ->]. now exists w.
Qed.

(** ** Undoing obfuscation *)

Lemma In_swap_entries (entries : JsObject.t string) (k v : string) :
  In (k, v) (Obfuscator.swap_entries entries) <-> In (v, k) entries.
Proof.
  unfold Obfuscator.swap_entries. rewrite in_map_iff. split.
  - intros [[a b] [H Hin]]. simpl in H. injection H as <- <-. exact Hin.
  - intros Hin. exists (v, k). split; [reflexivity | exact Hin].
Qed.

Lemma reverse_writes_swap (rules : list Obfuscator.ruleObj) :
  RoundTrip.all_reversible rules ->
  RuleCompiler.reverse_writes rules
  = Obfuscator.swap_entries (RuleCompiler.forward_writes rules).
Proof.
  induction 1 as [|r rules Hr _ IH]; simpl; [reflexivity|].
  destruct (Obfuscator.is_active r) eqn:Ha; simpl; [|exact IH].
  rewrite (Hr eq_refl).
  destruct (Obfuscator.rule r) as [entries|]; [|exact IH].
  unfold Obfuscator.swap_entries in *. rewrite map_app, IH. reflexivity.
Qed.

Section CompiledUnits.

Variable rules : list Obfuscator.ruleObj.

Hypothesis Hrev : RoundTrip.all_reversible rules.
Hypothesis Hunit : RoundTrip.unit_replacements (RuleCompiler.forward_writes rules).
Hypothesis Hinv : RoundTrip.replacements_invertible (RuleCompiler.forward_writes rules).
Hypothesis Hfresh : RoundTrip.units_fresh_in_patterns (RuleCompiler.forward_writes rules).

Lemma request_entries_written p r :
  In (p, r) (Obfuscator.requestReplacements (Obfuscator.loadReplacements (Some rules))) ->
  In (p, r) (RuleCompiler.forward_writes rules).
Proof.
  simpl. rewrite build_request_writes. intros H.
  apply In_assign_all in H. destruct H as [H | []]. exact H.
Qed.

Lemma response_entries_written k v :
  In (k, v) (Obfuscator.responseReplacements (Obfuscator.loadReplacements (Some rules))) ->
  In (v, k) (RuleCompiler.forward_writes rules).
Proof.
  simpl. rewrite build_response_writes, (reverse_writes_swap Hrev). intros H.
  apply In_assign_all in H. destruct H as [H | []].
  apply In_swap_entries. exact H.
Qed.

Lemma response_lookup_written p c :
  In (p, String c "") (RuleCompiler.forward_writes rules) ->
  JsObject.lookup (String c "")
    (Obfuscator.responseReplacements (Obfuscator.loadReplacements (Some rules)))
  = Some p.
Proof.
  intros Hin. simpl.
  rewrite build_response_writes, (reverse_writes_swap Hrev).
  rewrite lookup_assign_all by discriminate.
  assert (Hsw : In (String c "", p)
                   (Obfuscator.swap_entries (RuleCompiler.forward_writes rules)))
    by (apply In_swap_entries; exact Hin).
  destruct (last_write_some _ _ _ Hsw) as [w Hw]. rewrite Hw.
  apply last_write_In in Hw. apply (proj1 (In_swap_entries _ _ _)) in Hw.
  f_equal. apply (Hinv _ _ _ Hw Hin).
Qed.

Lemma response_lookup_fresh e s :
  (forall p c, In (p, String c "") (RuleCompiler.forward_writes rules) ->
               JsString.mem c s = false) ->
  JsString.mem e s = true ->
  JsObject.lookup (String e "")
    (Obfuscator.responseReplacements (Obfuscator.loadReplacements (Some rules)))
  = None.
Proof.
  intros Hs He.
  destruct (JsObject.lookup _ _) as [v|] eqn:Hl; [|reflexivity].
  apply lookup_In, response_entries_written in Hl.
  rewrite (Hs v e Hl) in He. discriminate He.
Qed.

(** De-obfuscation is a substitution of code units. *)
Lemma deobfuscateString_units s :
  Obfuscator.deobfuscateString (Obfuscator.loadReplacements (Some rules)) s
  = JsString.subst_units
      (RoundTrip.unit_image
         (Obfuscator.responseReplacements (Obfuscator.loadReplacements (Some rules))))
      s.
Proof.
  unfold Obfuscator.deobfuscateString.
  destruct (String.eqb s "") eqn:E.
  - apply String.eqb_eq in E. subst s. reflexivity.
  - apply apply_entries_units.
    + intros k v Hin. apply response_entries_written in Hin.
      apply (Hunit _ _ Hin).
    + intros k v c v' H1 H2.
      apply response_entries_written in H1, H2.
      apply (Hfresh _ _ _ _ H2 H1).
Qed.

Lemma string_round_trip s :
  (forall p c, In (p, String c "") (RuleCompiler.forward_writes rules) ->
               JsString.mem c s = false) ->
  Obfuscator.deobfuscateString (Obfuscator.loadReplacements (Some rules)) s = s
  /\ Obfuscator.deobfuscateString (Obfuscator.loadReplacements (Some rules))
       (Obfuscator.obfuscateString (Obfuscator.loadReplacements (Some rules)) s)
     = s.
Proof.
  intros Hs.
  assert (Hid : JsString.subst_units
                  (RoundTrip.unit_image
                     (Obfuscator.responseReplacements
                        (Obfuscator.loadReplacements (Some rules)))) s = s).
  { apply subst_units_fixed. intros e He. unfold RoundTrip.unit_image.
    rewrite (@response_lookup_fresh e s Hs He). reflexivity. }
  split; rewrite deobfuscateString_units; [exact Hid|].
  unfold Obfuscator.obfuscateString.
  destruct (String.eqb s "") eqn:E; [exact Hid|].
  rewrite apply_entries_absorbed; [exact Hid | |].
  - intros p r Hin. apply request_entries_written in Hin.
    destruct (Hunit _ _ Hin) as [c ->]. exists c. split; [reflexivity|].
    apply response_lookup_written. exact Hin.
  - intros p r e Hin He. apply request_entries_written in Hin.
    apply (@response_lookup_fresh e p); [|exact He].
    intros p' c Hin'. apply (Hfresh _ _ _ _ Hin' Hin).
Qed.

End CompiledUnits.

(** ** Value trees *)

(** Induction on value trees, with the hypothesis for every item of an
    array and every property value of an object. *)
Lemma well_formed_items (items : list value) :
  tree_well_formed (VArr items) <-> Forall tree_well_formed items.
Proof.
  simpl. induction items as [|x items IH]; [split; constructor|].
  rewrite Forall_cons_iff, IH. reflexivity.
Qed.

Lemma well_formed_props (props : list (string * value)) :
  tree_well_formed (VObj props)
  <-> JsObject.well_formed props /\ Forall (fun kv => tree_well_formed (snd kv)) props.
Proof.
  simpl. apply and_iff_compat_l.
  induction props as [|[k x] props IH]; [split; constructor|].
  rewrite Forall_cons_iff, IH. reflexivity.
Qed.

Lemma strings_all_items (P : string -> Prop) (items : list value) :
  RoundTrip.strings_all P (VArr items) <-> Forall (RoundTrip.strings_all P) items.
Proof.
  simpl. induction items as [|x items IH]; [split; constructor|].
  rewrite Forall_cons_iff, IH. reflexivity.
Qed.

Lemma strings_all_props (P : string -> Prop) (props : list (string * value)) :
  RoundTrip.strings_all P (VObj props)
  <-> Forall (fun kv => RoundTrip.strings_all P (snd kv)) props.
Proof.
  simpl. induction props as [|[k x] props IH]; [split; constructor|].
  rewrite Forall_cons_iff, IH. reflexivity.
Qed.

Lemma has_key_map_values {V W} (g : V -> W) (k : string) (o : JsObject.t V) :
  JsObject.has_key k (JsObject.map_values g o) = JsObject.has_key k o.
Proof.
  induction o as [|[k0 v0] o IH]; simpl; [reflexivity | now rewrite IH].
Qed.

Lemma overwrite_map_values {V W} (g : V -> W) (k : string) (v : V) (o : JsObject.t V) :
  JsObject.overwrite k (g v) (JsObject.map_values g o)
  = JsObject.map_values g (JsObject.overwrite k v o).
Proof.
  induction o as [|[k0 v0] o IH]; simpl; [reflexivity|].
  destruct (String.eqb k k0); simpl; [reflexivity|].
  f_equal. exact IH.
Qed.

Lemma insert_index_map_values {V W} (g : V -> W) n (k : string) (v : V)
  (o : JsObject.t V) :
  JsObject.insert_index n k (g v) (JsObject.map_values g o)
  = JsObject.map_values g (JsObject.insert_index n k v o).
Proof.
  induction o as [|[k0 v0] o IH]; simpl; [reflexivity|].
  destruct (JsObject.array_index k0) as [m|]; [destruct (m <? n)%N|]; simpl;
    try reflexivity.
  f_equal. exact IH.
Qed.

(** Where an assignment puts a property depends on the names only. *)
Lemma set_map_values {V W} (g : V -> W) (k : string) (v : V) (o : JsObject.t V) :
  JsObject.set k (g v) (JsObject.map_values g o)
  = JsObject.map_values g (JsObject.set k v o).
Proof.
  unfold JsObject.set. destruct (String.eqb k "__proto__"); [reflexivity|].
  rewrite has_key_map_values. destruct (JsObject.has_key k o).
  - apply overwrite_map_values.
  - destruct (JsObject.array_index k).
    + apply insert_index_map_values.
    + unfold JsObject.map_values. rewrite map_app. reflexivity.
Qed.

Lemma assign_all_map_values {V W} (g : V -> W) (writes : list (string * V))
  (o : JsObject.t V) :
  JsObject.assign_all (JsObject.map_values g writes) (JsObject.map_values g o)
  = JsObject.map_values g (JsObject.assign_all writes o).
Proof.
  revert o. induction writes as [|[k v] writes IH]; intros o; simpl; [reflexivity|].
  rewrite set_map_values. apply IH.
Qed.

Lemma processObject_props (f : string -> string) (props : list (string * value)) :
  processObject f (VObj props)
  = VObj (JsObject.assign_all (JsObject.map_values (processObject f) props) []).
Proof.
  cbn [processObject]. f_equal. generalize (@nil (string * value)).
  induction props as [|[k v] props IH]; intros result; simpl; [reflexivity|].
  apply IH.
Qed.

Lemma processObject_well_formed_props (f : string -> string)
  (props : list (string * value)) :
  JsObject.well_formed props ->
  processObject f (VObj props) = VObj (JsObject.map_values (processObject f) props).
Proof.
  intros Hwf. rewrite processObject_props. f_equal.
  change (@nil (string * value)) with (JsObject.map_values (processObject f) []).
  rewrite assign_all_map_values, Hwf. reflexivity.
Qed.

Lemma well_formed_map_values {V W} (g : V -> W) (o : JsObject.t V) :
  JsObject.well_formed o -> JsObject.well_formed (JsObject.map_values g o).
Proof.
  unfold JsObject.well_formed. intros H.
  change (@nil (string * W)) with (JsObject.map_values g (@nil (string * V))).
  rewrite assign_all_map_values, H. reflexivity.
Qed.

(** On a well-formed tree, a transform that leaves the strings of the tree
    alone leaves the tree alone. *)
Lemma processObject_fixed (f : string -> string) (P : string -> Prop) :
  (forall s, P s -> f s = s) ->
  forall x, tree_well_formed x -> RoundTrip.strings_all P x -> processObject f x = x.
Proof.
  intros Hf. induction x as [| |b|n|s|items IH|props IH] using value_tree_ind;
    intros Hwf Hall; try reflexivity.
  - simpl. f_equal. apply Hf. exact Hall.
  - apply well_formed_items in Hwf. apply strings_all_items in Hall.
    cbn [processObject]. f_equal.
    induction IH as [|x items Hx _ IHitems]; [reflexivity|].
    inversion Hwf; subst. inversion Hall; subst.
    simpl. f_equal; [apply Hx; assumption | apply IHitems; assumption].
  - apply well_formed_props in Hwf. destruct Hwf as [Hwf Hsub].
    apply strings_all_props in Hall.
    rewrite (processObject_well_formed_props f Hwf). f_equal. clear Hwf.
    induction IH as [|[k x] props Hx _ IHprops]; [reflexivity|].
    inversion Hsub; subst. inversion Hall; subst.
    simpl in *. f_equal; [f_equal; apply Hx; assumption | apply IHprops; assumption].
Qed.

(** On a well-formed tree, two transforms that undo each other on the
    strings of the tree undo each other on the tree. *)
Lemma processObject_round_trip (f g : string -> string) (P : string -> Prop) :
  (forall s, P s -> g (f s) = s) ->
  forall x, tree_well_formed x -> RoundTrip.strings_all P x ->
            processObject g (processObject f x) = x.
Proof.
  intros Hgf. induction x as [| |b|n|s|items IH|props IH] using value_tree_ind;
    intros Hwf Hall; try reflexivity.
  - simpl. f_equal. apply Hgf. exact Hall.
  - apply well_formed_items in Hwf. apply strings_all_items in Hall.
    cbn [processObject]. f_equal. rewrite map_map.
    induction IH as [|x items Hx _ IHitems]; [reflexivity|].
    inversion Hwf; subst. inversion Hall; subst.
    simpl. f_equal; [apply Hx; assumption | apply IHitems; assumption].
  - apply well_formed_props in Hwf. destruct Hwf as [Hwf Hsub].
    apply strings_all_props in Hall.
    rewrite (processObject_well_formed_props f Hwf).
    rewrite (processObject_well_formed_props g
               (well_formed_map_values (processObject f) Hwf)).
    f_equal. clear Hwf. unfold JsObject.map_values. rewrite map_map.
    induction IH as [|[k x] props Hx _ IHprops]; [reflexivity|].
    inversion Hsub; subst. inversion Hall; subst.
    simpl in *. f_equal; [f_equal; apply Hx; assumption | apply IHprops; assumption].
Qed.

Lemma tree_mentions_strings_all (Q : ascii -> Prop) :
  forall x, (forall c, Q c -> tree_mentions c x = false) ->
            RoundTrip.strings_all (fun s => forall c, Q c -> JsString.mem c s = false) x.
Proof.
  induction x as [| |b|n|s|items IH|props IH] using value_tree_ind;
    intros H; try exact I.
  - exact H.
  - apply strings_all_items.
    induction IH as [|x items Hx _ IHitems]; constructor.
    + apply Hx. intros c Hc. specialize (H c Hc). simpl in H.
      apply orb_false_iff in H. tauto.
    + apply IHitems. intros c Hc. specialize (H c Hc). simpl in H.
      apply orb_false_iff in H. tauto.
  - apply strings_all_props.
    induction IH as [|[k x] props Hx _ IHprops]; constructor.
    + apply Hx. intros c Hc. specialize (H c Hc). simpl in H.
      apply orb_false_iff in H. tauto.
    + apply IHprops. intros c Hc. specialize (H c Hc). simpl in H.
      apply orb_false_iff in H. tauto.
Qed.

(** ** Replacement as a scan from the left *)

Lemma split_scan_skip (sep : string) (k : nat) (s : string) :
  JsString.split_scan sep k s = JsString.split_scan sep 0 (JsString.drop k s).
Proof.
  revert s. induction k as [|k IH]; intros s; [reflexivity|].
  destruct s as [|c s]; [reflexivity|].
  cbn [JsString.split_scan JsString.drop]. apply IH.
Qed.

Lemma replace_all_empty_text (key value : string) :
  key <> "" -> JsString.replace_all key value "" = "".
Proof. destruct key as [|c0 key']; [congruence | reflexivity]. Qed.

(** Where the key starts, the value is written and the scan goes on
    behind the key. *)
Lemma replace_all_match (key value s : string) :
  key <> "" ->
  JsString.starts_with key s = true ->
  JsString.replace_all key value s
  = (value ++ JsString.replace_all key value (JsString.drop (String.length key) s))%string.
Proof.
  intros Hkey Hm. destruct key as [|c0 key']; [congruence|].
  destruct s as [|c s]; [discriminate Hm|].
  unfold JsString.replace_all, JsString.split.
  cbn [JsString.split_scan]. rewrite Hm.
  rewrite split_scan_skip.
  replace (String.length (String c0 key') - 1) with (String.length key')
    by (cbn [String.length]; lia).
  cbn [String.length JsString.drop].
  destruct (JsString.split_scan (String c0 key') 0
              (JsString.drop (String.length key') s)) as [p ps].
  reflexivity.
Qed.

(** Where the key does not start, the code unit is kept and the scan goes
    on behind it. *)
Lemma replace_all_step (key value : string) (c : ascii) (s : string) :
  key <> "" ->
  JsString.starts_with key (String c s) = false ->
  JsString.replace_all key value (String c s)
  = String c (JsString.replace_all key value s).
Proof.
  intros Hkey Hm. destruct key as [|c0 key']; [congruence|].
  unfold JsString.replace_all, JsString.split.
  cbn [JsString.split_scan]. rewrite Hm.
  destruct (JsString.split_scan (String c0 key') 0 s) as [p ps].
  rewrite !join_cons. reflexivity.
Qed.

Lemma starts_with_app_l (p a b : string) :
  JsString.starts_with p a = true -> JsString.starts_with p (a ++ b) = true.
Proof.
  revert a. induction p as [|x p IH]; intros a; [reflexivity|].
  destruct a as [|y a]; simpl; [discriminate|].
  destruct (Ascii.eqb x y); [apply IH | discriminate].
Qed.

Lemma starts_with_self_app (p b : string) : JsString.starts_with p (p ++ b) = true.
Proof.
  induction p as [|x p IH]; [reflexivity|]. simpl.
  rewrite Ascii.eqb_refl. exact IH.
Qed.

Lemma starts_with_refl (p : string) : JsString.starts_with p p = true.
Proof.
  induction p as [|x p IH]; [reflexivity|]. simpl.
  rewrite Ascii.eqb_refl. exact IH.
Qed.

Lemma starts_with_app_prefix (w p b : string) :
  JsString.starts_with (w ++ p) (w ++ (p ++ b)) = true.
Proof.
  induction w as [|x w IH]; [simpl; apply starts_with_self_app|]. simpl.
  rewrite Ascii.eqb_refl. exact IH.
Qed.

Lemma drop_app_length (p b : string) : JsString.drop (String.length p) (p ++ b) = b.
Proof. induction p as [|x p IH]; [reflexivity | exact IH]. Qed.

(** A word that starts at the head of [a ++ b] starts in [a], or goes
    through the whole of [a] and on into [b]. *)
Lemma starts_with_app_cases (p a b : string) :
  JsString.starts_with p (a ++ b) = true ->
  JsString.starts_with p a = true
  \/ exists z, p = (a ++ z)%string /\ z <> "" /\ JsString.starts_with z b = true.
Proof.
  revert a. induction p as [|x p IH]; intros a H; [now left|].
  destruct a as [|y a].
  - right. exists (String x p). repeat split; [discriminate | exact H].
  - simpl in H |- *. destruct (Ascii.eqb x y) eqn:E; [|discriminate].
    apply Ascii.eqb_eq in E. subst y.
    destruct (IH a H) as [Ha | (z & -> & Hz & Hb)]; [now left|].
    right. exists z. repeat split; assumption.
Qed.

Lemma includes_here (t s : string) :
  JsString.starts_with t s = true -> JsString.includes t s = true.
Proof. intros H. destruct s; simpl in *; rewrite H; reflexivity. Qed.

Lemma includes_behind (t u s : string) :
  JsString.includes t s = true -> JsString.includes t (u ++ s) = true.
Proof.
  intros H. induction u as [|c u IH]; [exact H|].
  simpl. rewrite IH. apply orb_true_r.
Qed.

(** A word that starts somewhere in a text occurs in it. *)
Lemma includes_intro (t u w : string) :
  JsString.starts_with t w = true -> JsString.includes t (u ++ w) = true.
Proof. intros H. apply includes_behind, includes_here, H. Qed.

Lemma includes_false_app (p a b : string) :
  JsString.includes p (a ++ b) = false ->
  JsString.includes p a = false /\ JsString.includes p b = false.
Proof.
  intros H. split.
  - destruct (JsString.includes p a) eqn:E; [|reflexivity].
    assert (Habs : JsString.includes p (a ++ b) = true); [|congruence].
    clear H. induction a as [|y a IH].
    + destruct p; [destruct b; reflexivity | discriminate E].
    + cbn [JsString.includes] in E. apply orb_true_iff in E.
      change (String y a ++ b)%string with (String y (a ++ b)).
      cbn [JsString.includes]. apply orb_true_iff.
      destruct E as [E | E]; [left | right; apply IH; exact E].
      apply (@starts_with_app_l p (String y a) b E).
  - destruct (JsString.includes p b) eqn:E; [|reflexivity].
    rewrite (@includes_behind p a b E) in H. discriminate H.
Qed.

Lemma suffixes_spec (u w : string) :
  w <> "" -> In w (Words.suffixes (u ++ w)).
Proof.
  intros Hw. induction u as [|c u IH].
  - destruct w; [congruence | now left].
  - simpl. right. exact IH.
Qed.

(** When [a] does not run into [b], no non-empty end of [a] is a
    beginning of [b]. *)
Lemma runs_into_false (a b u w : string) :
  Words.runs_into a b = false ->
  a = (u ++ w)%string -> w <> "" -> JsString.starts_with w b = false.
Proof.
  unfold Words.runs_into. intros H -> Hw.
  destruct (JsString.starts_with w b) eqn:E; [|reflexivity].
  assert (Habs : existsb (fun w0 => JsString.starts_with w0 b)
                   (Words.suffixes (u ++ w)) = true); [|congruence].
  apply existsb_exists. exists w. split; [apply suffixes_spec; exact Hw | exact E].
Qed.

Lemma apart_spec (a b : string) :
  Words.apart a b = true ->
  JsString.includes a b = false /\ JsString.includes b a = false
  /\ Words.runs_into a b = false /\ Words.runs_into b a = false.
Proof.
  unfold Words.apart. rewrite !andb_true_iff, !negb_true_iff. tauto.
Qed.

Lemma take_app_length (v z : string) : Words.take (String.length v) (v ++ z) = v.
Proof. induction v as [|c v IH]; [reflexivity|]. simpl. now rewrite IH. Qed.

Lemma length_append_s (a b : string) :
  String.length (a ++ b) = String.length a + String.length b.
Proof. induction a as [|c a IH]; simpl; [|rewrite IH]; reflexivity. Qed.

(** A leading part of [r] after which [r] starts again is listed by
    [restarts]. *)
Lemma restarts_spec (r v z : string) :
  r = (v ++ z)%string -> v <> "" -> z <> "" ->
  JsString.starts_with z r = true -> In v (Words.restarts r).
Proof.
  intros Hr Hv Hz Hs. unfold Words.restarts. apply in_map_iff.
  exists (String.length v). split.
  - rewrite Hr. apply take_app_length.
  - apply filter_In. split.
    + apply in_seq. rewrite Hr, length_append_s.
      destruct v; [congruence|]. destruct z; [congruence|]. simpl. lia.
    + rewrite Hr at 1. rewrite drop_app_length. exact Hs.
Qed.

(** No straddling: when every occurrence of the key that starts in [v]
    also ends in [v], replacing in [v ++ y] is replacing in [v] and in
    [y]. *)
Lemma replace_all_app (key value : string) (Hkey : key <> "") (y : string) :
  forall n v,
    String.length v <= n ->
    (forall u w, v = (u ++ w)%string -> w <> "" ->
                 JsString.starts_with key (w ++ y) = true ->
                 JsString.starts_with key w = true) ->
    JsString.replace_all key value (v ++ y)
    = (JsString.replace_all key value v ++ JsString.replace_all key value y)%string.
Proof.
  induction n as [|n IH]; intros v Hn Hin.
  - destruct v; [|simpl in Hn; lia].
    rewrite (@replace_all_empty_text key value Hkey). reflexivity.
  - destruct v as [|c v].
    + rewrite (@replace_all_empty_text key value Hkey). reflexivity.
    + destruct (JsString.starts_with key (String c v ++ y)) eqn:E.
      * pose proof (Hin "" (String c v) eq_refl ltac:(discriminate) E) as Hv.
        rewrite (@replace_all_match key value _ Hkey E).
        rewrite (@replace_all_match key value _ Hkey Hv).
        pose proof (@starts_with_drop key (String c v) Hv) as Hsplit.
        set (v1 := JsString.drop (String.length key) (String c v)) in *.
        rewrite Hsplit at 1. rewrite append_assoc_s, drop_app_length.
        rewrite append_assoc_s. f_equal.
        apply IH.
        -- assert (Hl : String.length (String c v)
                         = String.length key + String.length v1)
             by (rewrite Hsplit at 1; apply length_append_s).
           destruct key; [congruence|]. simpl in *. lia.
        -- intros u w Hu Hw Hs. apply (Hin (key ++ u)%string w); try assumption.
           rewrite Hsplit, Hu. symmetry. apply append_assoc_s.
      * assert (Hv : JsString.starts_with key (String c v) = false).
        { destruct (JsString.starts_with key (String c v)) eqn:E'; [|reflexivity].
          rewrite (@starts_with_app_l key (String c v) y E') in E. discriminate E. }
        change (String c v ++ y)%string with (String c (v ++ y)) in *.
        rewrite (@replace_all_step key value c (v ++ y) Hkey E), (@replace_all_step key value c v Hkey Hv).
        simpl. f_equal. apply IH; [simpl in Hn; lia|].
        intros u w Hu Hw Hs. apply (Hin (String c u) w); try assumption.
        simpl. now rewrite Hu.
Qed.

(** A stretch in which the key nowhere starts is passed over as it is. *)
Lemma replace_all_pass (key value : string) (Hkey : key <> "") (y : string) :
  forall w u b,
    b = (u ++ w)%string ->
    (forall u' w', b = (u' ++ w')%string -> w' <> "" ->
                   JsString.starts_with key (w' ++ y) = false) ->
    JsString.replace_all key value (w ++ y)
    = (w ++ JsString.replace_all key value y)%string.
Proof.
  induction w as [|c w IH]; intros u b Hb Hin; [reflexivity|].
  change (String c w ++ y)%string with (String c (w ++ y)).
  rewrite (@replace_all_step key value c (w ++ y) Hkey).
  - simpl. f_equal. apply (IH (u ++ String c "")%string b); [|exact Hin].
    rewrite Hb, append_assoc_s. reflexivity.
  - apply (Hin u (String c w)); [exact Hb | discriminate].
Qed.

Lemma replace_all_absent (key value s : string) :
  key <> "" -> JsString.includes key s = false ->
  JsString.replace_all key value s = s.
Proof.
  intros Hkey. induction s as [|c s IH]; intros H.
  - apply replace_all_empty_text. exact Hkey.
  - cbn [JsString.includes] in H. apply orb_false_iff in H. destruct H as [H1 H2].
    rewrite (@replace_all_step key value c s Hkey H1). f_equal. apply IH. exact H2.
Qed.

(** A word that starts in [w ++ b ++ y] starts in [w], or ends in [b], or
    goes through the whole of [b]. *)
Lemma straddle_cases (key w b y : string) :
  JsString.starts_with key (w ++ (b ++ y)) = true ->
  JsString.starts_with key w = true
  \/ (exists z, key = (w ++ z)%string /\ z <> ""
                /\ JsString.starts_with z b = true)
  \/ (exists z, key = (w ++ (b ++ z))%string).
Proof.
  intros H. destruct (@starts_with_app_cases key w (b ++ y) H)
    as [Hw | (z & -> & Hz & Hb)]; [now left|].
  right. destruct (@starts_with_app_cases z b y Hb) as [Hzb | (z' & -> & _ & _)].
  - left. exists z. repeat split; assumption.
  - right. exists z'. reflexivity.
Qed.

(** The key, standing apart from the block [b], does not start at a
    place from which it would reach into [b]. *)
Lemma no_straddle_apart (key b w y : string) :
  JsString.includes b key = false ->
  Words.runs_into key b = false ->
  JsString.starts_with key (w ++ (b ++ y)) = true ->
  JsString.starts_with key w = true.
Proof.
  intros Hinc Hrun H.
  destruct (@straddle_cases key w b y H) as [Hw | [(z & Hk & Hz & Hzb) | (z & Hk)]].
  - exact Hw.
  - rewrite (@runs_into_false key b w z Hrun Hk Hz) in Hzb. discriminate Hzb.
  - rewrite Hk in Hinc.
    rewrite (@includes_intro b w (b ++ z) (starts_with_self_app b z)) in Hinc.
    discriminate Hinc.
Qed.

(** The key, standing apart from the block [b], starts nowhere inside
    [b]. *)
Lemma no_start_inside_apart (key b u w y : string) :
  JsString.includes key b = false ->
  Words.runs_into b key = false ->
  b = (u ++ w)%string -> w <> "" ->
  JsString.starts_with key (w ++ y) = false.
Proof.
  intros Hinc Hrun Hb Hw.
  destruct (JsString.starts_with key (w ++ y)) eqn:E; [|reflexivity].
  destruct (@starts_with_app_cases key w y E) as [Hkw | (z & Hk & _ & _)].
  - rewrite Hb, (@includes_intro key u w Hkw) in Hinc. discriminate Hinc.
  - pose proof (@runs_into_false b key u w Hrun Hb Hw) as Hn.
    rewrite Hk, starts_with_self_app in Hn. discriminate Hn.
Qed.

Lemma clear_of_app (r p a b : string) :
  Words.clear_of r p (a ++ b) -> Words.clear_of r p a /\ Words.clear_of r p b.
Proof.
  intros [H1 H2]. destruct (@includes_false_app r a b H1) as [Ha Hb].
  split; (split; [assumption|]); intros v Hv;
    destruct (@includes_false_app (v ++ p) a b (H2 v Hv)); assumption.
Qed.

(** ** Texts laid out in gaps and blocks *)

Lemma original_app (l1 l2 : Layout.layout) :
  Layout.original (l1 ++ l2) = (Layout.original l1 ++ Layout.original l2)%string.
Proof.
  induction l1 as [|[u|p r] l1 IH]; simpl; [reflexivity| |];
    rewrite IH, append_assoc_s; reflexivity.
Qed.

Lemma rendered_app (R : list string) (l1 l2 : Layout.layout) :
  Layout.rendered R (l1 ++ l2)
  = (Layout.rendered R l1 ++ Layout.rendered R l2)%string.
Proof.
  induction l1 as [|[u|p r] l1 IH]; simpl; [reflexivity| |];
    rewrite IH, append_assoc_s; reflexivity.
Qed.

Lemma blocks_app (l1 l2 : Layout.layout) :
  Layout.blocks (l1 ++ l2) = Layout.blocks l1 ++ Layout.blocks l2.
Proof.
  induction l1 as [|[u|p r] l1 IH]; simpl; [reflexivity|exact IH|].
  now rewrite IH.
Qed.

Lemma of_pieces_texts (p r : string) (pieces : list string) :
  Layout.original (Layout.of_pieces p r pieces) = JsString.join p pieces
  /\ Layout.rendered [] (Layout.of_pieces p r pieces) = JsString.join r pieces
  /\ forall b, In b (Layout.blocks (Layout.of_pieces p r pieces)) -> b = (p, r).
Proof.
  induction pieces as [|u pieces (IH1 & IH2 & IH3)].
  - repeat split. intros b [].
  - destruct pieces as [|u' pieces].
    + simpl. rewrite append_empty_r. repeat split. intros b [].
    + change (Layout.of_pieces p r (u :: u' :: pieces))
        with (Layout.Gap u :: Layout.Block p r :: Layout.of_pieces p r (u' :: pieces)).
      cbn [Layout.original Layout.rendered Layout.blocks Layout.is_restored existsb].
      rewrite IH1, IH2. repeat split.
      intros b [<- | Hb]; [reflexivity | apply IH3; exact Hb].
Qed.

(** The occurrences of a pattern that one replacement step exchanges,
    marked in the text. *)
Lemma mark_text (p r v : string) :
  exists l,
    Layout.original l = v
    /\ Layout.rendered [] l = JsString.replace_all p r v
    /\ forall b, In b (Layout.blocks l) -> b = (p, r).
Proof.
  exists (Layout.of_pieces p r (JsString.split p v)).
  destruct (of_pieces_texts p r (JsString.split p v)) as (H1 & H2 & H3).
  rewrite H1, H2, join_split. repeat split. exact H3.
Qed.

(** One step of obfuscation on a laid-out text: the pattern stands apart
    from the replacements already in the text, so its occurrences lie in
    the gaps, and exchanging them refines the layout. *)
Lemma forward_step (p r : string) (Hp : p <> "") :
  forall (l : Layout.layout) (v : string),
    (forall p' r', In (p', r') (Layout.blocks l) -> Words.apart p r' = true) ->
    exists l',
      Layout.original l' = (v ++ Layout.original l)%string
      /\ Layout.rendered [] l'
         = JsString.replace_all p r (v ++ Layout.rendered [] l)
      /\ forall b, In b (Layout.blocks l') -> b = (p, r) \/ In b (Layout.blocks l).
Proof.
  induction l as [|[u|p' r'] l IH]; intros v Hblocks.
  - destruct (mark_text p r v) as (l' & H1 & H2 & H3).
    exists l'. simpl. rewrite append_empty_r.
    repeat split; try assumption. intros b Hb. left. apply H3. exact Hb.
  - destruct (IH (v ++ u)%string Hblocks) as (l' & H1 & H2 & H3).
    exists l'. simpl. rewrite <- !append_assoc_s. repeat split; assumption.
  - destruct (@apart_spec p r' (Hblocks p' r' (or_introl eq_refl)))
      as (Hpr & Hrp & Hrun1 & Hrun2).
    destruct (IH ""%string (fun a b H => Hblocks a b (or_intror H)))
      as (l2 & H1 & H2 & H3).
    destruct (mark_text p r v) as (l1 & G1 & G2 & G3).
    exists (l1 ++ Layout.Block p' r' :: l2).
    cbn [Layout.original Layout.rendered Layout.blocks Layout.is_restored existsb].
    rewrite original_app, rendered_app, blocks_app.
    cbn [Layout.original Layout.rendered Layout.blocks Layout.is_restored existsb].
    rewrite G1, G2, H1, H2. simpl append.
    split; [reflexivity|]. split.
    + rewrite (@replace_all_app p r Hp (r' ++ Layout.rendered [] l)
                 (String.length v) v (le_n _)).
      * f_equal.
        symmetry. apply (@replace_all_pass p r Hp (Layout.rendered [] l) r' "" r' eq_refl).
        intros u' w' Hb Hw.
        apply (@no_start_inside_apart p r' u' w' _ Hpr Hrun2 Hb Hw).
      * intros u w _ _ Hs.
        apply (@no_straddle_apart p r' w _ Hrp Hrun1 Hs).
    + intros b Hb. apply in_app_or in Hb. destruct Hb as [Hb | [<- | Hb]].
      * left. apply G3. exact Hb.
      * right. now left.
      * destruct (H3 b Hb) as [-> | Hb']; [now left | right; now right].
Qed.

Lemma apply_entries_cons (k v : string) (dict : JsObject.t string) (s : string) :
  apply_entries ((k, v) :: dict) s = apply_entries dict (JsString.replace_all k v s).
Proof. reflexivity. Qed.

(** Obfuscation on a laid-out text. *)
Lemma forward_all (F : JsObject.t string) :
  forall l : Layout.layout,
    (forall p r, In (p, r) F -> p <> "") ->
    Separation.patterns_apart_from_earlier F ->
    (forall p r p' r', In (p, r) F -> In (p', r') (Layout.blocks l) ->
                       Words.apart p r' = true) ->
    exists l',
      Layout.original l' = Layout.original l
      /\ Layout.rendered [] l' = apply_entries F (Layout.rendered [] l)
      /\ forall b, In b (Layout.blocks l') -> In b F \/ In b (Layout.blocks l).
Proof.
  induction F as [|[p r] F IH]; intros l Hne Hord Hblocks.
  - exists l. repeat split. intros b Hb. now right.
  - inversion Hord as [|e es Hlater Hord']; subst.
    destruct (@forward_step p r (Hne p r (or_introl eq_refl)) l ""%string)
      as (l1 & H1 & H2 & H3).
    { intros p' r' Hb. apply (Hblocks p r p' r'); [now left | exact Hb]. }
    destruct (IH l1) as (l2 & G1 & G2 & G3).
    + intros p0 r0 H0. apply (Hne p0 r0). now right.
    + exact Hord'.
    + intros p0 r0 p0' r0' H0 Hb.
      destruct (H3 _ Hb) as [Heq | Hb'].
      * injection Heq as -> ->.
        rewrite Forall_forall in Hlater. apply (Hlater (p0, r0) H0).
      * apply (Hblocks p0 r0 p0' r0'); [now right | exact Hb'].
    + exists l2. rewrite G1, G2, H1, H2, apply_entries_cons. simpl.
      repeat split.
      intros b Hb. destruct (G3 b Hb) as [Hb' | Hb'].
      * left. now right.
      * destruct (H3 b Hb') as [-> | Hb'']; [left; now left | now right].
Qed.

(** One step of de-obfuscation on a laid-out text: the blocks of the
    replacement show their pattern again, and nothing else changes. *)
Lemma reverse_step (r p : string) (Hr : r <> "") (R : list string) :
  forall (l : Layout.layout) (v : string),
    (forall p' r', In (p', r') (Layout.blocks l) ->
                   r' = r /\ p' = p \/ r' <> r /\ Words.apart r r' = true) ->
    Words.clear_of r p (v ++ Layout.original l) ->
    JsString.replace_all r p (v ++ Layout.rendered R l)
    = (v ++ Layout.rendered (r :: R) l)%string.
Proof.
  induction l as [|[u|p' r'] l IH]; intros v Hblocks Hclear.
  - simpl in *. rewrite append_empty_r in *.
    apply replace_all_absent; [exact Hr | exact (proj1 Hclear)].
  - simpl in *. rewrite <- !append_assoc_s. apply IH; [exact Hblocks|].
    rewrite append_assoc_s. exact Hclear.
  - assert (Htail : forall a b, In (a, b) (Layout.blocks l) ->
                      b = r /\ a = p \/ b <> r /\ Words.apart r b = true)
      by (intros a b H; apply Hblocks; now right).
    cbn [Layout.original] in Hclear.
    cbn [Layout.rendered].
    destruct (Layout.is_restored R r') eqn:Hres.
    + assert (Hres' : Layout.is_restored (r :: R) r' = true).
      { unfold Layout.is_restored in *. simpl. rewrite Hres. apply orb_true_r. }
      rewrite Hres'. rewrite <- !append_assoc_s. apply IH; [exact Htail|].
      rewrite append_assoc_s. exact Hclear.
    + destruct (@clear_of_app r p v _ Hclear) as [Hv Hrest].
      destruct (@clear_of_app r p p' _ Hrest) as [_ Hl].
      specialize (IH ""%string Htail Hl). simpl append in IH.
      destruct (Hblocks p' r' (or_introl eq_refl)) as [[-> ->] | [Hneq Hapart]].
      * assert (Hres' : Layout.is_restored (r :: R) r = true).
        { unfold Layout.is_restored. simpl. rewrite String.eqb_refl. reflexivity. }
        rewrite Hres'.
        rewrite (@replace_all_app r p Hr (r ++ Layout.rendered R l)
                   (String.length v) v (le_n _)).
        -- rewrite (@replace_all_absent r p v Hr (proj1 Hv)). f_equal.
           rewrite (@replace_all_match r p _ Hr (starts_with_self_app r _)).
           rewrite drop_app_length, IH. reflexivity.
        -- intros u w Hu Hw Hs.
           destruct (@straddle_cases r w r _ Hs)
             as [Hw' | [(z & Hk & Hz & Hzr) | (z & Hk)]].
           ++ exact Hw'.
           ++ exfalso.
              pose proof (proj2 Hclear w (@restarts_spec r w z Hk Hw Hz Hzr)) as Hn.
              rewrite Hu, append_assoc_s in Hn.
              rewrite (@includes_intro (w ++ p) u _
                         (starts_with_app_prefix w p (Layout.original l))) in Hn.
              discriminate Hn.
           ++ exfalso. apply (f_equal String.length) in Hk.
              rewrite !length_append_s in Hk.
              destruct w; [congruence | simpl in Hk; lia].
      * destruct (@apart_spec r r' Hapart) as (Hrr' & Hr'r & Hrun1 & Hrun2).
        assert (Hres' : Layout.is_restored (r :: R) r' = false).
        { unfold Layout.is_restored in *. simpl. rewrite Hres.
          apply String.eqb_neq in Hneq. rewrite Hneq. reflexivity. }
        rewrite Hres'.
        rewrite (@replace_all_app r p Hr (r' ++ Layout.rendered R l)
                   (String.length v) v (le_n _)).
        -- rewrite (@replace_all_absent r p v Hr (proj1 Hv)). f_equal.
           rewrite (@replace_all_pass r p Hr (Layout.rendered R l) r' "" r' eq_refl).
           ++ rewrite IH. reflexivity.
           ++ intros u' w' Hb Hw.
              apply (@no_start_inside_apart r r' u' w' _ Hrr' Hrun2 Hb Hw).
        -- intros u w _ _ Hs.
           apply (@no_straddle_apart r r' w _ Hr'r Hrun1 Hs).
Qed.

(** De-obfuscation on a laid-out text. *)
Lemma reverse_all (D : JsObject.t string) :
  forall (R : list string) (l : Layout.layout),
    (forall r p, In (r, p) D ->
       r <> "" /\ Words.clear_of r p (Layout.original l)
       /\ forall p' r', In (p', r') (Layout.blocks l) ->
                        r' = r /\ p' = p \/ r' <> r /\ Words.apart r r' = true) ->
    apply_entries D (Layout.rendered R l)
    = Layout.rendered (rev (map fst D) ++ R) l.
Proof.
  induction D as [|[r p] D IH]; intros R l H; [reflexivity|].
  destruct (H r p (or_introl eq_refl)) as (Hr & Hclear & Hblocks).
  rewrite apply_entries_cons.
  pose proof (@reverse_step r p Hr R l ""%string Hblocks Hclear) as Hstep.
  simpl append in Hstep. rewrite Hstep.
  rewrite IH by (intros r0 p0 H0; apply H; now right).
  cbn [map fst rev]. rewrite <- app_assoc. reflexivity.
Qed.

Lemma rendered_all_restored (R : list string) (l : Layout.layout) :
  (forall p r, In (p, r) (Layout.blocks l) -> In r R) ->
  Layout.rendered R l = Layout.original l.
Proof.
  induction l as [|[u|p r] l IH]; intros H; [reflexivity| |].
  - simpl. rewrite IH by exact H. reflexivity.
  - cbn [Layout.rendered Layout.original].
    rewrite IH by (intros a b Hb; apply (H a b); now right).
    assert (Hres : Layout.is_restored R r = true).
    { apply existsb_exists. exists r. split; [|apply String.eqb_refl].
      apply (H p r). now left. }
    rewrite Hres. reflexivity.
Qed.

(** ** Undoing obfuscation when the replacements stand apart *)

Lemma apply_entries_empty_keys (dict : JsObject.t string) :
  (forall k v, In (k, v) dict -> k <> "") -> apply_entries dict "" = "".
Proof.
  induction dict as [|[k v] dict IH]; intros H; [reflexivity|].
  rewrite apply_entries_cons.
  rewrite (@replace_all_empty_text k v (H k v (or_introl eq_refl))).
  apply IH. intros k' v' Hin. apply (H k' v'). now right.
Qed.

Section DictionariesApart.

Variable writes : list (string * string).
Variable F D : JsObject.t string.

Hypothesis Hproper : Separation.proper writes.
Hypothesis Hinv : RoundTrip.replacements_invertible writes.
Hypothesis Hrr : Separation.replacements_apart writes.

Hypothesis HF : forall p r, In (p, r) F -> In (p, r) writes.
Hypothesis Hpr : Separation.patterns_apart_from_earlier F.
Hypothesis HD : forall r p, In (r, p) D -> In (p, r) writes.
Hypothesis HFD : forall p r, In (p, r) F -> In r (map fst D).

Lemma reverse_on_layout (l : Layout.layout) :
  Separation.clear_string writes (Layout.original l) ->
  (forall b, In b (Layout.blocks l) -> In b F) ->
  apply_entries D (Layout.rendered [] l) = Layout.original l.
Proof.
  intros Hclear Hblocks.
  rewrite (@reverse_all D [] l).
  - apply rendered_all_restored. intros p r Hb.
    apply in_or_app. left. apply -> in_rev. apply (@HFD p r). apply Hblocks. exact Hb.
  - intros r p Hin. pose proof (@HD r p Hin) as Hw.
    split; [apply (@Hproper p r Hw)|]. split; [apply (@Hclear p r Hw)|].
    intros p' r' Hb. pose proof (@HF p' r' (Hblocks _ Hb)) as Hw'.
    destruct (String.eqb r' r) eqn:E.
    + apply String.eqb_eq in E. subst r'. left. split; [reflexivity|].
      apply (@Hinv p' p r Hw' Hw).
    + apply String.eqb_neq in E. right. split; [exact E|].
      apply (@Hrr p r p' r' Hw Hw'). congruence.
Qed.

(** On a string that is clear of the replacements, the reverse dictionary
    changes nothing, and it undoes what the forward dictionary did. *)
Lemma entries_round_trip (s : string) :
  Separation.clear_string writes s ->
  apply_entries D s = s /\ apply_entries D (apply_entries F s) = s.
Proof.
  intros Hclear. split.
  - pose proof (@reverse_on_layout [Layout.Gap s]) as H. simpl in H.
    rewrite append_empty_r in H. apply H; [exact Hclear | intros b []].
  - destruct (@forward_all F [Layout.Gap s]) as (l & H1 & H2 & H3).
    + intros p r Hin. apply (@Hproper p r (@HF p r Hin)).
    + exact Hpr.
    + intros p r p' r' _ [].
    + simpl in H1, H2. rewrite append_empty_r in H1, H2.
      rewrite <- H2, (@reverse_on_layout l).
      * exact H1.
      * rewrite H1. exact Hclear.
      * intros b Hb. destruct (H3 b Hb) as [Hb' | []]. exact Hb'.
Qed.

End DictionariesApart.

Lemma lookup_key_In {V} (k : string) (v : V) (o : JsObject.t V) :
  JsObject.lookup k o = Some v -> In k (map fst o).
Proof.
  intros H. apply lookup_In in H. apply in_map_iff. exists (k, v). now split.
Qed.

Lemma tree_includes_strings_all (Q : string -> Prop) :
  forall x, (forall t, Q t -> tree_includes t x = false) ->
            RoundTrip.strings_all (fun s => forall t, Q t -> JsString.includes t s = false) x.
Proof.
  induction x as [| |b|n|s|items IH|props IH] using value_tree_ind;
    intros H; try exact I.
  - exact H.
  - apply strings_all_items.
    induction IH as [|x items Hx _ IHitems]; constructor.
    + apply Hx. intros t Ht. specialize (H t Ht). simpl in H.
      apply orb_false_iff in H. tauto.
    + apply IHitems. intros t Ht. specialize (H t Ht). simpl in H.
      apply orb_false_iff in H. tauto.
  - apply strings_all_props.
    induction IH as [|[k x] props Hx _ IHprops]; constructor.
    + apply Hx. intros t Ht. specialize (H t Ht). simpl in H.
      apply orb_false_iff in H. tauto.
    + apply IHprops. intros t Ht. specialize (H t Ht). simpl in H.
      apply orb_false_iff in H. tauto.
Qed.

(** The two dictionaries of a rule list in which every active rule is
    reversible: their entries are writes of the rules, and every
    replacement the forward one writes is a property name of the reverse
    one. *)
Lemma compiled_from_writes (rules : list Obfuscator.ruleObj) :
  RoundTrip.all_reversible rules ->
  Separation.proper (RuleCompiler.forward_writes rules) ->
  RoundTrip.replacements_invertible (RuleCompiler.forward_writes rules) ->
  let st := Obfuscator.loadReplacements (Some rules) in
  (forall p r, In (p, r) (Obfuscator.requestReplacements st) ->
               In (p, r) (RuleCompiler.forward_writes rules))
  /\ (forall r p, In (r, p) (Obfuscator.responseReplacements st) ->
                  In (p, r) (RuleCompiler.forward_writes rules))
  /\ (forall p r, In (p, r) (Obfuscator.requestReplacements st) ->
                  In r (map fst (Obfuscator.responseReplacements st))).
Proof.
  intros Hrev Hproper Hinv st.
  assert (H1 : forall p r, In (p, r) (Obfuscator.requestReplacements st) ->
                           In (p, r) (RuleCompiler.forward_writes rules)).
  { intros p r H. unfold st in H. simpl in H. rewrite build_request_writes in H.
    apply In_assign_all in H. destruct H as [H | []]. exact H. }
  split; [exact H1|]. split.
  - intros r p H. unfold st in H. simpl in H.
    rewrite build_response_writes, (reverse_writes_swap Hrev) in H.
    apply In_assign_all in H. destruct H as [H | []].
    apply (proj1 (In_swap_entries _ _ _)) in H. exact H.
  - intros p r H. pose proof (@H1 p r H) as Hw.
    destruct (@Hproper p r Hw) as (_ & _ & Hproto).
    assert (Hsw : In (r, p) (Obfuscator.swap_entries (RuleCompiler.forward_writes rules)))
      by (apply In_swap_entries; exact Hw).
    destruct (last_write_some _ _ _ Hsw) as [w Hlast].
    apply (@lookup_key_In _ r w).
    unfold st. simpl.
    rewrite build_response_writes, (reverse_writes_swap Hrev).
    rewrite (lookup_assign_all Hproto), Hlast. reflexivity.
Qed.

Lemma tree_clear_of_spec (r p : string) (x : value) :
  Separation.tree_clear_of r p x = true ->
  tree_includes r x = false
  /\ forall v, In v (Words.restarts r) -> tree_includes (v ++ p) x = false.
Proof.
  unfold Separation.tree_clear_of. rewrite andb_true_iff, negb_true_iff.
  intros [H1 H2]. split; [exact H1|]. intros v Hv.
  rewrite forallb_forall in H2. apply negb_true_iff. apply H2. exact Hv.
Qed.




(** Each condition of the amended statement is needed.  The round trip
    fails: on "xa" with a->xx, where the pattern comes right after x,
    the leading part of xx after which xx starts again; on "bb" with
    a->xy and b->yx, two replacements that run into each other; on "ba"
    with a->x and bx->q, where a pattern holds the replacement of an
    earlier entry; on "a" with a->z and b->z, a replacement that stands
    for two patterns; on "a" with a->__proto__, a replacement the
    reverse dictionary cannot hold; and on "external_naminternal_name"
    with the rule set of the README, where the pattern comes right after
    the leading part of external_name after which it starts again. *)
Example round_trip_conditions_are_needed :
  let round_trip writes s :=
    Obfuscator.deobfuscateResponseBody
      (Obfuscator.loadReplacements (Some (Fixtures.reversible_rule writes)))
      (Obfuscator.obfuscateRequestBody
         (Obfuscator.loadReplacements (Some (Fixtures.reversible_rule writes)))
         (VStr s)) in
  round_trip [("a", "xx")] "xa" = VStr "ax"
  /\ round_trip [("a", "xy"); ("b", "yx")] "bb" = VStr "yax"
  /\ round_trip [("a", "x"); ("bx", "q")] "ba" = VStr "bx"
  /\ round_trip [("a", "z"); ("b", "z")] "a" = VStr "b"
  /\ round_trip [("a", "__proto__")] "a" = VStr "__proto__"
  /\ round_trip [("secret_key", "public_key"); ("internal_name", "external_name");
                 ("private_data", "public_data")] "external_naminternal_name"
     = VStr "internal_namexternal_name".
Proof. repeat split; vm_compute; reflexivity. Qed.

(** With replacements of one code unit the pattern may also be empty:
    when every active rule is reversible, every replacement is a single
    code unit that stands for one pattern only and occurs in no pattern,
    and the tree is well formed and has no replacement unit in its
    strings, de-obfuscating the obfuscated tree gives the tree back. *)
Lemma round_trip_unit_replacements
  (rules : list Obfuscator.ruleObj) (x : value)
  (Hrev : RoundTrip.all_reversible rules)
  (Hunit : RoundTrip.unit_replacements (RuleCompiler.forward_writes rules))
  (Hinv : RoundTrip.replacements_invertible (RuleCompiler.forward_writes rules))
  (Hfresh : RoundTrip.units_fresh_in_patterns (RuleCompiler.forward_writes rules))
  (Hx : RoundTrip.units_fresh_in_tree (RuleCompiler.forward_writes rules) x)
  (Hwf : tree_well_formed x) :
  Obfuscator.deobfuscateResponseBody (Obfuscator.loadReplacements (Some rules))
    (Obfuscator.obfuscateRequestBody (Obfuscator.loadReplacements (Some rules)) x)
  = x.
Proof.
  set (st := Obfuscator.loadReplacements (Some rules)).
  set (Q := fun c => exists p, In (p, String c "") (RuleCompiler.forward_writes rules)).
  set (P := fun s => forall c, Q c -> JsString.mem c s = false).
  assert (Hall : RoundTrip.strings_all P x).
  { apply tree_mentions_strings_all. intros c [p Hp]. apply (Hx p c Hp). }
  assert (Hstr : forall s, P s ->
             Obfuscator.deobfuscateString st s = s
             /\ Obfuscator.deobfuscateString st (Obfuscator.obfuscateString st s) = s).
  { intros s Hs. apply (string_round_trip Hrev Hunit Hinv Hfresh).
    intros p c Hin. apply Hs. now exists p. }
  unfold Obfuscator.obfuscateRequestBody, Obfuscator.deobfuscateResponseBody.
  fold st.
  destruct (Obfuscator.requestReplacements st) as [|[p r] fwd] eqn:Hfwd;
    cbn [List.length Nat.eqb].
  - destruct (List.length (Obfuscator.responseReplacements st) =? 0)%nat;
      [reflexivity|].
    apply (@processObject_fixed _ P); [|assumption|assumption].
    intros s Hs. apply (Hstr s Hs).
  - assert (Hin : In (p, r) (RuleCompiler.forward_writes rules)).
    { apply request_entries_written. fold st. rewrite Hfwd. now left. }
    destruct (Hunit _ _ Hin) as [c ->].
    pose proof (response_lookup_written Hrev Hinv p c Hin) as Hl. fold st in Hl.
    destruct (Obfuscator.responseReplacements st) as [|e rev] eqn:Hrv;
      [discriminate Hl|].
    cbn [List.length Nat.eqb].
    apply (@processObject_round_trip _ _ P); [|assumption|assumption].
    intros s Hs. apply (Hstr s Hs).
Qed.

Example round_trip_unit_replacements_example :
  Obfuscator.deobfuscateResponseBody
    (Obfuscator.loadReplacements (Some Fixtures.marker_rules))
    (Obfuscator.obfuscateRequestBody
       (Obfuscator.loadReplacements (Some Fixtures.marker_rules))
       Fixtures.marker_input)
  = Fixtures.marker_input.
Proof.
  apply (@round_trip_unit_replacements Fixtures.marker_rules Fixtures.marker_input).
  - repeat constructor; discriminate.
  - intros p r [H | [H | []]]; inversion H; subst; eexists; reflexivity.
  - intros p p' r [H | [H | []]] [H' | [H' | []]];
      inversion H; subst; inversion H'; subst; reflexivity.
  - intros p c p' r [H | [H | []]] [H' | [H' | []]];
      inversion H; subst; inversion H'; subst; reflexivity.
  - intros p c [H | [H | []]]; inversion H; subst; reflexivity.
  - vm_compute. tauto.
Defined.

(** ** The model on small inputs *)

Example split_examples :
  JsString.split "b" "abcb" = ["a"; "c"; ""]
  /\ JsString.split "xx" "xxx" = [""; "x"]
  /\ JsString.split "aa" "aaaaa" = [""; ""; "a"]
  /\ JsString.split "secret" "sec" = ["sec"]
  /\ JsString.split "" "abc" = ["a"; "b"; "c"]
  /\ JsString.split "ab" "" = [""]
  /\ JsString.split "" "" = [].
Proof. repeat split; reflexivity. Qed.

Example replace_all_example : JsString.replace_all "ab" "-" "abcabab" = "-c--".
Proof. reflexivity. Qed.

Example own_property_order :
  JsObject.assign_all
    [("b", "1"); ("10", "2"); ("a", "3"); ("2", "4"); ("b", "5"); ("__proto__", "6")] []
  = [("2", "4"); ("10", "2"); ("b", "5"); ("a", "3")].
Proof. reflexivity. Qed.

Example round_robin_example :
  let pool := Some [Fixtures.proxy_B; Fixtures.proxy_C] in
  let first := ProxyManager.getNextProxyAgent Fixtures.sample_agent ProxyManager.initial pool in
  let second := ProxyManager.getNextProxyAgent Fixtures.sample_agent
                  (ProxyManager.next_state first) pool in
  let third := ProxyManager.getNextProxyAgent Fixtures.sample_agent
                 (ProxyManager.next_state second) pool in
  map (fun o => option_map snd (ProxyManager.returned o)) [first; second; third]
  = [Some Fixtures.proxy_B; Some Fixtures.proxy_C; Some Fixtures.proxy_B].
Proof. vm_compute. reflexivity. Qed.

(** * Further properties *)

(** ** Substitution engine: text without patterns, concatenation, composition *)

Lemma starts_with_empty_text (c : ascii) (sep : string) :
  JsString.starts_with (String c sep) "" = false.
Proof. reflexivity. Qed.

Lemma split_scan_no_match (c0 : ascii) (sep' s : string) :
  JsString.includes (String c0 sep') s = false ->
  JsString.split_scan (String c0 sep') 0 s = (s, []).
Proof.
  induction s as [|c s IH]; intros H; [reflexivity|].
  cbn [JsString.includes] in H. apply orb_false_iff in H. destruct H as [H1 H2].
  cbn [JsString.split_scan]. rewrite H1.
  rewrite (IH H2). reflexivity.
Qed.

Lemma replace_all_no_match (k v s : string) :
  JsString.includes k s = false -> JsString.replace_all k v s = s.
Proof.
  intros H. unfold JsString.replace_all, JsString.split.
  destruct k as [|c0 k'].
  - destruct s; discriminate H.
  - rewrite (split_scan_no_match _ _ _ H). reflexivity.
Qed.

Lemma apply_entries_no_match (dict : JsObject.t string) (s : string) :
  Engine.no_key_in dict s -> apply_entries dict s = s.
Proof.
  unfold apply_entries, Engine.no_key_in.
  induction dict as [|[k v] dict IH]; intros H; [reflexivity|].
  cbn [fold_left fst snd].
  rewrite (replace_all_no_match k v s (H k v (or_introl eq_refl))).
  apply IH. intros k' v' Hin. apply (H k' v'). now right.
Qed.

(** X1: a string in which no pattern of the forward dictionary occurs is
    returned as it is by [obfuscateString], and one in which no key of the
    reverse dictionary occurs is returned as it is by [deobfuscateString]. *)
Theorem strings_without_patterns_unchanged (st : Obfuscator.state) (s : string) :
  (Engine.no_key_in (Obfuscator.requestReplacements st) s ->
   Obfuscator.obfuscateString st s = s)
  /\ (Engine.no_key_in (Obfuscator.responseReplacements st) s ->
      Obfuscator.deobfuscateString st s = s).
Proof.
  unfold Obfuscator.obfuscateString, Obfuscator.deobfuscateString.
  split; intros H; destruct (String.eqb s ""); try reflexivity;
    apply apply_entries_no_match; exact H.
Qed.

Lemma strings_without_patterns_unchanged_witness :
  Obfuscator.obfuscateString Fixtures.chain_state "hello world" = "hello world"
  /\ Obfuscator.deobfuscateString Fixtures.chain_state "hello world" = "hello world".
Proof.
  split.
  - apply (proj1 (strings_without_patterns_unchanged Fixtures.chain_state "hello world")).
    intros k v [H | [H | []]]; inversion H; subst; reflexivity.
  - apply (proj2 (strings_without_patterns_unchanged Fixtures.chain_state "hello world")).
    intros k v [H | [H | []]]; inversion H; subst; reflexivity.
Defined.

Lemma apply_entries_unit_keys_app (dict : JsObject.t string) :
  Engine.unit_keys dict ->
  forall a b,
    apply_entries dict (a ++ b) = (apply_entries dict a ++ apply_entries dict b)%string.
Proof.
  unfold apply_entries, Engine.unit_keys.
  induction dict as [|[k v] dict IH]; intros Hkeys a b; [reflexivity|].
  destruct (Hkeys k v (or_introl eq_refl)) as [c ->].
  cbn [fold_left fst snd]. rewrite !replace_all_unit, subst_units_app.
  apply IH. intros k' v' Hin. apply (Hkeys k' v'). now right.
Qed.

Lemma apply_entries_empty_text (dict : JsObject.t string) :
  Engine.unit_keys dict -> apply_entries dict "" = "".
Proof.
  unfold apply_entries, Engine.unit_keys.
  induction dict as [|[k v] dict IH]; intros Hkeys; [reflexivity|].
  destruct (Hkeys k v (or_introl eq_refl)) as [c ->].
  cbn [fold_left fst snd]. rewrite replace_all_unit. simpl.
  apply IH. intros k' v' Hin. apply (Hkeys k' v'). now right.
Qed.

Lemma deobfuscateString_unit_keys_app (st : Obfuscator.state) :
  Engine.unit_keys (Obfuscator.responseReplacements st) ->
  forall a b,
    Obfuscator.deobfuscateString st (a ++ b)
    = (Obfuscator.deobfuscateString st a ++ Obfuscator.deobfuscateString st b)%string.
Proof.
  intros Hkeys.
  assert (H : forall s, Obfuscator.deobfuscateString st s
                        = apply_entries (Obfuscator.responseReplacements st) s).
  { intros s. unfold Obfuscator.deobfuscateString.
    destruct (String.eqb s "") eqn:E; [|reflexivity].
    apply String.eqb_eq in E. subst s. symmetry.
    apply apply_entries_empty_text. exact Hkeys. }
  intros a b. rewrite !H. apply apply_entries_unit_keys_app. exact Hkeys.
Qed.

(** X2: when every key of the reverse dictionary is a single code unit,
    [deobfuscateString] distributes over concatenation: the de-obfuscation
    of a text is the concatenation of the de-obfuscations of its parts,
    wherever the text is cut and into however many parts. *)
Theorem deobfuscation_distributes_for_unit_keys
  (st : Obfuscator.state) (parts : list string)
  (Hkeys : Engine.unit_keys (Obfuscator.responseReplacements st)) :
  Obfuscator.deobfuscateString st (Engine.concat_all parts)
  = Engine.concat_all (map (Obfuscator.deobfuscateString st) parts).
Proof.
  induction parts as [|a rest IH].
  - reflexivity.
  - cbn [Engine.concat_all map].
    rewrite (@deobfuscateString_unit_keys_app st Hkeys), IH. reflexivity.
Qed.

Lemma deobfuscation_distributes_for_unit_keys_witness :
  Obfuscator.deobfuscateString
    (Obfuscator.loadReplacements (Some Fixtures.marker_rules))
    (Engine.concat_all ["the # o"; "f %"; ""; "#"])
  = "the secret_key of internal_namesecret_key".
Proof.
  apply (@deobfuscation_distributes_for_unit_keys
           (Obfuscator.loadReplacements (Some Fixtures.marker_rules))
           ["the # o"; "f %"; ""; "#"]).
  intros k v [H | [H | []]]; inversion H; subst; eexists; reflexivity.
Defined.

Lemma erase_strings_props (props : list (string * value)) :
  Shape.erase_strings (VObj props)
  = VObj (JsObject.map_values Shape.erase_strings props).
Proof.
  cbn [Shape.erase_strings]. f_equal.
  induction props as [|[k x] props IH]; [reflexivity|].
  simpl. f_equal. exact IH.
Qed.

Lemma processObject_compose_wf (f g : string -> string) :
  forall x, tree_well_formed x ->
            processObject g (processObject f x) = processObject (fun s => g (f s)) x.
Proof.
  induction x as [| |b|n|s|items IH|props IH] using value_tree_ind;
    intros Hwf; try reflexivity.
  - apply well_formed_items in Hwf.
    cbn [processObject]. f_equal. rewrite map_map.
    induction IH as [|x items Hx _ IHitems]; [reflexivity|].
    inversion Hwf; subst.
    simpl. f_equal; [apply Hx; assumption | apply IHitems; assumption].
  - apply well_formed_props in Hwf. destruct Hwf as [Hwf Hsub].
    rewrite (processObject_well_formed_props f Hwf).
    rewrite (processObject_well_formed_props g
               (well_formed_map_values (processObject f) Hwf)).
    rewrite (processObject_well_formed_props (fun s => g (f s)) Hwf).
    f_equal. clear Hwf. unfold JsObject.map_values. rewrite map_map.
    induction IH as [|[k x] props Hx _ IHprops]; [reflexivity|].
    inversion Hsub; subst.
    simpl in *. f_equal; [f_equal; apply Hx; assumption | apply IHprops; assumption].
Qed.

Lemma strings_all_trivial (x : value) : RoundTrip.strings_all (fun _ => True) x.
Proof.
  induction x as [| |b|n|s|items IH|props IH] using value_tree_ind;
    try exact I.
  - apply strings_all_items. exact IH.
  - apply strings_all_props. exact IH.
Qed.





(** ** Rule compiler: idle rules, and what the reverse dictionary holds *)

Lemma idle_rules_write_nothing (rules : list Obfuscator.ruleObj) :
  Forall Engine.idle rules ->
  RuleCompiler.forward_writes rules = [] /\ RuleCompiler.reverse_writes rules = [].
Proof.
  induction 1 as [|r rules Hr _ [IH1 IH2]]; [split; reflexivity|].
  simpl. destruct Hr as [Hr | Hr]; rewrite Hr; simpl.
  - split; assumption.
  - destruct (Obfuscator.is_active r); simpl;
      [destruct (Obfuscator.is_res_obfs r)|]; split; assumption.
Qed.

(** X5: when the rule file is missing or unreadable, or every rule in it
    is switched off or has no rule object, both dictionaries are empty and
    request bodies, response bodies and streams pass through as they are. *)
Theorem idle_configuration_disables_obfuscation
  (config : option (list Obfuscator.ruleObj))
  (Hidle : forall rules, config = Some rules -> Forall Engine.idle rules) :
  Obfuscator.loadReplacements config
  = {| Obfuscator.requestReplacements := [];
       Obfuscator.responseReplacements := [] |}
  /\ (forall body,
        Obfuscator.obfuscateRequestBody (Obfuscator.loadReplacements config) body = body
        /\ Obfuscator.deobfuscateResponseBody (Obfuscator.loadReplacements config) body
           = body)
  /\ (forall stream,
        Obfuscator.transformStream (Obfuscator.loadReplacements config) stream = stream).
Proof.
  assert (Hload : Obfuscator.loadReplacements config
                  = {| Obfuscator.requestReplacements := [];
                       Obfuscator.responseReplacements := [] |}).
  { destruct config as [rules|]; [|reflexivity].
    unfold Obfuscator.loadReplacements.
    rewrite build_request_writes, build_response_writes.
    destruct (idle_rules_write_nothing (Hidle rules eq_refl)) as [-> ->].
    reflexivity. }
  rewrite Hload. split; [reflexivity|]. split.
  - intros body. split; reflexivity.
  - induction stream as [|c rest IH]; [reflexivity|].
    simpl. rewrite IH. reflexivity.
Qed.

Lemma idle_configuration_disables_obfuscation_witness :
  Obfuscator.loadReplacements
    (Some [ {| Obfuscator.active := Some false; Obfuscator.res_obfs := Some true;
               Obfuscator.rule := Some [("x", "y")] |};
            {| Obfuscator.active := None; Obfuscator.res_obfs := None;
               Obfuscator.rule := None |} ])
  = {| Obfuscator.requestReplacements := [];
       Obfuscator.responseReplacements := [] |}.
Proof.
  apply (@idle_configuration_disables_obfuscation
           (Some [ {| Obfuscator.active := Some false; Obfuscator.res_obfs := Some true;
                      Obfuscator.rule := Some [("x", "y")] |};
                   {| Obfuscator.active := None; Obfuscator.res_obfs := None;
                      Obfuscator.rule := None |} ])).
  intros rules H. injection H as <-.
  constructor; [left; reflexivity|].
  constructor; [right; reflexivity | constructor].
Defined.

Lemma In_forward_writes (rules : list Obfuscator.ruleObj) (p r : string) :
  In (p, r) (RuleCompiler.forward_writes rules) <->
  exists ro entries,
    In ro rules /\ Obfuscator.is_active ro = true
    /\ Obfuscator.rule ro = Some entries /\ In (p, r) entries.
Proof.
  induction rules as [|x rules IH]; simpl.
  - split; [tauto | intros (ro & entries & [] & _)].
  - split.
    + intros H.
      destruct (Obfuscator.is_active x) eqn:Ha;
        [destruct (Obfuscator.rule x) as [es|] eqn:Hr|].
      * apply in_app_or in H. destruct H as [H | H].
        -- exists x, es. tauto.
        -- apply IH in H. destruct H as (ro & entries & H1 & H2).
           exists ro, entries. tauto.
      * apply IH in H. destruct H as (ro & entries & H1 & H2).
        exists ro, entries. tauto.
      * apply IH in H. destruct H as (ro & entries & H1 & H2).
        exists ro, entries. tauto.
    + intros (ro & entries & [-> | Hin] & Ha & Hr & He).
      * rewrite Ha, Hr. apply in_or_app. now left.
      * assert (H : In (p, r) (RuleCompiler.forward_writes rules))
          by (apply IH; exists ro, entries; tauto).
        destruct (Obfuscator.is_active x); [|exact H].
        destruct (Obfuscator.rule x); [|exact H].
        apply in_or_app. now right.
Qed.

Lemma In_reverse_writes (rules : list Obfuscator.ruleObj) (k v : string) :
  In (k, v) (RuleCompiler.reverse_writes rules) ->
  exists ro entries,
    In ro rules /\ Obfuscator.is_active ro = true
    /\ Obfuscator.is_res_obfs ro = true
    /\ Obfuscator.rule ro = Some entries /\ In (v, k) entries.
Proof.
  induction rules as [|x rules IH]; simpl; [tauto|].
  intros H.
  assert (Hrec : In (k, v) (RuleCompiler.reverse_writes rules) ->
                 exists ro entries,
                   (x = ro \/ In ro rules) /\ Obfuscator.is_active ro = true
                   /\ Obfuscator.is_res_obfs ro = true
                   /\ Obfuscator.rule ro = Some entries /\ In (v, k) entries).
  { intros H'. destruct (IH H') as (ro & entries & H1 & H2).
    exists ro, entries. tauto. }
  destruct (Obfuscator.is_active x) eqn:Ha;
    destruct (Obfuscator.is_res_obfs x) eqn:Hs; simpl in H; try (apply Hrec; exact H).
  destruct (Obfuscator.rule x) as [es|] eqn:Hr; [|apply Hrec; exact H].
  apply in_app_or in H. destruct H as [H | H]; [|apply Hrec; exact H].
  apply (proj1 (In_swap_entries _ _ _)) in H. exists x, es. intuition auto.
Qed.

(** X6: every entry replacement -> pattern of the reverse dictionary comes
    from a rule that is active and has [res-obfs] set and that holds
    pattern -> replacement; and unless the pattern is [__proto__], the
    forward dictionary has an entry for that pattern: nothing is
    de-obfuscated that is not obfuscated. *)
Theorem reverse_entries_have_forward_rules
  (rules : list Obfuscator.ruleObj) (replacement pattern : string)
  (Hin : In (replacement, pattern)
           (Obfuscator.responseReplacements (Obfuscator.loadReplacements (Some rules)))) :
  (exists ro entries,
      In ro rules /\ Obfuscator.is_active ro = true
      /\ Obfuscator.is_res_obfs ro = true
      /\ Obfuscator.rule ro = Some entries /\ In (pattern, replacement) entries)
  /\ (pattern <> "__proto__" ->
      JsObject.lookup pattern
        (Obfuscator.requestReplacements (Obfuscator.loadReplacements (Some rules)))
      <> None).
Proof.
  simpl in Hin. rewrite build_response_writes in Hin.
  apply In_assign_all in Hin. destruct Hin as [Hin | []].
  apply In_reverse_writes in Hin.
  destruct Hin as (ro & entries & H1 & H2 & H3 & H4 & H5).
  split; [exists ro, entries; tauto|].
  intros Hp. simpl. rewrite build_request_writes.
  rewrite (lookup_assign_all Hp).
  assert (Hw : In (pattern, replacement) (RuleCompiler.forward_writes rules))
    by (apply In_forward_writes; exists ro, entries; tauto).
  destruct (last_write_some _ _ _ Hw) as [w ->]. discriminate.
Qed.

Lemma reverse_entries_have_forward_rules_witness :
  JsObject.lookup "y"
    (Obfuscator.requestReplacements
       (Obfuscator.loadReplacements (Some Fixtures.chain_rules))) <> None.
Proof.
  apply (@reverse_entries_have_forward_rules Fixtures.chain_rules "z" "y").
  - right. left. reflexivity.
  - discriminate.
Defined.

(** ** Revision with the [res-obfuscation] switch: the reverse dictionary *)

(** X7: the reverse dictionary built by [loadReplacements] maps a value of
    the replacement file back to its key, when no other key has that value
    and the value is not [__proto__]; in general it maps a value to the
    last key that has it. *)
Theorem gated_reverse_lookup (parsed : JsObject.t string) (k v : string)
  (Hin : In (k, v) parsed)
  (Hv : v <> "__proto__") :
  fst (GatedObfuscator.loadReplacements (Some parsed)) = parsed
  /\ JsObject.lookup v (snd (GatedObfuscator.loadReplacements (Some parsed)))
     = RuleCompiler.last_write v (Obfuscator.swap_entries parsed)
  /\ ((forall k', In (k', v) parsed -> k' = k) ->
      JsObject.lookup v (snd (GatedObfuscator.loadReplacements (Some parsed)))
      = Some k).
Proof.
  cbn [GatedObfuscator.loadReplacements fst snd].
  assert (Hl : JsObject.lookup v
                 (JsObject.assign_all (Obfuscator.swap_entries parsed) [])
               = RuleCompiler.last_write v (Obfuscator.swap_entries parsed)).
  { rewrite (lookup_assign_all Hv). simpl.
    destruct (RuleCompiler.last_write v _); reflexivity. }
  split; [reflexivity|]. split; [exact Hl|].
  intros Hinj. rewrite Hl.
  assert (Hsw : In (v, k) (Obfuscator.swap_entries parsed))
    by (apply In_swap_entries; exact Hin).
  destruct (last_write_some _ _ _ Hsw) as [w Hw]. rewrite Hw. f_equal.
  apply Hinj. apply In_swap_entries. apply last_write_In. exact Hw.
Qed.

Lemma gated_reverse_lookup_witness :
  JsObject.lookup "public_key"
    (snd (GatedObfuscator.loadReplacements
            (Some [("secret_key", "public_key"); ("internal_name", "external_name")])))
  = Some "secret_key".
Proof.
  apply (@gated_reverse_lookup
           [("secret_key", "public_key"); ("internal_name", "external_name")]
           "secret_key" "public_key").
  - left. reflexivity.
  - discriminate.
  - intros k' [H | [H | []]]; inversion H; reflexivity.
Defined.

Section WritesWithUnitValues.

Variable writes : list (string * string).

Hypothesis Hunit : RoundTrip.unit_replacements writes.
Hypothesis Hinv : RoundTrip.replacements_invertible writes.
Hypothesis Hfresh : RoundTrip.units_fresh_in_patterns writes.

Lemma swapped_entries_written k v :
  In (k, v) (JsObject.assign_all (Obfuscator.swap_entries writes) []) ->
  In (v, k) writes.
Proof.
  intros H. apply In_assign_all in H. destruct H as [H | []].
  apply In_swap_entries. exact H.
Qed.

Lemma swapped_lookup_written p c :
  In (p, String c "") writes ->
  JsObject.lookup (String c "")
    (JsObject.assign_all (Obfuscator.swap_entries writes) []) = Some p.
Proof.
  intros Hin. rewrite lookup_assign_all by discriminate.
  assert (Hsw : In (String c "", p) (Obfuscator.swap_entries writes))
    by (apply In_swap_entries; exact Hin).
  destruct (last_write_some _ _ _ Hsw) as [w Hw]. rewrite Hw.
  apply last_write_In in Hw. apply (proj1 (In_swap_entries _ _ _)) in Hw.
  f_equal. apply (Hinv _ _ _ Hw Hin).
Qed.

Lemma swapped_lookup_fresh e s :
  (forall p c, In (p, String c "") writes -> JsString.mem c s = false) ->
  JsString.mem e s = true ->
  JsObject.lookup (String e "")
    (JsObject.assign_all (Obfuscator.swap_entries writes) []) = None.
Proof.
  intros Hs He.
  destruct (JsObject.lookup _ _) as [v|] eqn:Hl; [|reflexivity].
  apply lookup_In, swapped_entries_written in Hl.
  rewrite (Hs v e Hl) in He. discriminate He.
Qed.

Lemma swapped_apply_units s :
  apply_entries (JsObject.assign_all (Obfuscator.swap_entries writes) []) s
  = JsString.subst_units
      (RoundTrip.unit_image
         (JsObject.assign_all (Obfuscator.swap_entries writes) [])) s.
Proof.
  apply apply_entries_units.
  - intros k v Hin. apply swapped_entries_written in Hin. apply (Hunit _ _ Hin).
  - intros k v c v' H1 H2. apply swapped_entries_written in H1, H2.
    apply (Hfresh _ _ _ _ H2 H1).
Qed.

Lemma swapped_string_round_trip s :
  (forall p c, In (p, String c "") writes -> JsString.mem c s = false) ->
  apply_entries (JsObject.assign_all (Obfuscator.swap_entries writes) [])
    (apply_entries writes s) = s.
Proof.
  intros Hs. rewrite swapped_apply_units.
  rewrite apply_entries_absorbed.
  - apply subst_units_fixed. intros e He. unfold RoundTrip.unit_image.
    rewrite (@swapped_lookup_fresh e s Hs He). reflexivity.
  - intros p r Hin. destruct (Hunit _ _ Hin) as [c ->].
    exists c. split; [reflexivity|]. apply swapped_lookup_written. exact Hin.
  - intros p r e Hin He. apply (@swapped_lookup_fresh e p); [|exact He].
    intros p' c Hin'. apply (Hfresh _ _ _ _ Hin' Hin).
Qed.

End WritesWithUnitValues.

(** X8: in the revision with the switch, with [res-obfuscation] on and a
    replacement file whose values are single code units, each standing for
    one key only and occurring in no key, de-obfuscating the obfuscated
    tree gives the tree back, for every well-formed tree without
    replacement units in its strings. *)
Theorem gated_round_trip (parsed : JsObject.t string) (x : value)
  (Hunit : RoundTrip.unit_replacements parsed)
  (Hinv : RoundTrip.replacements_invertible parsed)
  (Hfresh : RoundTrip.units_fresh_in_patterns parsed)
  (Hx : RoundTrip.units_fresh_in_tree parsed x)
  (Hwf : tree_well_formed x) :
  let st := GatedObfuscator.init (Some (Some true)) (Some parsed) in
  GatedObfuscator.deobfuscateResponseBody st
    (GatedObfuscator.obfuscateRequestBody st x) = x.
Proof.
  intros st.
  set (rev := JsObject.assign_all (Obfuscator.swap_entries parsed) []).
  assert (Hf : GatedObfuscator.replacements st = parsed) by reflexivity.
  assert (Hr : GatedObfuscator.reverseReplacements st = rev) by reflexivity.
  assert (Hflag : GatedObfuscator.res_obfuscation st = true) by reflexivity.
  clearbody st.
  set (Q := fun c => exists p, In (p, String c "") parsed).
  set (P := fun s => forall c, Q c -> JsString.mem c s = false).
  assert (Hall : RoundTrip.strings_all P x).
  { apply tree_mentions_strings_all. intros c [p Hp]. apply (Hx p c Hp). }
  assert (Hstr : forall s, P s ->
             GatedObfuscator.deobfuscateString st
               (GatedObfuscator.obfuscateString st s) = s).
  { intros s Hs.
    assert (Hs' : forall p c, In (p, String c "") parsed -> JsString.mem c s = false)
      by (intros p c Hin; apply Hs; now exists p).
    unfold GatedObfuscator.deobfuscateString, GatedObfuscator.obfuscateString.
    rewrite Hf, Hr.
    destruct (String.eqb s "") eqn:E; [rewrite E; reflexivity|].
    pose proof (@swapped_string_round_trip parsed Hunit Hinv Hfresh s Hs') as Hrt.
    fold rev in Hrt.
    destruct (String.eqb (apply_entries parsed s) "") eqn:E'; [|exact Hrt].
    apply String.eqb_eq in E'. rewrite E' in Hrt |- *.
    rewrite <- Hrt. symmetry. unfold rev.
    rewrite (@swapped_apply_units parsed Hunit Hfresh). reflexivity. }
  unfold GatedObfuscator.obfuscateRequestBody, GatedObfuscator.deobfuscateResponseBody.
  rewrite Hf, Hr, Hflag. cbn [negb].
  destruct (List.length parsed =? 0)%nat eqn:E1.
  - apply Nat.eqb_eq, length_zero_iff_nil in E1.
    unfold rev. rewrite E1. reflexivity.
  - destruct (List.length rev =? 0)%nat eqn:E2.
    + exfalso. apply Nat.eqb_eq, length_zero_iff_nil in E2.
      assert (Hex : exists p r, In (p, r) parsed).
      { clear - E1. destruct parsed as [|[p r] rest]; [discriminate E1|].
        exists p, r. now left. }
      destruct Hex as (p & r & Hin).
      destruct (Hunit _ _ Hin) as [c ->].
      pose proof (@swapped_lookup_written parsed Hinv p c Hin) as Hl.
      fold rev in Hl. rewrite E2 in Hl. discriminate Hl.
    + apply (@processObject_round_trip _ _ P); assumption.
Qed.

Lemma gated_round_trip_witness :
  GatedObfuscator.deobfuscateResponseBody
    (GatedObfuscator.init (Some (Some true))
       (Some [("secret_key", "#"); ("internal_name", "%")]))
    (GatedObfuscator.obfuscateRequestBody
       (GatedObfuscator.init (Some (Some true))
          (Some [("secret_key", "#"); ("internal_name", "%")]))
       Fixtures.marker_input)
  = Fixtures.marker_input.
Proof.
  apply (@gated_round_trip [("secret_key", "#"); ("internal_name", "%")]
           Fixtures.marker_input).
  - intros p r [H | [H | []]]; inversion H; subst; eexists; reflexivity.
  - intros p p' r [H | [H | []]] [H' | [H' | []]];
      inversion H; subst; inversion H'; subst; reflexivity.
  - intros p c p' r [H | [H | []]] [H' | [H' | []]];
      inversion H; subst; inversion H'; subst; reflexivity.
  - intros p c [H | [H | []]]; inversion H; subst; reflexivity.
  - vm_compute. tauto.
Defined.

(** ** Proxy pool router: order of attempts, fairness and liveness *)

Section RotationProperties.

Variable agent : Type.
Variable HttpsProxyAgent : string -> option agent.

Lemma entry_works_not_fails (entry : value) :
  Rotation.entry_works HttpsProxyAgent entry ->
  ~ ProxyManager.entry_fails HttpsProxyAgent entry.
Proof.
  intros (u & a & Hu & Ha) Hf.
  rewrite (Hf u Hu) in Ha. discriminate Ha.
Qed.

(** The loop tries consecutive indices, and has seen every entry before the
    last one tried fail. *)
Lemma attempts_in_order (proxies : ProxyManager.pool) start attempt remaining :
  0 < List.length proxies ->
  let r := ProxyManager.attempts HttpsProxyAgent proxies start attempt remaining in
  snd r = Rotation.cycle (List.length proxies) start attempt (List.length (snd r))
  /\ (forall i e,
        In i (match fst r with Some _ => removelast (snd r) | None => snd r end) ->
        nth_error proxies i = Some e ->
        ProxyManager.entry_fails HttpsProxyAgent e)
  /\ (fst r = None -> List.length (snd r) = remaining).
Proof.
  intros Hn. revert attempt.
  induction remaining as [|k IH]; intros attempt.
  - simpl. repeat split; intros; tauto.
  - cbv zeta. rewrite attempts_step. cbv zeta.
    specialize (IH (attempt + 1)). cbv zeta in IH.
    set (i := (start + attempt) mod List.length proxies) in *.
    set (rest := ProxyManager.attempts HttpsProxyAgent proxies start (attempt + 1) k) in *.
    destruct IH as (IH1 & IH2 & IH3).
    assert (Hskip : forall entry,
               nth_error proxies i = Some entry ->
               ProxyManager.entry_fails HttpsProxyAgent entry ->
               (i :: snd rest
                = Rotation.cycle (List.length proxies) start attempt
                    (List.length (i :: snd rest)))
               /\ (forall j e,
                     In j (match fst rest with
                           | Some _ => removelast (i :: snd rest)
                           | None => i :: snd rest
                           end) ->
                     nth_error proxies j = Some e ->
                     ProxyManager.entry_fails HttpsProxyAgent e)
               /\ (fst rest = None -> List.length (i :: snd rest) = S k)).
    { intros entry Hnth Hfail. split; [|split].
      - unfold Rotation.cycle in *. cbn [List.length seq map]. f_equal.
        replace (S attempt) with (attempt + 1) by lia. exact IH1.
      - intros j e Hin Hj.
        assert (Hcase : j = i \/ In j (match fst rest with
                                       | Some _ => removelast (snd rest)
                                       | None => snd rest
                                       end)).
        { destruct (fst rest) eqn:Hf.
          - destruct (snd rest) as [|y l] eqn:Hs.
            + simpl in Hin. tauto.
            + cbn [removelast] in Hin. destruct Hin as [<- | Hin]; [now left|].
              right. exact Hin.
          - destruct Hin as [<- | Hin]; [now left | now right]. }
        destruct Hcase as [-> | Hin'].
        + rewrite Hnth in Hj. injection Hj as <-. exact Hfail.
        + apply (IH2 j e Hin' Hj).
      - intros Hf. cbn [List.length]. f_equal. apply IH3. exact Hf. }
    assert (Hi : i < List.length proxies) by (apply Nat.mod_upper_bound; lia).
    destruct (nth_error proxies i) as [q|] eqn:Hnth.
    + destruct (ProxyManager.usable_url q) as [u|] eqn:Hu.
      * destruct (HttpsProxyAgent u) as [a|] eqn:Ha.
        -- cbn [fst snd removelast List.length]. split; [|split].
           ++ unfold Rotation.cycle. simpl. reflexivity.
           ++ intros j e [].
           ++ discriminate.
        -- apply (Hskip q eq_refl). intros u' Hu'.
           rewrite Hu in Hu'. injection Hu' as <-. exact Ha.
      * apply (Hskip q eq_refl). intros u' Hu'.
        rewrite Hu in Hu'. discriminate Hu'.
    + apply nth_error_None in Hnth. lia.
Qed.

(** X10: a call on a non-empty pool tries the indices start, start + 1, ...
    in order, wrapping around, where start is the cursor when the
    [JSON.stringify] text of the pool is the snapshot seen last, and 0
    otherwise; every entry tried before the one returned fails, so the
    entry returned is the first working one in that order; and when the
    call returns none the cursor stays at start. *)
Theorem failover_takes_first_working_entry
  (st : ProxyManager.state) (proxies : ProxyManager.pool)
  (Hne : proxies <> []) :
  let o := ProxyManager.getNextProxyAgent HttpsProxyAgent st (Some proxies) in
  exists start,
    Rotation.start_index st proxies start
    /\ ProxyManager.tried o
       = Rotation.cycle (List.length proxies) start 0 (List.length (ProxyManager.tried o))
    /\ (forall i e,
          In i (match ProxyManager.returned o with
                | Some _ => removelast (ProxyManager.tried o)
                | None => ProxyManager.tried o
                end) ->
          nth_error proxies i = Some e ->
          ProxyManager.entry_fails HttpsProxyAgent e)
    /\ (ProxyManager.returned o = None ->
        List.length (ProxyManager.tried o) = List.length proxies
        /\ ProxyManager.proxyIndex (ProxyManager.next_state o) = start).
Proof.
  intros o. subst o.
  assert (Hlen : 0 < List.length proxies).
  { destruct proxies; [congruence | simpl; lia]. }
  destruct (call_unfold HttpsProxyAgent st Hne) as (start & Hstart & ->).
  exists start. split; [exact Hstart|].
  pose proof (@attempts_in_order proxies start 0 (List.length proxies) Hlen) as H.
  cbv zeta in H. destruct H as (H1 & H2 & H3).
  destruct (ProxyManager.attempts HttpsProxyAgent proxies start 0 (List.length proxies))
    as [[[[index a] p]|] seen];
    cbn [fst snd ProxyManager.tried ProxyManager.returned ProxyManager.next_state
         ProxyManager.proxyIndex] in *.
  - repeat split; try assumption; discriminate.
  - repeat split; try assumption; try (apply H3; reflexivity).
Qed.

Lemma cycle_covers (n start i : nat) :
  i < n -> In i (Rotation.cycle n start 0 n).
Proof.
  intros Hi. unfold Rotation.cycle. apply in_map_iff.
  exists ((i + (n - start mod n)) mod n). split.
  - pose proof (Nat.mod_upper_bound start n ltac:(lia)) as Hs.
    rewrite Nat.Div0.add_mod_idemp_r.
    rewrite <- Nat.Div0.add_mod_idemp_l.
    replace (start mod n + (i + (n - start mod n))) with (i + 1 * n) by lia.
    rewrite Nat.Div0.mod_add. apply Nat.mod_small. exact Hi.
  - apply in_seq. split; [lia|]. simpl. apply Nat.mod_upper_bound. lia.
Qed.

(** X11: a call returns none only when every entry of the pool fails: if
    some entry has a usable URL and a constructible connector, the call
    returns a connector. *)
Theorem working_entry_is_found
  (st : ProxyManager.state) (proxies : ProxyManager.pool) (i : nat)
  (entry : value)
  (Hnth : nth_error proxies i = Some entry)
  (Hworks : Rotation.entry_works HttpsProxyAgent entry) :
  ProxyManager.returned
    (ProxyManager.getNextProxyAgent HttpsProxyAgent st (Some proxies)) <> None.
Proof.
  intros Hnone.
  assert (Hne : proxies <> []) by (intros ->; destruct i; discriminate Hnth).
  assert (Hlen : 0 < List.length proxies).
  { destruct proxies; [congruence | simpl; lia]. }
  destruct (call_unfold HttpsProxyAgent st Hne) as (start & _ & Hcall).
  rewrite Hcall in Hnone.
  pose proof (@attempts_in_order proxies start 0 (List.length proxies) Hlen) as H.
  cbv zeta in H. destruct H as (Htried & Hfail & Hall).
  destruct (ProxyManager.attempts HttpsProxyAgent proxies start 0 (List.length proxies))
    as [[[[index a] p]|] seen]; [discriminate Hnone|].
  cbn [fst snd] in *. rewrite (Hall eq_refl) in Htried.
  apply (entry_works_not_fails Hworks).
  apply (Hfail i entry); [|exact Hnth].
  rewrite Htried. apply cycle_covers.
  apply nth_error_Some. congruence.
Qed.

Lemma start_index_unique st proxies a b :
  Rotation.start_index st proxies a -> Rotation.start_index st proxies b -> a = b.
Proof.
  unfold Rotation.start_index.
  intros [[H1 ->] | [H1 ->]] [[H2 ->] | [H2 ->]]; congruence.
Qed.

Lemma call_on_working_pool
  (st : ProxyManager.state) (proxies : ProxyManager.pool) (start : nat) :
  proxies <> [] ->
  Forall (Rotation.entry_works HttpsProxyAgent) proxies ->
  Rotation.start_index st proxies start ->
  let o := ProxyManager.getNextProxyAgent HttpsProxyAgent st (Some proxies) in
  Rotation.returned_entry o = nth_error proxies (start mod List.length proxies)
  /\ ProxyManager.tried o = [start mod List.length proxies]
  /\ ProxyManager.next_state o
     = {| ProxyManager.proxyIndex :=
            (start mod List.length proxies + 1) mod List.length proxies;
          ProxyManager.lastSnapshot := ProxyManager.snapshotConfigs proxies |}.
Proof.
  intros Hne Hall Hstart o. subst o.
  assert (Hlen : 0 < List.length proxies).
  { destruct proxies; [congruence | simpl; lia]. }
  destruct (call_unfold HttpsProxyAgent st Hne) as (start' & Hstart' & ->).
  rewrite (start_index_unique Hstart' Hstart).
  destruct (List.length proxies) as [|n] eqn:Hn; [lia|].
  rewrite attempts_step. cbv zeta. rewrite Hn, Nat.add_0_r.
  set (i := start mod S n).
  assert (Hi : i < List.length proxies)
    by (rewrite Hn; apply Nat.mod_upper_bound; lia).
  destruct (nth_error proxies i) as [entry|] eqn:Hnth;
    [|apply nth_error_None in Hnth; lia].
  rewrite Forall_forall in Hall.
  destruct (Hall entry (nth_error_In _ _ Hnth)) as (u & a & Hu & Ha).
  rewrite Hu, Ha. repeat split.
Qed.

(** X9: while every entry of the pool works and the configuration hands
    out the same pool, consecutive calls return the entries in pool order,
    one after the other and wrapping around: the j-th call returns the
    entry at index (start + j) mod n, where start is the index at which
    the first call starts, the cursor when the [JSON.stringify] text of
    the pool is the snapshot seen last, and 0 otherwise. *)
Theorem round_robin_over_working_pool
  (k : nat) (st : ProxyManager.state) (proxies : ProxyManager.pool) (start : nat)
  (Hne : proxies <> [])
  (Hall : Forall (Rotation.entry_works HttpsProxyAgent) proxies)
  (Hstart : Rotation.start_index st proxies start) :
  map (@Rotation.returned_entry agent) (Rotation.run_calls HttpsProxyAgent k st proxies)
  = map (fun j => nth_error proxies ((start + j) mod List.length proxies)) (seq 0 k).
Proof.
  revert st start Hstart. induction k as [|k IH]; intros st start Hstart;
    [reflexivity|].
  cbn [Rotation.run_calls map seq].
  destruct (@call_on_working_pool st proxies start Hne Hall Hstart)
    as (Hret & _ & Hnext).
  rewrite Hret, Nat.add_0_r. f_equal.
  rewrite Hnext.
  rewrite (IH _ ((start mod List.length proxies + 1) mod List.length proxies)).
  - rewrite <- seq_shift, map_map. apply map_ext. intros j. f_equal.
    rewrite Nat.Div0.add_mod_idemp_l.
    rewrite <- Nat.add_assoc, Nat.Div0.add_mod_idemp_l.
    f_equal; lia.
  - left. split; reflexivity.
Qed.

End RotationProperties.

Lemma failover_takes_first_working_entry_witness :
  exists start,
    Rotation.start_index ProxyManager.initial
      [Fixtures.proxy_A; VNull; Fixtures.proxy_C] start
    /\ ProxyManager.tried
         (ProxyManager.getNextProxyAgent Fixtures.sample_agent ProxyManager.initial
            (Some [Fixtures.proxy_A; VNull; Fixtures.proxy_C]))
       = Rotation.cycle 3 start 0
           (List.length
              (ProxyManager.tried
                 (ProxyManager.getNextProxyAgent Fixtures.sample_agent
                    ProxyManager.initial
                    (Some [Fixtures.proxy_A; VNull; Fixtures.proxy_C])))).
Proof.
  destruct (@failover_takes_first_working_entry string Fixtures.sample_agent
              ProxyManager.initial
              [Fixtures.proxy_A; VNull; Fixtures.proxy_C]
              ltac:(discriminate))
    as (start & H1 & H2 & _).
  exists start. split; assumption.
Defined.

Lemma working_entry_is_found_witness :
  ProxyManager.returned
    (ProxyManager.getNextProxyAgent Fixtures.sample_agent ProxyManager.initial
       (Some [Fixtures.proxy_A; VNull; Fixtures.proxy_C])) <> None.
Proof.
  apply (@working_entry_is_found string Fixtures.sample_agent ProxyManager.initial
           [Fixtures.proxy_A; VNull; Fixtures.proxy_C] 2
           Fixtures.proxy_C).
  - reflexivity.
  - exists "http://c.example:8080", "http://c.example:8080".
    repeat split.
Defined.

Lemma round_robin_over_working_pool_witness :
  map (@Rotation.returned_entry string)
    (Rotation.run_calls Fixtures.sample_agent 5 ProxyManager.initial
       [Fixtures.proxy_B; Fixtures.proxy_C])
  = [Some Fixtures.proxy_B; Some Fixtures.proxy_C;
     Some Fixtures.proxy_B; Some Fixtures.proxy_C;
     Some Fixtures.proxy_B].
Proof.
  apply (@round_robin_over_working_pool string Fixtures.sample_agent 5
           ProxyManager.initial [Fixtures.proxy_B; Fixtures.proxy_C] 0).
  - discriminate.
  - repeat constructor.
    + exists "http://b.example:8080", "http://b.example:8080".
      repeat split.
    + exists "http://c.example:8080", "http://c.example:8080".
      repeat split.
  - right. split; [discriminate | reflexivity].
Defined.

(** ** Error tracker: retention and queries *)

Section TrackerQueries.

Variable parseInt : ErrorTracker.timeRange -> option Z.

Lemma filter_filter_weaker {A} (f g : A -> bool) (l : list A) :
  (forall x, g x = true -> f x = true) ->
  filter g (filter f l) = filter g l.
Proof.
  intros H. induction l as [|x l IH]; simpl; [reflexivity|].
  destruct (f x) eqn:Hf; simpl.
  - rewrite IH. reflexivity.
  - destruct (g x) eqn:Hg; [|exact IH].
    rewrite (H x Hg) in Hf. discriminate Hf.
Qed.

Lemma day_cutoff_within_retention now range cutoff :
  ErrorTracker.in_hours range = false ->
  ErrorTracker.cutoffTime parseInt now range = Some cutoff ->
  (now - ErrorTracker.RETENTION_MS <= cutoff <= now - 24 * 60 * 60 * 1000)%Z.
Proof.
  unfold ErrorTracker.cutoffTime. intros ->.
  destruct (parseInt range) as [n|]; [|discriminate].
  intros H. injection H as <-.
  unfold ErrorTracker.RETENTION_MS, ErrorTracker.RETENTION_DAYS. lia.
Qed.

(** X12: cleaning up never changes the answer to a query by days made at
    the same time: the window of such a query is clamped to the retention
    period, so [get401Records] returns the same records before and after
    [cleanupOldRecords]. *)
Theorem cleanup_invisible_to_day_queries
  (now : Z) (range : ErrorTracker.timeRange) (records : list ErrorTracker.record)
  (Hdays : ErrorTracker.in_hours range = false) :
  ErrorTracker.get401Records parseInt now range
    (ErrorTracker.cleanupOldRecords now records)
  = ErrorTracker.get401Records parseInt now range records.
Proof.
  unfold ErrorTracker.get401Records.
  destruct (ErrorTracker.cutoffTime parseInt now range) as [cutoff|] eqn:Hc;
    [|reflexivity].
  pose proof (day_cutoff_within_retention now range Hdays Hc) as Hb.
  unfold ErrorTracker.cleanupOldRecords. apply filter_filter_weaker.
  intros r Hr. apply Z.leb_le in Hr. apply Z.leb_le. lia.
Qed.

(** X13: a record logged at most 24 hours before a query by days is
    returned by it, whatever number of days is asked for (zero and
    negative numbers count as one day), provided the number parses and
    the record has not been cleaned up since. *)
Theorem recent_record_is_returned
  (t now : Z) (nowISO : string) (info : ErrorTracker.errorInfo)
  (range : ErrorTracker.timeRange) (n : Z)
  (before later : list ErrorTracker.record)
  (Hdays : ErrorTracker.in_hours range = false)
  (Hparse : parseInt range = Some n)
  (Hrecent : (now - 24 * 60 * 60 * 1000 <= t)%Z) :
  exists r,
    In r (ErrorTracker.get401Records parseInt now range
            (ErrorTracker.record401Error t nowISO info before ++ later))
    /\ ErrorTracker.timestamp r = t
    /\ ErrorTracker.endpoint r
       = ErrorTracker.or_else (ErrorTracker.info_endpoint info) "unknown".
Proof.
  exists {| ErrorTracker.timestamp := t;
            ErrorTracker.timestampISO := nowISO;
            ErrorTracker.endpoint :=
              ErrorTracker.or_else (ErrorTracker.info_endpoint info) "unknown";
            ErrorTracker.method :=
              ErrorTracker.or_else (ErrorTracker.info_method info) "POST";
            ErrorTracker.modelId :=
              ErrorTracker.or_else (ErrorTracker.info_modelId info) "unknown";
            ErrorTracker.modelType :=
              ErrorTracker.or_else (ErrorTracker.info_modelType info) "unknown";
            ErrorTracker.errorDetails :=
              ErrorTracker.or_else (ErrorTracker.info_errorDetails info) "" |}.
  split; [|split; reflexivity].
  unfold ErrorTracker.get401Records.
  destruct (ErrorTracker.cutoffTime parseInt now range) as [cutoff|] eqn:Hc.
  - pose proof (day_cutoff_within_retention now range Hdays Hc) as Hb.
    apply filter_In. split.
    + unfold ErrorTracker.record401Error.
      apply in_or_app. left. apply in_or_app. right. left. reflexivity.
    + cbn [ErrorTracker.timestamp]. apply Z.leb_le. lia.
  - unfold ErrorTracker.cutoffTime in Hc. rewrite Hdays, Hparse in Hc.
    discriminate Hc.
Qed.

End TrackerQueries.

Lemma cleanup_invisible_to_day_queries_witness :
  ErrorTracker.get401Records TrackerFixtures.sample_parseInt 1701400000000
    (ErrorTracker.RangeText "30")
    (ErrorTracker.cleanupOldRecords 1701400000000 TrackerFixtures.sample_records)
  = ErrorTracker.get401Records TrackerFixtures.sample_parseInt 1701400000000
      (ErrorTracker.RangeText "30") TrackerFixtures.sample_records.
Proof.
  apply (@cleanup_invisible_to_day_queries TrackerFixtures.sample_parseInt
           1701400000000 (ErrorTracker.RangeText "30") TrackerFixtures.sample_records).
  reflexivity.
Defined.

Lemma recent_record_is_returned_witness :
  exists r,
    In r (ErrorTracker.get401Records TrackerFixtures.sample_parseInt 1700000500000
            (ErrorTracker.RangeNumber 0)
            (ErrorTracker.record401Error 1700000000000 "2023-11-14T22:13:20.000Z"
               TrackerFixtures.sample_info [] ++ []))
    /\ ErrorTracker.timestamp r = 1700000000000%Z
    /\ ErrorTracker.endpoint r = "/v1/messages".
Proof.
  apply (@recent_record_is_returned TrackerFixtures.sample_parseInt
           1700000000000 1700000500000 "2023-11-14T22:13:20.000Z"
           TrackerFixtures.sample_info (ErrorTracker.RangeNumber 0) 0 [] []).
  - reflexivity.
  - reflexivity.
  - vm_compute. discriminate.
Defined.

(** ** Error tracker: stored records *)

Lemma or_else_nonempty (v : option string) (fallback : string) :
  fallback <> "" -> ErrorTracker.or_else v fallback <> "".
Proof.
  intros Hf. unfold ErrorTracker.or_else. destruct v as [s|]; [|exact Hf].
  destruct (String.eqb s "") eqn:E; [exact Hf|].
  apply String.eqb_neq. exact E.
Qed.

Lemma after_snoc (actions : list ErrorTracker.action) (a : ErrorTracker.action) :
  ErrorTracker.after (actions ++ [a])
  = ErrorTracker.perform a (ErrorTracker.after actions).
Proof. unfold ErrorTracker.after. rewrite fold_left_app. reflexivity. Qed.

(** X15: whatever is recorded and whenever the list is cleaned up, every
    stored record names an endpoint, a method, a model and a model type:
    none of these fields is ever the empty string. *)
Theorem stored_records_are_complete (actions : list ErrorTracker.action) :
  Forall (fun r => ErrorTracker.endpoint r <> "" /\ ErrorTracker.method r <> ""
                   /\ ErrorTracker.modelId r <> "" /\ ErrorTracker.modelType r <> "")
         (ErrorTracker.after actions).
Proof.
  induction actions as [|a actions IH] using rev_ind; [constructor|].
  rewrite after_snoc. destruct a as [now nowISO info | now]; simpl.
  - unfold ErrorTracker.record401Error. apply Forall_app. split; [exact IH|].
    constructor; [|constructor]. cbn.
    repeat split; apply or_else_nonempty; discriminate.
  - unfold ErrorTracker.cleanupOldRecords. apply Forall_forall.
    intros r Hr. apply filter_In in Hr. rewrite Forall_forall in IH.
    apply IH. tauto.
Qed.

(** ** Error tracker: minutes of the Beijing day *)

(** X16: the minute of day computed by [toBeijingTimeMinute] is the number
    of whole minutes since midnight of the time shifted by eight hours; it
    lies in [0, 1440), so it is an index of the 1440-slot array of the
    distribution; the hour lies in [0, 24) and the minute in [0, 60). *)
Theorem minute_of_day_in_bounds
  (getUTCFullYear getUTCMonth getUTCDate : Z -> Z) (timestamp : Z) :
  let bm := BeijingTime.toBeijingTimeMinute
              getUTCFullYear getUTCMonth getUTCDate timestamp in
  (0 <= BeijingTime.minuteOfDay bm < 1440)%Z
  /\ BeijingTime.minuteOfDay bm = (((timestamp + 28800000) / 60000) mod 1440)%Z
  /\ (0 <= BeijingTime.hour bm < 24)%Z
  /\ (0 <= BeijingTime.minute bm < 60)%Z.
Proof.
  cbv zeta. unfold BeijingTime.toBeijingTimeMinute.
  cbn [BeijingTime.minuteOfDay BeijingTime.hour BeijingTime.minute].
  unfold BeijingTime.getUTCHours, BeijingTime.getUTCMinutes.
  replace (8 * 60 * 60 * 1000)%Z with 28800000%Z by reflexivity.
  set (t := (timestamp + 28800000)%Z).
  assert (Hq : (t / 3600000 = t / 60000 / 60)%Z).
  { rewrite Z.div_div by lia. reflexivity. }
  rewrite Hq. set (q := (t / 60000)%Z).
  assert (Hm : (q mod 1440 = q mod 60 + 60 * ((q / 60) mod 24))%Z).
  { replace 1440%Z with (60 * 24)%Z by reflexivity.
    apply Z.rem_mul_r; lia. }
  pose proof (Z.mod_pos_bound q 60 ltac:(lia)).
  pose proof (Z.mod_pos_bound (q / 60) 24 ltac:(lia)).
  repeat split; lia.
Qed.

(** ** Error tracker: the distribution counts every record once *)

Lemma mem_append (c : ascii) (a b : string) :
  JsString.mem c (a ++ b) = JsString.mem c a || JsString.mem c b.
Proof.
  induction a as [|d a IH]; simpl; [reflexivity|].
  rewrite IH. apply orb_assoc.
Qed.

Lemma lookup_none_has_key {V} (k : string) (o : JsObject.t V) :
  JsObject.lookup k o = None -> JsObject.has_key k o = false.
Proof.
  induction o as [|[k0 v0] o IH]; simpl; [reflexivity|].
  destruct (String.eqb k k0); [discriminate | exact IH].
Qed.

Lemma insert_index_perm {V} n (k : string) (v : V) (o : JsObject.t V) :
  Permutation (JsObject.insert_index n k v o) ((k, v) :: o).
Proof.
  induction o as [|[k0 v0] o IH]; simpl; [reflexivity|].
  destruct (JsObject.array_index k0) as [m|]; [destruct (m <? n)%N|];
    try reflexivity.
  rewrite IH. apply perm_swap.
Qed.

Lemma set_new_perm {V} (k : string) (v : V) (o : JsObject.t V) :
  k <> "__proto__" -> JsObject.has_key k o = false ->
  Permutation (JsObject.set k v o) ((k, v) :: o).
Proof.
  intros Hk Hnew. unfold JsObject.set.
  apply String.eqb_neq in Hk. rewrite Hk, Hnew.
  destruct (JsObject.array_index k).
  - apply insert_index_perm.
  - symmetry. apply Permutation_cons_append.
Qed.

Lemma total_perm (o o' : JsObject.t (list N)) :
  Permutation o o' -> BeijingTime.total o = BeijingTime.total o'.
Proof.
  induction 1 as [|x l l' _ IH|x y l|l l' l'' _ IH1 _ IH2]; simpl.
  - reflexivity.
  - rewrite IH. reflexivity.
  - lia.
  - congruence.
Qed.

Lemma total_overwrite (k : string) (v arr : list N) (o : JsObject.t (list N)) :
  JsObject.lookup k o = Some arr ->
  (BeijingTime.total (JsObject.overwrite k v o) + fold_right N.add 0 arr
   = BeijingTime.total o + fold_right N.add 0 v)%N.
Proof.
  induction o as [|[k0 v0] o IH]; simpl; [discriminate|].
  destruct (String.eqb k k0); simpl.
  - intros H. injection H as ->. lia.
  - intros H. specialize (IH H). lia.
Qed.

Lemma keys_overwrite {V} (k : string) (v : V) (o : JsObject.t V) :
  map fst (JsObject.overwrite k v o) = map fst o.
Proof.
  induction o as [|[k0 v0] o IH]; simpl; [reflexivity|].
  destruct (String.eqb k k0); simpl; [reflexivity | now rewrite IH].
Qed.

Lemma Forall_overwrite {V} (P : V -> Prop) (k : string) (v : V) (o : JsObject.t V) :
  P v -> Forall (fun kv => P (snd kv)) o ->
  Forall (fun kv => P (snd kv)) (JsObject.overwrite k v o).
Proof.
  intros Hv. induction 1 as [|[k0 v0] o H0 Ho IH]; simpl; [constructor|].
  destruct (String.eqb k k0); constructor; simpl; assumption.
Qed.

Lemma increment_at_spec (m : nat) (arr : list N) :
  m < List.length arr ->
  List.length (BeijingTime.increment_at m arr) = List.length arr
  /\ fold_right N.add 0%N (BeijingTime.increment_at m arr)
     = (fold_right N.add 0 arr + 1)%N.
Proof.
  revert m. induction arr as [|x arr IH]; intros m Hm; simpl in Hm; [lia|].
  destruct m as [|m]; simpl.
  - split; [reflexivity | lia].
  - destruct (IH m ltac:(lia)) as [H1 H2]. rewrite H1, H2. split; [reflexivity | lia].
Qed.

Lemma zeros_sum (n : nat) : fold_right N.add 0%N (repeat 0%N n) = 0%N.
Proof. induction n as [|n IH]; simpl; [reflexivity | exact IH]. Qed.

Lemma insert_sorted_perm (k : string) (l : list string) :
  Permutation (BeijingTime.insert_sorted k l) (k :: l).
Proof.
  induction l as [|x l IH]; simpl; [reflexivity|].
  destruct (String.leb k x); [reflexivity|].
  rewrite IH. apply perm_swap.
Qed.

Lemma sort_perm (l : list string) : Permutation (BeijingTime.sort l) l.
Proof.
  induction l as [|x l IH]; simpl; [reflexivity|].
  rewrite insert_sorted_perm, IH. reflexivity.
Qed.

Lemma insert_sorted_sorted (k : string) (l : list string) :
  Sorted (fun a b => String.leb a b = true) l ->
  Sorted (fun a b => String.leb a b = true) (BeijingTime.insert_sorted k l).
Proof.
  induction 1 as [|x l Hs IH Hhd]; simpl.
  - repeat constructor.
  - destruct (String.leb k x) eqn:E.
    + constructor; [constructor; assumption | constructor; exact E].
    + constructor; [exact IH|].
      assert (Hxk : String.leb x k = true)
        by (destruct (String.leb_total k x) as [H | H]; congruence).
      destruct l as [|y l]; simpl.
      * constructor. exact Hxk.
      * destruct (String.leb k y); constructor; [exact Hxk|].
        inversion Hhd; assumption.
Qed.

Lemma sort_sorted (l : list string) :
  Sorted (fun a b => String.leb a b = true) (BeijingTime.sort l).
Proof.
  induction l as [|x l IH]; simpl; [constructor|].
  apply insert_sorted_sorted. exact IH.
Qed.

Lemma has_key_false_not_in {V} (k : string) (o : JsObject.t V) :
  JsObject.has_key k o = false -> ~ In k (map fst o).
Proof.
  induction o as [|[k0 v0] o IH]; simpl; [tauto|].
  destruct (String.eqb k k0) eqn:E; simpl; [discriminate|].
  intros H [Heq | Hin]; [|exact (IH H Hin)].
  apply String.eqb_neq in E. congruence.
Qed.

Lemma sum_map_perm {A} (f : A -> N) (l l' : list A) :
  Permutation l l' ->
  fold_right N.add 0%N (map f l) = fold_right N.add 0%N (map f l').
Proof.
  induction 1 as [|x l l' _ IH|x y l|l l' l'' _ IH1 _ IH2]; simpl.
  - reflexivity.
  - rewrite IH. reflexivity.
  - lia.
  - congruence.
Qed.

Lemma total_by_keys (o : JsObject.t (list N)) :
  NoDup (map fst o) ->
  BeijingTime.total o
  = fold_right N.add 0%N
      (map (fun d => fold_right N.add 0%N
                       match JsObject.lookup d o with Some arr => arr | None => [] end)
           (map fst o)).
Proof.
  induction o as [|[k v] o IH]; simpl; [reflexivity|].
  intros Hnd. inversion Hnd as [|? ? Hk Hnd']; subst.
  rewrite String.eqb_refl. f_equal. rewrite (IH Hnd').
  f_equal. apply map_ext_in. intros d Hd.
  destruct (String.eqb d k) eqn:E; [|reflexivity].
  apply String.eqb_eq in E. subst d. contradiction.
Qed.

Lemma total_of_pairs (g : string -> list N) (l : list string) :
  BeijingTime.total (map (fun d => (d, g d)) l)
  = fold_right N.add 0%N (map (fun d => fold_right N.add 0%N (g d)) l).
Proof. induction l as [|d l IH]; simpl; [reflexivity | now rewrite IH]. Qed.

Section DistributionProperties.

Variable getUTCFullYear : Z -> Z.
Variable getUTCMonth : Z -> Z.
Variable getUTCDate : Z -> Z.
Variable parseInt : ErrorTracker.timeRange -> option Z.

Lemma beijing_date_not_proto (timestamp : Z) :
  BeijingTime.date
    (BeijingTime.toBeijingTimeMinute getUTCFullYear getUTCMonth getUTCDate timestamp)
  <> "__proto__".
Proof.
  intros H.
  assert (Hm : JsString.mem "-"
                 (BeijingTime.date
                    (BeijingTime.toBeijingTimeMinute
                       getUTCFullYear getUTCMonth getUTCDate timestamp)) = true).
  { unfold BeijingTime.toBeijingTimeMinute. cbn [BeijingTime.date].
    rewrite mem_append. simpl. apply orb_true_r. }
  rewrite H in Hm. discriminate Hm.
Qed.

Lemma beijing_minute_index (timestamp : Z) :
  Z.to_nat
    (BeijingTime.minuteOfDay
       (BeijingTime.toBeijingTimeMinute getUTCFullYear getUTCMonth getUTCDate timestamp))
  < 1440.
Proof.
  unfold BeijingTime.toBeijingTimeMinute. cbn [BeijingTime.minuteOfDay].
  unfold BeijingTime.getUTCHours, BeijingTime.getUTCMinutes.
  set (t := (timestamp + 8 * 60 * 60 * 1000)%Z).
  pose proof (Z.mod_pos_bound (t / 3600000) 24 ltac:(lia)).
  pose proof (Z.mod_pos_bound (t / 60000) 60 ltac:(lia)).
  lia.
Qed.

Lemma increment_keeps_ok (d : string) (m : nat) (arr : list N)
  (byDate : JsObject.t (list N)) :
  BeijingTime.byDate_ok byDate -> JsObject.lookup d byDate = Some arr -> m < 1440 ->
  BeijingTime.byDate_ok (JsObject.overwrite d (BeijingTime.increment_at m arr) byDate)
  /\ BeijingTime.total (JsObject.overwrite d (BeijingTime.increment_at m arr) byDate)
     = (BeijingTime.total byDate + 1)%N.
Proof.
  intros [Hnd Hlen] Hl Hm.
  assert (Harr : List.length arr = 1440).
  { rewrite Forall_forall in Hlen. apply (Hlen (d, arr)). apply lookup_In. exact Hl. }
  destruct (@increment_at_spec m arr ltac:(lia)) as [H1 H2].
  split; [split|].
  - rewrite keys_overwrite. exact Hnd.
  - apply (@Forall_overwrite _ (fun v => List.length v = 1440)); [lia | exact Hlen].
  - pose proof (@total_overwrite d (BeijingTime.increment_at m arr) arr byDate Hl) as Ht.
    rewrite H2 in Ht. lia.
Qed.

Lemma count_record_keeps_ok (byDate : JsObject.t (list N)) (r : ErrorTracker.record) :
  BeijingTime.byDate_ok byDate ->
  BeijingTime.byDate_ok (BeijingTime.count_record getUTCFullYear getUTCMonth getUTCDate byDate r)
  /\ BeijingTime.total
       (BeijingTime.count_record getUTCFullYear getUTCMonth getUTCDate byDate r)
     = (BeijingTime.total byDate + 1)%N.
Proof.
  intros Hok. unfold BeijingTime.count_record. cbv zeta.
  set (bm := BeijingTime.toBeijingTimeMinute
               getUTCFullYear getUTCMonth getUTCDate (ErrorTracker.timestamp r)).
  pose proof (beijing_minute_index (ErrorTracker.timestamp r)) as Hm. fold bm in Hm.
  pose proof (beijing_date_not_proto (ErrorTracker.timestamp r)) as Hd. fold bm in Hd.
  destruct (JsObject.lookup (BeijingTime.date bm) byDate) as [arr|] eqn:Hl.
  - rewrite Hl. apply increment_keeps_ok; assumption.
  - assert (Hnew : JsObject.has_key (BeijingTime.date bm) byDate = false)
      by (apply lookup_none_has_key; exact Hl).
    pose proof (@set_new_perm _ (BeijingTime.date bm) (repeat 0%N 1440) byDate Hd Hnew) as Hperm.
    assert (Hl1 : JsObject.lookup (BeijingTime.date bm)
                    (JsObject.set (BeijingTime.date bm) (repeat 0%N 1440) byDate)
                  = Some (repeat 0%N 1440)).
    { rewrite lookup_set. apply String.eqb_neq in Hd. rewrite Hd.
      rewrite String.eqb_refl. reflexivity. }
    rewrite Hl1.
    assert (Hok1 : BeijingTime.byDate_ok
                     (JsObject.set (BeijingTime.date bm) (repeat 0%N 1440) byDate)).
    { destruct Hok as [Hnd Hlen]. split.
      - apply (@Permutation_NoDup _ (BeijingTime.date bm :: map fst byDate)).
        + symmetry. apply (Permutation_map fst) in Hperm. exact Hperm.
        + constructor; [apply has_key_false_not_in; exact Hnew | exact Hnd].
      - apply Forall_forall. intros kv Hkv.
        apply (Permutation_in _ Hperm) in Hkv. destruct Hkv as [<- | Hkv].
        + apply repeat_length.
        + rewrite Forall_forall in Hlen. apply Hlen. exact Hkv. }
    destruct (@increment_keeps_ok (BeijingTime.date bm)
                (Z.to_nat (BeijingTime.minuteOfDay bm)) (repeat 0%N 1440) _ Hok1 Hl1 Hm)
      as [H1 H2].
    split; [exact H1|]. rewrite H2, (total_perm Hperm).
    change (BeijingTime.total ((BeijingTime.date bm, repeat 0%N 1440) :: byDate))
      with (fold_right N.add 0 (repeat 0 1440) + BeijingTime.total byDate)%N.
    rewrite zeros_sum. lia.
Qed.

Lemma count_records_keeps_ok (records : list ErrorTracker.record)
  (byDate : JsObject.t (list N)) :
  BeijingTime.byDate_ok byDate ->
  BeijingTime.byDate_ok (fold_left (BeijingTime.count_record getUTCFullYear getUTCMonth getUTCDate)
               records byDate)
  /\ BeijingTime.total
       (fold_left (BeijingTime.count_record getUTCFullYear getUTCMonth getUTCDate)
          records byDate)
     = (BeijingTime.total byDate + N.of_nat (List.length records))%N.
Proof.
  revert byDate. induction records as [|r records IH]; intros byDate Hok; simpl.
  - split; [exact Hok | lia].
  - destruct (@count_record_keeps_ok byDate r Hok) as [Hok1 Ht1].
    destruct (IH _ Hok1) as [Hok2 Ht2].
    split; [exact Hok2|]. rewrite Ht2, Ht1. lia.
Qed.

(** X17: the distribution returned by [getBeijingTimeDistribution] counts
    every record of the queried range exactly once: the counts of all
    dates add up to the number of records [get401Records] returns; every
    date has an array of 1440 counts; the dates are distinct, in ascending
    order, and are the dates of [distributionData]. *)
Theorem distribution_counts_each_record_once
  (now : Z) (range : ErrorTracker.timeRange) (records : list ErrorTracker.record) :
  let result := BeijingTime.getBeijingTimeDistribution
                  getUTCFullYear getUTCMonth getUTCDate parseInt now range records in
  BeijingTime.total (snd result)
  = N.of_nat (List.length (ErrorTracker.get401Records parseInt now range records))
  /\ Forall (fun dd => List.length (snd dd) = 1440) (snd result)
  /\ map fst (snd result) = fst result
  /\ NoDup (fst result)
  /\ Sorted (fun a b => String.leb a b = true) (fst result).
Proof.
  cbv zeta. unfold BeijingTime.getBeijingTimeDistribution. cbv zeta.
  cbn [fst snd].
  set (rs := ErrorTracker.get401Records parseInt now range records).
  set (byDate := fold_left
                   (BeijingTime.count_record getUTCFullYear getUTCMonth getUTCDate)
                   rs []).
  assert (Hempty : BeijingTime.byDate_ok []) by (split; constructor).
  destruct (@count_records_keeps_ok rs [] Hempty) as [[Hnd Hlen] Ht].
  fold byDate in Hnd, Hlen, Ht. simpl in Ht.
  pose proof (sort_perm (map fst byDate)) as Hperm.
  split; [|split; [|split; [|split]]].
  - rewrite total_of_pairs.
    rewrite (sum_map_perm _ Hperm), <- (@total_by_keys byDate Hnd). exact Ht.
  - apply Forall_forall. intros [d arr] Hin. apply in_map_iff in Hin.
    destruct Hin as (d' & Heq & Hd'). injection Heq as <- <-. cbn [snd].
    assert (Hk : In d' (map fst byDate))
      by (apply (Permutation_in _ Hperm); exact Hd').
    apply in_map_iff in Hk. destruct Hk as ([k v] & Hkd & Hkv). simpl in Hkd. subst k.
    destruct (JsObject.lookup d' byDate) as [arr|] eqn:Hl.
    + rewrite Forall_forall in Hlen. apply (Hlen (d', arr)). apply lookup_In. exact Hl.
    + apply lookup_none_has_key, has_key_false_not_in in Hl.
      exfalso. apply Hl. apply in_map_iff. exists (d', v). split; [reflexivity | exact Hkv].
  - rewrite map_map. simpl. apply map_id.
  - apply (@Permutation_NoDup _ (map fst byDate)); [symmetry; exact Hperm | exact Hnd].
  - apply sort_sorted.
Qed.

End DistributionProperties.

Lemma distribution_example :
  BeijingTime.getBeijingTimeDistribution
    TrackerFixtures.sample_year TrackerFixtures.sample_month TrackerFixtures.sample_day
    TrackerFixtures.sample_parseInt 1700090000000 (ErrorTracker.RangeNumber 3)
    TrackerFixtures.sample_records
  = (["2023-11-15"; "2023-11-16"],
     [("2023-11-15",
       BeijingTime.increment_at 374 (BeijingTime.increment_at 373 (repeat 0%N 1440)));
      ("2023-11-16", BeijingTime.increment_at 373 (repeat 0%N 1440))]).
Proof. vm_compute. reflexivity. Qed.

(** ** Error tracker with key hashes: the set of failed keys *)

Lemma set_has_In (k : string) (set : list string) :
  KeyedTracker.set_has k set = true <-> In k set.
Proof.
  unfold KeyedTracker.set_has. rewrite existsb_exists. split.
  - intros (x & Hx & E). apply String.eqb_eq in E. now subst.
  - intros H. exists k. split; [exact H | apply String.eqb_refl].
Qed.

Lemma set_has_false (k : string) (set : list string) :
  KeyedTracker.set_has k set = false <-> ~ In k set.
Proof.
  rewrite <- set_has_In. destruct (KeyedTracker.set_has k set); split;
    congruence || tauto.
Qed.

Lemma set_delete_In (k x : string) (set : list string) :
  In x (KeyedTracker.set_delete k set) <-> In x set /\ x <> k.
Proof.
  unfold KeyedTracker.set_delete. rewrite filter_In, negb_true_iff.
  rewrite String.eqb_neq. reflexivity.
Qed.

Lemma delete_all_In (ks set : list string) (x : string) :
  In x (fold_left (fun s k => KeyedTracker.set_delete k s) ks set)
  <-> In x set /\ ~ In x ks.
Proof.
  revert set. induction ks as [|k ks IH]; intros set; simpl; [tauto|].
  rewrite IH, set_delete_In. intuition congruence.
Qed.

Lemma delete_all_NoDup (ks set : list string) :
  NoDup set -> NoDup (fold_left (fun s k => KeyedTracker.set_delete k s) ks set).
Proof.
  revert set. induction ks as [|k ks IH]; intros set H; simpl; [exact H|].
  apply IH. apply NoDup_filter. exact H.
Qed.

Lemma add_all_In (records : list KeyedTracker.record) (set : list string) (x : string) :
  In x (fold_left (fun s r => KeyedTracker.set_add (KeyedTracker.keyHash r) s)
          records set)
  <-> In x set \/ In x (map KeyedTracker.keyHash records).
Proof.
  revert set. induction records as [|r records IH]; intros set; simpl; [tauto|].
  rewrite IH. unfold KeyedTracker.set_add.
  destruct (KeyedTracker.set_has (KeyedTracker.keyHash r) set) eqn:E.
  - apply set_has_In in E. intuition congruence.
  - rewrite in_app_iff. simpl. intuition congruence.
Qed.

Lemma filter_same_length {A} (f : A -> bool) (l : list A) :
  (List.length (filter f l) <? List.length l)%nat = false -> filter f l = l.
Proof.
  intros H. apply Nat.ltb_ge in H.
  induction l as [|x l IH]; [reflexivity|]. simpl in *.
  pose proof (filter_length_le f l) as Hle.
  destruct (f x); simpl in *.
  - f_equal. apply IH. lia.
  - lia.
Qed.

Lemma filter_split {A} (f : A -> bool) (l a b : list A) (x : A) :
  filter f l = a ++ x :: b ->
  exists a' b', l = a' ++ x :: b' /\ filter f a' = a.
Proof.
  revert a. induction l as [|y l IH]; intros a H; simpl in H.
  - destruct a; discriminate H.
  - destruct (f y) eqn:E.
    + destruct a as [|z a]; simpl in H.
      * injection H as -> _. exists [], l. split; reflexivity.
      * injection H as -> H. destruct (IH a H) as (a' & b' & -> & Ha).
        exists (z :: a'), b'. split; [reflexivity|]. simpl. rewrite E, Ha. reflexivity.
    + destruct (IH a H) as (a' & b' & -> & Ha).
      exists (y :: a'), b'. split; [reflexivity|]. simpl. rewrite E. exact Ha.
Qed.

Lemma snoc_split {A} (l a b : list A) (x y : A) :
  l ++ [x] = a ++ y :: b ->
  (b = [] /\ a = l /\ y = x) \/ (exists b', b = b' ++ [x] /\ l = a ++ y :: b').
Proof.
  destruct (exists_last (l := y :: b) ltac:(discriminate)) as (c & z & Hc).
  intros H. rewrite Hc in H. rewrite app_assoc in H.
  apply app_inj_tail in H. destruct H as [H ->].
  destruct c as [|c0 c]; simpl in Hc.
  - injection Hc as -> ->. left. rewrite app_nil_r in H. auto.
  - injection Hc as -> ->. right. exists c. split; [reflexivity | exact H].
Qed.

Section KeyedTrackerProperties.

Variable sha256_hex : string -> string.

(** What recording and cleaning up keep true of the state. *)
Lemma keyed_state_ok (actions : list KeyedTracker.action) :
  let st := KeyedTracker.after sha256_hex actions in
  NoDup (KeyedTracker.failedKeysSet st)
  /\ (forall k, In k (KeyedTracker.failedKeysSet st)
                <-> In k (map KeyedTracker.keyHash (KeyedTracker.error401Records st)))
  /\ KeyedTracker.first_flags_ok (KeyedTracker.error401Records st).
Proof.
  induction actions as [|a actions IH] using rev_ind.
  - cbv zeta. simpl. repeat split; try constructor; try tauto.
    intros before r later H. destruct before; discriminate H.
  - cbv zeta in *. unfold KeyedTracker.after in *. rewrite fold_left_app. simpl.
    set (st := fold_left (fun st a => KeyedTracker.perform sha256_hex a st) actions
                 KeyedTracker.initial) in *.
    destruct IH as (Hnd & Hset & Hfirst).
    destruct a as [now nowISO e | now]; simpl.
    + unfold KeyedTracker.record401Error. cbv zeta.
      set (h := KeyedTracker.generateKeyHash sha256_hex (KeyedTracker.apiKey e)).
      cbn [KeyedTracker.error401Records KeyedTracker.failedKeysSet].
      destruct (KeyedTracker.set_has h (KeyedTracker.failedKeysSet st)) eqn:Hh;
        cbn [negb].
      * apply set_has_In in Hh. split; [exact Hnd|]. split.
        -- intros k. rewrite map_app, in_app_iff. simpl. rewrite <- Hset.
           intuition congruence.
        -- intros before r later Heq Hr.
           apply snoc_split in Heq. destruct Heq as [(-> & -> & ->) | (b' & -> & Heq)].
           ++ discriminate Hr.
           ++ apply (Hfirst before r b' Heq Hr).
      * unfold KeyedTracker.set_add. rewrite Hh. apply set_has_false in Hh.
        split; [|split].
        -- apply NoDup_app; [exact Hnd | repeat constructor; tauto|].
           intros x Hx [<- | []]. exact (Hh Hx).
        -- intros k. rewrite map_app, !in_app_iff. simpl. rewrite <- Hset. tauto.
        -- intros before r later Heq Hr.
           apply snoc_split in Heq. destruct Heq as [(-> & -> & ->) | (b' & -> & Heq)].
           ++ cbn [KeyedTracker.keyHash]. rewrite <- Hset. exact Hh.
           ++ apply (Hfirst before r b' Heq Hr).
    + unfold KeyedTracker.cleanupOldRecords. cbv zeta.
      set (keep := fun r => ((now - ErrorTracker.RETENTION_MS <=? KeyedTracker.timestamp r)%Z)).
      assert (Hff : KeyedTracker.first_flags_ok
                      (filter keep (KeyedTracker.error401Records st))).
      { intros before r later Heq Hr.
        destruct (@filter_split _ keep _ _ _ _ Heq) as (a' & b' & Hl & <-).
        intros Hin. apply (Hfirst a' r b' Hl Hr).
        apply in_map_iff in Hin. destruct Hin as (r' & E & Hr').
        apply filter_In in Hr'. apply in_map_iff. exists r'. tauto. }
      destruct (List.length (filter keep (KeyedTracker.error401Records st))
                <? List.length (KeyedTracker.error401Records st))%nat eqn:Hlt;
        cbn [KeyedTracker.error401Records KeyedTracker.failedKeysSet].
      * split; [apply delete_all_NoDup; exact Hnd|]. split; [|exact Hff].
        intros k. rewrite delete_all_In, filter_In, negb_true_iff, set_has_false.
        rewrite add_all_In. simpl.
        assert (Hsub : In k (map KeyedTracker.keyHash
                               (filter keep (KeyedTracker.error401Records st))) ->
                       In k (KeyedTracker.failedKeysSet st)).
        { intros Hin. apply Hset. apply in_map_iff in Hin.
          destruct Hin as (r' & E & Hr'). apply filter_In in Hr'.
          apply in_map_iff. exists r'. tauto. }
        destruct (in_dec string_dec k
                    (map KeyedTracker.keyHash
                       (filter keep (KeyedTracker.error401Records st)))); tauto.
      * rewrite (@filter_same_length _ keep _ Hlt). repeat split; try assumption;
          apply Hset.
Qed.

(** X18: after any sequence of recordings and clean-ups, the set of failed
    keys has exactly the key hashes of the stored records as members; so
    the next 401 of a key is flagged as a first failure exactly when no
    stored record has the hash of that key. *)
Theorem first_failure_flag_is_exact
  (actions : list KeyedTracker.action) (now : Z) (nowISO : string)
  (e : KeyedTracker.errorInfo) :
  let st := KeyedTracker.after sha256_hex actions in
  let h := KeyedTracker.generateKeyHash sha256_hex (KeyedTracker.apiKey e) in
  (forall k, In k (KeyedTracker.failedKeysSet st)
             <-> exists r, In r (KeyedTracker.error401Records st)
                           /\ KeyedTracker.keyHash r = k)
  /\ exists r,
       KeyedTracker.error401Records
         (KeyedTracker.record401Error sha256_hex now nowISO e st)
       = KeyedTracker.error401Records st ++ [r]
       /\ KeyedTracker.keyHash r = h
       /\ (KeyedTracker.isFirstFail r = true
           <-> ~ exists r', In r' (KeyedTracker.error401Records st)
                            /\ KeyedTracker.keyHash r' = h).
Proof.
  intros st h.
  destruct (keyed_state_ok actions) as (_ & Hset & _). fold st in Hset.
  assert (Hex : forall k, In k (map KeyedTracker.keyHash (KeyedTracker.error401Records st))
                          <-> exists r, In r (KeyedTracker.error401Records st)
                                        /\ KeyedTracker.keyHash r = k).
  { intros k. rewrite in_map_iff. split; intros (r & H1 & H2); exists r; tauto. }
  split.
  - intros k. rewrite Hset. apply Hex.
  - unfold KeyedTracker.record401Error. cbv zeta. fold h.
    cbn [KeyedTracker.error401Records].
    eexists. split; [reflexivity|]. cbn [KeyedTracker.keyHash KeyedTracker.isFirstFail].
    split; [reflexivity|].
    rewrite negb_true_iff, set_has_false, Hset, Hex. reflexivity.
Qed.

Lemma first_hashes_distinct (records : list KeyedTracker.record) :
  KeyedTracker.first_flags_ok records ->
  NoDup (map KeyedTracker.keyHash
           (filter (fun r => Bool.eqb (KeyedTracker.isFirstFail r) true) records)).
Proof.
  induction records as [|r records IH]; intros Hok; [constructor|].
  assert (Hok' : KeyedTracker.first_flags_ok records).
  { intros before x later Heq Hx Hin.
    apply (Hok (r :: before) x later); [rewrite Heq; reflexivity | exact Hx|].
    simpl. now right. }
  simpl. destruct (KeyedTracker.isFirstFail r) eqn:Hr; simpl; [|apply IH; exact Hok'].
  constructor; [|apply IH; exact Hok'].
  intros Hin. apply in_map_iff in Hin. destruct Hin as (x & Hx & Hin).
  apply filter_In in Hin. destruct Hin as [Hin Hfx].
  apply eqb_prop in Hfx.
  destruct (in_split _ _ Hin) as (b & c & ->).
  apply (Hok (r :: b) x c eq_refl Hfx). simpl. left. congruence.
Qed.

(** X19: the counters of [getTrackerStatus] are consistent in every state
    the module can reach: there are at most as many first-failure records
    as failed keys, at most as many failed keys as records, and the first
    and repeated failures add up to the total. *)
Theorem status_counts_consistent (actions : list KeyedTracker.action) :
  let '(totalRecords, firstFailRecords, repeatFailRecords, uniqueFailedKeys) :=
    KeyedTracker.status_counts (KeyedTracker.after sha256_hex actions) in
  firstFailRecords <= uniqueFailedKeys
  /\ uniqueFailedKeys <= totalRecords
  /\ firstFailRecords + repeatFailRecords = totalRecords.
Proof.
  unfold KeyedTracker.status_counts. cbv zeta.
  destruct (keyed_state_ok actions) as (Hnd & Hset & Hfirst).
  set (st := KeyedTracker.after sha256_hex actions) in *.
  set (firsts := filter (fun r => Bool.eqb (KeyedTracker.isFirstFail r) true)
                   (KeyedTracker.error401Records st)).
  assert (H1 : List.length firsts <= List.length (KeyedTracker.failedKeysSet st)).
  { rewrite <- (length_map KeyedTracker.keyHash firsts).
    apply NoDup_incl_length; [apply first_hashes_distinct; exact Hfirst|].
    intros k Hk. apply Hset. apply in_map_iff in Hk.
    destruct Hk as (r & E & Hr). apply filter_In in Hr.
    apply in_map_iff. exists r. tauto. }
  assert (H2 : List.length (KeyedTracker.failedKeysSet st)
               <= List.length (KeyedTracker.error401Records st)).
  { rewrite <- (length_map KeyedTracker.keyHash (KeyedTracker.error401Records st)).
    apply NoDup_incl_length; [exact Hnd|].
    intros k Hk. apply Hset. exact Hk. }
  pose proof (filter_length_le (fun r => Bool.eqb (KeyedTracker.isFirstFail r) true)
                (KeyedTracker.error401Records st)) as H3.
  fold firsts in H3. repeat split; lia.
Qed.

Lemma trim_start_idempotent (s : string) :
  JsString.trim_start (JsString.trim_start s) = JsString.trim_start s.
Proof.
  induction s as [|c s IH]; [reflexivity|]. simpl.
  destruct (JsString.is_space c) eqn:E; [exact IH|].
  simpl. rewrite E. reflexivity.
Qed.

Lemma bearer_word_split (word s : string) :
  KeyedTracker.upper_string word = "BEARER" ->
  KeyedTracker.take 6 (word ++ s)%string = word
  /\ JsString.drop 6 (word ++ s)%string = s.
Proof.
  intros H.
  destruct word as [|c1 [|c2 [|c3 [|c4 [|c5 [|c6 [|c7 w]]]]]]]; try discriminate H.
  split; reflexivity.
Qed.

(** X20: [generateKeyHash] does not tell a key from the same key behind
    the word Bearer: for a key that does not itself start with that word,
    putting Bearer (in any letter case) and a space in front of it gives
    the same hash; and a missing or empty key, and one that is only white
    space, give "unknown". *)
Theorem key_hash_ignores_bearer_prefix (word key : string)
  (Hword : KeyedTracker.upper_string word = "BEARER")
  (Hplain : KeyedTracker.strip_bearer key = key) :
  KeyedTracker.generateKeyHash sha256_hex (Some (word ++ " " ++ key)%string)
  = KeyedTracker.generateKeyHash sha256_hex (Some key)
  /\ KeyedTracker.generateKeyHash sha256_hex None = "unknown"
  /\ KeyedTracker.generateKeyHash sha256_hex (Some "") = "unknown"
  /\ (JsString.trim key = "" ->
      KeyedTracker.generateKeyHash sha256_hex (Some key) = "unknown").
Proof.
  assert (Hstrip : KeyedTracker.strip_bearer (word ++ " " ++ key)%string
                   = JsString.trim_start key).
  { unfold KeyedTracker.strip_bearer.
    destruct (@bearer_word_split word (" " ++ key)%string Hword) as [-> ->].
    rewrite Hword. reflexivity. }
  assert (Hkey : KeyedTracker.generateKeyHash sha256_hex (Some key)
                 = if String.eqb (JsString.trim key) "" then "unknown"
                   else KeyedTracker.take 12 (sha256_hex (JsString.trim key))).
  { unfold KeyedTracker.generateKeyHash. rewrite Hplain.
    destruct (String.eqb key "") eqn:E; [|reflexivity].
    apply String.eqb_eq in E. subst key. reflexivity. }
  split; [|split; [reflexivity | split; [reflexivity|]]].
  - rewrite Hkey. unfold KeyedTracker.generateKeyHash. rewrite Hstrip.
    assert (Hne : String.eqb (word ++ " " ++ key)%string "" = false).
    { destruct word; [discriminate Hword | reflexivity]. }
    rewrite Hne. unfold JsString.trim. rewrite trim_start_idempotent. reflexivity.
  - intros Ht. rewrite Hkey, Ht. reflexivity.
Qed.

End KeyedTrackerProperties.

Lemma key_hash_ignores_bearer_prefix_witness :
  KeyedTracker.generateKeyHash (fun s => ("digest-of-" ++ s)%string)
    (Some "bEaReR sk-test-1")
  = KeyedTracker.generateKeyHash (fun s => ("digest-of-" ++ s)%string)
      (Some "sk-test-1").
Proof.
  apply (@key_hash_ignores_bearer_prefix (fun s => ("digest-of-" ++ s)%string)
           "bEaReR" "sk-test-1").
  - reflexivity.
  - reflexivity.
Defined.

(** ** User-agent updater *)

Lemma take_digits_spec (s : string) :
  let '(d, r) := UserAgentUpdater.take_digits s in
  s = (d ++ r)%string /\ JsObject.all_digits d = true
  /\ match r with
     | String c _ => JsObject.is_digit c = false
     | EmptyString => True
     end.
Proof.
  induction s as [|c s IH]; simpl; [repeat split|].
  destruct (JsObject.is_digit c) eqn:E.
  - destruct (UserAgentUpdater.take_digits s) as [d r].
    destruct IH as (-> & Hd & Hr). simpl. rewrite E, Hd. repeat split. exact Hr.
  - simpl. rewrite E. repeat split.
Qed.

Lemma take_digits_app (d r : string) :
  JsObject.all_digits d = true ->
  match r with
  | String c _ => JsObject.is_digit c = false
  | EmptyString => True
  end ->
  UserAgentUpdater.take_digits (d ++ r) = (d, r).
Proof.
  intros Hd Hr. induction d as [|c d IH]; simpl in *.
  - destruct r as [|c r]; [reflexivity|]. simpl. rewrite Hr. reflexivity.
  - apply andb_true_iff in Hd. destruct Hd as [Hc Hd].
    rewrite Hc, (IH Hd). reflexivity.
Qed.

(** The text a match of the version pattern returns is a version itself. *)
Lemma match_version_idempotent (s v : string) :
  UserAgentUpdater.match_version s = Some v ->
  UserAgentUpdater.match_version v = Some v.
Proof.
  unfold UserAgentUpdater.match_version.
  pose proof (take_digits_spec s) as H1.
  destruct (UserAgentUpdater.take_digits s) as [d1 r1].
  destruct H1 as (_ & Hd1 & _).
  destruct d1 as [|a1 d1]; [discriminate|].
  destruct r1 as [|dot1 r1]; [discriminate|].
  destruct (Ascii.eqb dot1 ".") eqn:E1;
    [apply Ascii.eqb_eq in E1; subst dot1
    |destruct dot1 as [[] [] [] [] [] [] [] []]; try discriminate; discriminate E1].
  pose proof (take_digits_spec r1) as H2.
  destruct (UserAgentUpdater.take_digits r1) as [d2 r2].
  destruct H2 as (_ & Hd2 & _).
  destruct d2 as [|a2 d2]; [discriminate|].
  destruct r2 as [|dot2 r2]; [discriminate|].
  destruct (Ascii.eqb dot2 ".") eqn:E2;
    [apply Ascii.eqb_eq in E2; subst dot2
    |destruct dot2 as [[] [] [] [] [] [] [] []]; try discriminate; discriminate E2].
  pose proof (take_digits_spec r2) as H3.
  destruct (UserAgentUpdater.take_digits r2) as [d3 r3].
  destruct H3 as (_ & Hd3 & _).
  destruct d3 as [|a3 d3]; [discriminate|].
  intros H. injection H as <-.
  pose proof (@take_digits_app (String a1 d1)
                ("." ++ String a2 d2 ++ "." ++ String a3 d3)%string Hd1 eq_refl) as T1.
  pose proof (@take_digits_app (String a2 d2) ("." ++ String a3 d3)%string
                Hd2 eq_refl) as T2.
  pose proof (@take_digits_app (String a3 d3) "" Hd3 I) as T3.
  rewrite append_empty_r in T3. cbn [append] in T1, T2.
  rewrite T1, T2, T3. reflexivity.
Qed.

Lemma search_version_is_version (s v : string) :
  UserAgentUpdater.search_version s = Some v ->
  UserAgentUpdater.match_version v = Some v.
Proof.
  induction s as [|c s IH]; simpl; [discriminate|].
  destruct (Ascii.eqb c "/"); [|exact IH].
  destruct (UserAgentUpdater.match_version s) as [w|] eqn:E; [|exact IH].
  intros H. injection H as <-. apply (match_version_idempotent _ E).
Qed.

Lemma default_version_is_version (user_agent : option string) :
  UserAgentUpdater.match_version (UserAgentUpdater.getDefaultVersion user_agent)
  = Some (UserAgentUpdater.getDefaultVersion user_agent).
Proof.
  unfold UserAgentUpdater.getDefaultVersion. cbv zeta.
  destruct (UserAgentUpdater.search_version _) as [v|] eqn:E.
  - apply (search_version_is_version _ E).
  - reflexivity.
Qed.

(** X21: a configured user agent [factory-cli/<version>] with a version of
    the form digits.digits.digits is what [getCurrentUserAgent] returns on
    first use: the version is read out of the configured string and put
    back behind the prefix unchanged. *)
Theorem configured_user_agent_round_trip (v : string)
  (Hv : UserAgentUpdater.match_version v = Some v) :
  UserAgentUpdater.getDefaultVersion (Some ("factory-cli/" ++ v)%string) = v
  /\ fst (UserAgentUpdater.getCurrentUserAgent (Some ("factory-cli/" ++ v)%string)
            UserAgentUpdater.initial)
     = ("factory-cli/" ++ v)%string.
Proof.
  assert (H : UserAgentUpdater.getDefaultVersion (Some ("factory-cli/" ++ v)%string) = v).
  { unfold UserAgentUpdater.getDefaultVersion. cbv zeta.
    cbn [ErrorTracker.or_else append String.eqb Ascii.eqb Bool.eqb].
    cbn [UserAgentUpdater.search_version Ascii.eqb Bool.eqb].
    rewrite Hv. reflexivity. }
  split; [exact H|].
  unfold UserAgentUpdater.getCurrentUserAgent, UserAgentUpdater.initializeVersion.
  cbn [UserAgentUpdater.initial UserAgentUpdater.currentVersion fst].
  rewrite H. reflexivity.
Qed.

Lemma configured_user_agent_round_trip_witness :
  fst (UserAgentUpdater.getCurrentUserAgent (Some "factory-cli/0.22.14")
         UserAgentUpdater.initial)
  = "factory-cli/0.22.14".
Proof.
  apply (@configured_user_agent_round_trip "0.22.14"). reflexivity.
Defined.

Lemma begin_updates_locked (calls : nat) (st : UserAgentUpdater.state) :
  UserAgentUpdater.isUpdating st = true ->
  UserAgentUpdater.begin_updates calls st = (st, 0).
Proof.
  intros Hlock. induction calls as [|calls IH]; [reflexivity|].
  simpl. unfold UserAgentUpdater.begin_update. rewrite Hlock, IH. reflexivity.
Qed.

(** X22: when the fetch of an attempt before the last one fails, the
    retry is scheduled but [isUpdating] stays set; the scheduled retry and
    every later call of [updateVersionWithRetry] therefore return at
    their first test without starting a fetch, and the version stays what
    it was. *)
Theorem failed_fetch_locks_updater
  (st : UserAgentUpdater.state) (retryCount calls : nat)
  (response : option (Z * string))
  (Hidle : UserAgentUpdater.isUpdating st = false)
  (Hretry : retryCount < UserAgentUpdater.MAX_RETRIES - 1)
  (Hfail : UserAgentUpdater.fetchLatestVersion response = None) :
  let started := UserAgentUpdater.begin_update st in
  let settled :=
    UserAgentUpdater.finish_update retryCount
      (UserAgentUpdater.fetchLatestVersion response) (fst started) in
  snd started = true
  /\ snd settled = Some (retryCount + 1)
  /\ UserAgentUpdater.isUpdating (fst settled) = true
  /\ UserAgentUpdater.begin_updates calls (fst settled) = (fst settled, 0)
  /\ UserAgentUpdater.currentVersion (fst settled)
     = UserAgentUpdater.currentVersion st.
Proof.
  cbv zeta. unfold UserAgentUpdater.begin_update. rewrite Hidle, Hfail.
  cbn [fst snd]. unfold UserAgentUpdater.finish_update.
  apply Nat.ltb_lt in Hretry. rewrite Hretry. cbn [fst snd].
  repeat split. apply begin_updates_locked. reflexivity.
Qed.

Lemma failed_fetch_locks_updater_witness :
  UserAgentUpdater.begin_updates 5
    (fst (UserAgentUpdater.finish_update 0
            (UserAgentUpdater.fetchLatestVersion (Some (503%Z, "")))
            (fst (UserAgentUpdater.begin_update UserAgentUpdater.initial))))
  = (fst (UserAgentUpdater.finish_update 0
            (UserAgentUpdater.fetchLatestVersion (Some (503%Z, "")))
            (fst (UserAgentUpdater.begin_update UserAgentUpdater.initial))), 0).
Proof.
  apply (@failed_fetch_locks_updater UserAgentUpdater.initial 0 5 (Some (503%Z, ""))).
  - reflexivity.
  - unfold UserAgentUpdater.MAX_RETRIES. lia.
  - reflexivity.
Defined.

Lemma updater_version_ok (actions : list UserAgentUpdater.action) :
  match UserAgentUpdater.currentVersion (UserAgentUpdater.after actions) with
  | Some v => exists w, UserAgentUpdater.match_version v = Some w
  | None => True
  end.
Proof.
  induction actions as [|a actions IH] using rev_ind; [exact I|].
  unfold UserAgentUpdater.after in *. rewrite fold_left_app. simpl.
  set (st := fold_left (fun st a => UserAgentUpdater.perform a st) actions
               UserAgentUpdater.initial) in *.
  destruct a as [ua | | retryCount response]; simpl.
  - unfold UserAgentUpdater.initializeVersion.
    destruct (UserAgentUpdater.currentVersion st) as [v|] eqn:E.
    + rewrite E. exact IH.
    + simpl. eexists. apply default_version_is_version.
  - unfold UserAgentUpdater.begin_update.
    destruct (UserAgentUpdater.isUpdating st); exact IH.
  - unfold UserAgentUpdater.finish_update.
    destruct (UserAgentUpdater.fetchLatestVersion response) as [version|] eqn:E.
    + simpl. unfold UserAgentUpdater.fetchLatestVersion in E.
      destruct response as [[statusCode data]|]; [|discriminate E].
      destruct (negb (statusCode =? 200)%Z); [discriminate E|].
      destruct (negb (String.eqb (JsString.trim data) "")); [|discriminate E].
      destruct (UserAgentUpdater.match_version (JsString.trim data)) as [w|] eqn:Ew;
        [|discriminate E].
      simpl in E. injection E as <-. exists w. exact Ew.
    + destruct (retryCount <? UserAgentUpdater.MAX_RETRIES - 1)%nat; exact IH.
Qed.

(** X23: in every state the module can reach, whatever was configured and
    whatever the version server sent, [getCurrentUserAgent] returns
    [factory-cli/] followed by text that starts with a version of the form
    digits.digits.digits. *)
Theorem user_agent_always_has_version
  (actions : list UserAgentUpdater.action) (user_agent : option string) :
  exists v w,
    fst (UserAgentUpdater.getCurrentUserAgent user_agent
           (UserAgentUpdater.after actions))
    = ("factory-cli/" ++ v)%string
    /\ UserAgentUpdater.match_version v = Some w.
Proof.
  pose proof (updater_version_ok actions) as H.
  unfold UserAgentUpdater.getCurrentUserAgent, UserAgentUpdater.initializeVersion.
  cbv zeta. cbn [fst].
  destruct (UserAgentUpdater.currentVersion (UserAgentUpdater.after actions))
    as [v|] eqn:E.
  - rewrite E. destruct H as [w Hw]. exists v, w. split; [reflexivity | exact Hw].
  - cbn [UserAgentUpdater.currentVersion].
    exists (UserAgentUpdater.getDefaultVersion user_agent),
           (UserAgentUpdater.getDefaultVersion user_agent).
    split; [reflexivity | apply default_version_is_version].
Qed.

(** ** Substitution engine: no pattern survives obfuscation *)

Lemma starts_with_prefix (p a b : string) :
  JsString.starts_with p a = true -> JsString.starts_with p (a ++ b) = true.
Proof.
  revert a. induction p as [|x p IH]; intros a; [reflexivity|].
  destruct a as [|y a]; simpl; [discriminate|].
  destruct (Ascii.eqb x y); [apply IH | discriminate].
Qed.

Lemma starts_with_across_unit (p a b : string) (c : ascii) :
  JsString.mem c p = false ->
  JsString.starts_with p (a ++ String c b) = JsString.starts_with p a.
Proof.
  revert a. induction p as [|x p IH]; intros a Hc; [reflexivity|].
  simpl in Hc. apply orb_false_iff in Hc. destruct Hc as [Hx Hp].
  destruct a as [|y a]; simpl.
  - rewrite Ascii.eqb_sym, Hx. reflexivity.
  - destruct (Ascii.eqb x y); [apply IH; exact Hp | reflexivity].
Qed.

Lemma includes_app_false (p a b : string) :
  JsString.includes p (a ++ b) = false ->
  JsString.includes p a = false /\ JsString.includes p b = false.
Proof.
  induction a as [|y a IH]; intros H.
  - simpl in H. split; [|exact H].
    destruct p as [|x p]; [destruct b; discriminate H | reflexivity].
  - change (String y a ++ b)%string with (String y (a ++ b)) in H.
    cbn [JsString.includes] in H. apply orb_false_iff in H. destruct H as [H1 H2].
    destruct (IH H2) as [Ha Hb]. split; [|exact Hb].
    cbn [JsString.includes]. rewrite Ha, orb_false_r.
    destruct (JsString.starts_with p (String y a)) eqn:E; [|reflexivity].
    pose proof (@starts_with_prefix p (String y a) b E) as H'.
    change (String y a ++ b)%string with (String y (a ++ b)) in H'.
    rewrite H' in H1. discriminate H1.
Qed.

Lemma includes_across_unit (p a b : string) (c : ascii) :
  p <> "" -> JsString.mem c p = false ->
  JsString.includes p a = false -> JsString.includes p b = false ->
  JsString.includes p (a ++ String c b) = false.
Proof.
  intros Hp Hc Ha Hb. induction a as [|y a IH].
  - simpl. rewrite Hb, orb_false_r.
    destruct p as [|x p]; [congruence|]. simpl in *.
    apply orb_false_iff in Hc. destruct Hc as [Hx _].
    rewrite Ascii.eqb_sym, Hx. reflexivity.
  - cbn [JsString.includes] in Ha. apply orb_false_iff in Ha. destruct Ha as [H1 H2].
    change (String y a ++ String c b)%string with (String y (a ++ String c b)).
    cbn [JsString.includes]. rewrite (IH H2), orb_false_r.
    change (String y (a ++ String c b)) with (String y a ++ String c b)%string.
    rewrite (@starts_with_across_unit p (String y a) b c Hc). exact H1.
Qed.

Lemma includes_join_rest_unit (p : string) (c : ascii) (pieces : list string) :
  p <> "" -> JsString.mem c p = false ->
  Forall (fun q => JsString.includes p q = false) pieces ->
  forall a, JsString.includes p a = false ->
            JsString.includes p (a ++ JsString.join_rest (String c "") pieces) = false.
Proof.
  intros Hp Hc Hall. induction Hall as [|q pieces Hq _ IH]; intros a Ha.
  - simpl. rewrite append_empty_r. exact Ha.
  - simpl. apply includes_across_unit; try assumption.
    apply IH. exact Hq.
Qed.

(** The pieces [split] cuts out hold no occurrence of the separator. *)
Lemma split_scan_pieces_free (c0 : ascii) (sep' s : string) (k : nat) :
  let sep := String c0 sep' in
  JsString.includes sep (fst (JsString.split_scan sep k s)) = false
  /\ Forall (fun q => JsString.includes sep q = false)
       (snd (JsString.split_scan sep k s)).
Proof.
  intros sep. revert k. induction s as [|c s IH]; intros k.
  - simpl. split; [reflexivity | constructor].
  - destruct k as [|k]; [|apply IH].
    cbn [JsString.split_scan].
    destruct (JsString.starts_with sep (String c s)) eqn:Hm.
    + destruct (IH (String.length sep - 1)) as [H1 H2].
      destruct (JsString.split_scan sep (String.length sep - 1) s) as [q qs].
      cbn [fst snd] in *. split; [reflexivity|]. constructor; assumption.
    + destruct (IH 0) as [H1 H2].
      pose proof (@split_scan_glue c0 sep' s 0 (Nat.le_0_l _)) as Hglue.
      cbv zeta in Hglue. fold sep in Hglue.
      rewrite Nat.sub_0_r, drop_all in Hglue. specialize (Hglue eq_refl).
      destruct (JsString.split_scan sep 0 s) as [q qs].
      cbn [fst snd JsString.drop] in *. split; [|exact H2].
      cbn [JsString.includes]. rewrite H1, orb_false_r.
      destruct (JsString.starts_with sep (String c q)) eqn:E; [|reflexivity].
      rewrite <- Hglue in Hm.
      change (String c (q ++ JsString.join_rest sep qs))
        with (String c q ++ JsString.join_rest sep qs)%string in Hm.
      rewrite (@starts_with_prefix sep (String c q) (JsString.join_rest sep qs) E) in Hm.
      discriminate Hm.
Qed.

Lemma includes_join_rest_pieces (p sep : string) (pieces : list string) (a : string) :
  JsString.includes p (a ++ JsString.join_rest sep pieces) = false ->
  JsString.includes p a = false
  /\ Forall (fun q => JsString.includes p q = false) pieces.
Proof.
  revert a. induction pieces as [|q pieces IH]; intros a H.
  - simpl in H. rewrite append_empty_r in H. split; [exact H | constructor].
  - simpl in H. apply includes_app_false in H. destruct H as [Ha H].
    apply includes_app_false in H. destruct H as [_ H].
    destruct (IH q H) as [Hq Hrest]. split; [exact Ha|]. constructor; assumption.
Qed.

(** Replacing a pattern by a unit that is not in it leaves no occurrence
    of the pattern. *)
Lemma replace_all_removes (p s : string) (c : ascii) :
  p <> "" -> JsString.mem c p = false ->
  JsString.includes p (JsString.replace_all p (String c "") s) = false.
Proof.
  intros Hp Hc. unfold JsString.replace_all, JsString.split.
  destruct p as [|c0 p']; [congruence|].
  destruct (@split_scan_pieces_free c0 p' s 0) as [H1 H2].
  destruct (JsString.split_scan (String c0 p') 0 s) as [q qs].
  rewrite join_cons. apply includes_join_rest_unit; assumption.
Qed.

(** Replacing another pattern by a unit that is not in [p] brings no
    occurrence of [p] into a text that has none. *)
Lemma replace_all_keeps_free (p p2 s : string) (c : ascii) :
  p <> "" -> JsString.mem c p = false ->
  JsString.includes p s = false ->
  JsString.includes p (JsString.replace_all p2 (String c "") s) = false.
Proof.
  intros Hp Hc Hs. unfold JsString.replace_all.
  pose proof (join_split p2 s) as Hj.
  destruct (JsString.split p2 s) as [|q qs].
  - simpl. destruct p; [congruence | reflexivity].
  - rewrite join_cons in Hj |- *. rewrite <- Hj in Hs.
    destruct (@includes_join_rest_pieces p p2 qs q Hs) as [Hq Hqs].
    apply includes_join_rest_unit; assumption.
Qed.

Lemma apply_entries_keeps_free (dict : JsObject.t string) (p s : string) :
  p <> "" ->
  (forall p' r', In (p', r') dict ->
                 exists c, r' = String c "" /\ JsString.mem c p = false) ->
  JsString.includes p s = false ->
  JsString.includes p (apply_entries dict s) = false.
Proof.
  unfold apply_entries. intros Hp.
  revert s. induction dict as [|[p2 r2] dict IH]; intros s Hfresh Hs; [exact Hs|].
  cbn [fold_left fst snd].
  destruct (Hfresh p2 r2 (or_introl eq_refl)) as (c & -> & Hc).
  apply IH.
  - intros p' r' Hin. apply (Hfresh p' r'). now right.
  - apply replace_all_keeps_free; assumption.
Qed.

Lemma apply_entries_removes (dict : JsObject.t string) (p r s : string) :
  p <> "" -> In (p, r) dict ->
  (forall p' r', In (p', r') dict ->
                 exists c, r' = String c "" /\ JsString.mem c p = false) ->
  JsString.includes p (apply_entries dict s) = false.
Proof.
  unfold apply_entries. intros Hp.
  revert s. induction dict as [|[p2 r2] dict IH]; intros s Hin Hfresh; [destruct Hin|].
  cbn [fold_left fst snd].
  assert (Hrest : forall p' r', In (p', r') dict ->
                    exists c, r' = String c "" /\ JsString.mem c p = false)
    by (intros p' r' H; apply (Hfresh p' r'); now right).
  destruct Hin as [Heq | Hin].
  - injection Heq as -> ->.
    destruct (Hfresh p r (or_introl eq_refl)) as (c & -> & Hc).
    apply (@apply_entries_keeps_free dict p _ Hp Hrest).
    apply replace_all_removes; assumption.
  - apply IH; assumption.
Qed.

(** X24: when every replacement of the forward dictionary is a single code
    unit that occurs in no pattern, the string [obfuscateString] returns
    holds no occurrence of any non-empty pattern of the dictionary, and so
    does every string of a tree [obfuscateRequestBody] returns for a
    well-formed tree. *)
Theorem no_pattern_survives_obfuscation
  (st : Obfuscator.state) (pattern replacement : string)
  (Hfresh : FreshUnits.values_fresh (Obfuscator.requestReplacements st))
  (Hin : In (pattern, replacement) (Obfuscator.requestReplacements st))
  (Hne : pattern <> "") :
  (forall s, JsString.includes pattern (Obfuscator.obfuscateString st s) = false)
  /\ (forall x, tree_well_formed x ->
                tree_includes pattern (Obfuscator.obfuscateRequestBody st x) = false).
Proof.
  assert (Hstr : forall s, JsString.includes pattern (Obfuscator.obfuscateString st s)
                           = false).
  { intros s. unfold Obfuscator.obfuscateString.
    destruct (String.eqb s "") eqn:E.
    - apply String.eqb_eq in E. subst s. destruct pattern; [congruence | reflexivity].
    - apply (@apply_entries_removes _ pattern replacement s Hne Hin).
      intros p' r' Hin'. apply (Hfresh pattern replacement p' r' Hin Hin'). }
  split; [exact Hstr|].
  intros x Hwf. unfold Obfuscator.obfuscateRequestBody.
  destruct (Obfuscator.requestReplacements st) as [|e fwd] eqn:Hfwd; [destruct Hin|].
  cbn [List.length Nat.eqb].
  clear Hfwd. revert Hwf.
  induction x as [| |b|n|s|items IH|props IH] using value_tree_ind;
    intros Hwf; try reflexivity.
  - apply Hstr.
  - apply well_formed_items in Hwf. cbn [processObject tree_includes].
    induction IH as [|x items Hx _ IHitems]; [reflexivity|].
    inversion Hwf; subst. simpl. rewrite (Hx ltac:(assumption)). simpl.
    apply IHitems. assumption.
  - apply well_formed_props in Hwf. destruct Hwf as [Hwf Hsub].
    rewrite (@processObject_well_formed_props (Obfuscator.obfuscateString st) props Hwf).
    cbn [tree_includes]. clear Hwf.
    induction IH as [|[k x] props Hx _ IHprops]; [reflexivity|].
    inversion Hsub; subst. simpl in *. rewrite (Hx ltac:(assumption)). simpl.
    apply IHprops. assumption.
Qed.

Lemma no_pattern_survives_obfuscation_witness :
  JsString.includes "secret_key"
    (Obfuscator.obfuscateString
       (Obfuscator.loadReplacements (Some Fixtures.marker_rules))
       "a secret_key and secret_secret_keykey") = false.
Proof.
  apply (proj1 (@no_pattern_survives_obfuscation
                  (Obfuscator.loadReplacements (Some Fixtures.marker_rules))
                  "secret_key" "#"
                  ltac:(intros p r p' r' [H | [H | []]] [H' | [H' | []]];
                        inversion H; subst; inversion H'; subst;
                        eexists; split; reflexivity)
                  ltac:(left; reflexivity)
                  ltac:(discriminate))).
Defined.
